(** * gif-spinner: raster-to-vector pipeline and circular layout

    A shallow embedding of [js/svgConverter.js] and [js/spinnerGenerator.js].

    Numbers.  A JavaScript number is an IEEE 754 binary64 value.  Wherever the
    source computes with fractions (luminance weights, distances, radii) the
    embedding uses Rocq's primitive [float], which is the same format with the
    same round-to-nearest-even operations, so that closed examples evaluate
    to the very bits the script produces.  Numbers that only ever hold small
    integers (pixel coordinates, array indices, loop counters, byte values)
    are [Z] or [nat]; [Z2F] is the place where such a number is read as a
    coordinate.  [undefined] read from an array is [None].  The one quotient
    of two integers that is only compared with an integer (the window average
    of the adaptive threshold) is an exact rational.

    Loops.  A [for] loop is a [foldl] over the indices it visits, a [while]
    loop with a step budget is a fixpoint on the remaining budget, and the
    recursion of [simplifyContour] is a fixpoint on the depth of the call
    stack.  Arrays are lists with stdpp's lookup and insert.

    The first part holds the definitions, the second part the proofs. *)

From Stdlib Require Import ZArith List Floats String Ascii QArith Lia Lqa.
From Stdlib Require Import DecimalString.
From stdpp Require Import base option list list_numbers.

Local Open Scope nat_scope.
#[local] Set Warnings "-inexact-float".

(** ** Numbers *)

(** The binary64 value of an integer (exact below 2^53). *)
Definition Z2F (z : Z) : float :=
  match z with
  | Z0 => 0%float
  | Zpos _ => PrimFloat.of_uint63 (Uint63.of_Z z)
  | Zneg p => (- PrimFloat.of_uint63 (Uint63.of_Z (Zpos p)))%float
  end.

(** [a || d] on an optional integer option: [undefined] and [0] are falsy. *)
Definition orDefault (a : option Z) (d : Z) : Z :=
  match a with
  | Some 0%Z | None => d
  | Some v => v
  end.

(** ** Points and contours *)

Record Point := mkPoint { px : float; py : float }.

(** A pixel of the occupancy grid, [{x: cx, y: cy}] with integer fields. *)
Abbreviation Pixel := (Z * Z)%type.

Definition pixelPoint (p : Pixel) : Point := mkPoint (Z2F (fst p)) (Z2F (snd p)).

(** ** Path simplification ([simplifyContour], [pointLineDistance]) *)

Definition pointLineDistance (point lineStart lineEnd : Point) : float :=
  let dx := (px lineEnd - px lineStart)%float in
  let dy := (py lineEnd - py lineStart)%float in
  if ((dx =? 0) && (dy =? 0))%float then
    let distX := (px point - px lineStart)%float in
    let distY := (py point - py lineStart)%float in
    PrimFloat.sqrt (distX * distX + distY * distY)
  else
    let t := (((px point - px lineStart) * dx + (py point - py lineStart) * dy)
              / (dx * dx + dy * dy))%float in
    if (t <? 0)%float then
      let distX := (px point - px lineStart)%float in
      let distY := (py point - py lineStart)%float in
      PrimFloat.sqrt (distX * distX + distY * distY)
    else if (1 <? t)%float then
      let distX := (px point - px lineEnd)%float in
      let distY := (py point - py lineEnd)%float in
      PrimFloat.sqrt (distX * distX + distY * distY)
    else
      let projX := (px lineStart + t * dx)%float in
      let projY := (py lineStart + t * dy)%float in
      let distX := (px point - projX)%float in
      let distY := (py point - projY)%float in
      PrimFloat.sqrt (distX * distX + distY * distY).

(** One round of the scan [for (i = 1; i < contour.length - 1; i++)]:
    the state is [(maxDist, index)]. *)
Definition farthestStep (contour : list Point) (start end_ : Point)
    (st : float * nat) (i : nat) : float * nat :=
  match contour !! i with
  | Some p =>
      let dist := pointLineDistance p start end_ in
      if (fst st <? dist)%float then (dist, i) else st
  | None => st
  end.

Definition farthest (contour : list Point) (start end_ : Point) : float * nat :=
  foldl (farthestStep contour start end_) (0%float, 0)
        (seq 1 (length contour - 2)).

(** [simplifyContour]: the recursion is on slices, so the embedding counts
    the depth of the call stack; [None] is the script running out of stack. *)
Fixpoint simplifyContour (fuel : nat) (contour : list Point) (tolerance : float)
    : option (list Point) :=
  if length contour <=? 2 then Some contour else
  match fuel with
  | 0 => None
  | S fuel' =>
      match contour !! 0, last contour with
      | Some start, Some end_ =>
          let '(maxDist, index) := farthest contour start end_ in
          if (tolerance <? maxDist)%float then
            match simplifyContour fuel' (take (index + 1) contour) tolerance with
            | Some part1 =>
                match simplifyContour fuel' (drop index contour) tolerance with
                | Some part2 => Some (take (length part1 - 1) part1 ++ part2)
                | None => None
                end
            | None => None
            end
          else Some [start; end_]
      | _, _ => None
      end
  end.

(** Invariants of the scan: the indices it visits, what it has selected. *)
Definition interiorIndex (contour : list Point) (i : nat) : Prop :=
  1 <= i /\ i <= length contour - 2.

Definition farthestInv (contour : list Point) (st : float * nat) : Prop :=
  st = (0%float, 0) \/ interiorIndex contour (snd st).



(** The shape of a result: the endpoints are kept, and at least two points
    remain of a contour that had two. *)
Definition keepsEnds (contour r : list Point) : Prop :=
  head r = head contour /\ last r = last contour /\
  (2 <= length contour -> 2 <= length r).


Definition offSegmentb (contour : list Point) : bool :=
  let idx := seq 0 (length contour) in
  forallb (fun i => forallb (fun k => forallb (fun j =>
    if (i <? k) && (k <? j) then
      match contour !! i, contour !! k, contour !! j with
      | Some s, Some p, Some e => (0 <? pointLineDistance p s e)%float
      | _, _, _ => true
      end
    else true) idx) idx) idx.


(** ** Path smoothing ([contourToSvgPath]) *)

Section Smoothing.

(** The host's conversion of a number to text inside a template literal. *)
Variable numToString : float -> string.

Definition coords (x y : float) : string :=
  (numToString x ++ "," ++ numToString y)%string.

(** One round of [for (i = 1; i < contour.length; i++)] with [smoothing === 0]. *)
Definition lineStep (contour : list Point) (pathData : string) (i : nat) : string :=
  match contour !! i with
  | Some p => (pathData ++ " L" ++ coords (px p) (py p))%string
  | None => pathData
  end.

(** One round of the same loop with corner smoothing. *)
Definition cornerStep (contour : list Point) (radius : float)
    (pathData : string) (i : nat) : string :=
  let n := length contour in
  match contour !! ((i - 1 + n) mod n), contour !! i, contour !! ((i + 1) mod n) with
  | Some p0, Some p1, Some p2 =>
      let v1x := (px p1 - px p0)%float in
      let v1y := (py p1 - py p0)%float in
      let v2x := (px p2 - px p1)%float in
      let v2y := (py p2 - py p1)%float in
      let v1Len := PrimFloat.sqrt (v1x * v1x + v1y * v1y) in
      let v2Len := PrimFloat.sqrt (v2x * v2x + v2y * v2y) in
      if ((v1Len <? 1) || (v2Len <? 1))%float then
        (pathData ++ " L" ++ coords (px p1) (py p1))%string
      else
        let v1nx := (v1x / v1Len)%float in
        let v1ny := (v1y / v1Len)%float in
        let v2nx := (v2x / v2Len)%float in
        let v2ny := (v2y / v2Len)%float in
        let cp1x := (px p1 - v1nx * radius)%float in
        let cp1y := (py p1 - v1ny * radius)%float in
        let cp2x := (px p1 + v2nx * radius)%float in
        let cp2y := (py p1 + v2ny * radius)%float in
        (pathData ++ " L" ++ coords cp1x cp1y
                  ++ " Q" ++ coords (px p1) (py p1) ++ " " ++ coords cp2x cp2y)%string
  | _, _, _ => pathData
  end.

Definition contourToSvgPath (contour : list Point) (smoothing : float) : string :=
  match contour !! 0 with
  | None => ""%string
  | Some first =>
      let pathData := ("M" ++ coords (px first) (py first))%string in
      let pathData :=
        if (smoothing =? 0)%float then
          foldl (lineStep contour) pathData (seq 1 (length contour - 1))
        else
          let radius := (smoothing * 0.5)%float in
          foldl (cornerStep contour radius) pathData (seq 1 (length contour - 1))
      in
      (pathData ++ " Z")%string
  end.

(** The drawing commands of a vector path, and their text. *)
Inductive PathCommand :=
  | MoveTo (p : Point)
  | LineTo (p : Point)
  | QuadTo (c p : Point)
  | CubicTo (c1 c2 p : Point)
  | ClosePath.

Definition renderCommand (c : PathCommand) : string :=
  match c with
  | MoveTo p => ("M" ++ coords (px p) (py p))%string
  | LineTo p => (" L" ++ coords (px p) (py p))%string
  | QuadTo c p =>
      (" Q" ++ coords (px c) (py c) ++ " " ++ coords (px p) (py p))%string
  | CubicTo c1 c2 p =>
      (" C" ++ coords (px c1) (py c1) ++ " " ++ coords (px c2) (py c2)
            ++ " " ++ coords (px p) (py p))%string
  | ClosePath => " Z"%string
  end.

Definition renderPath (cs : list PathCommand) : string :=
  foldl (fun s c => (s ++ renderCommand c)%string) ""%string cs.

End Smoothing.

Definition isCurve (c : PathCommand) : bool :=
  match c with
  | QuadTo _ _ | CubicTo _ _ _ => true
  | _ => false
  end.

(** The closed straight-line polygon through the points of a contour, as the
    specification words it: a move-to the first point, a line-to each
    following point in order, and an explicit close. *)
Definition straightPolygon (contour : list Point) : list PathCommand :=
  match contour with
  | [] => []
  | first :: rest => MoveTo first :: map LineTo rest ++ [ClosePath]
  end.

(** ** Bitmap preprocessing ([preprocessBitmap], [preprocessBitmapAdvanced]) *)

(** [ImageData]: [data] holds R, G, B, A bytes, four per pixel, row-major. *)
Record ImageData := mkImageData {
  img_width : Z;
  img_height : Z;
  img_data : list Z
}.

(** The conversion options, as [main.js] builds them with [parseInt]; a
    missing field is [None]. *)
Record ConvertOptions := mkConvertOptions {
  threshold : option Z;
  detailLevel : option Z;
  cornerSmoothing : option Z;
  pathOptimization : option Z
}.

(** The ranges of the sliders that feed the options. *)
Definition inRange (lo hi : Z) (v : option Z) : bool :=
  match v with
  | Some z => (lo <=? z)%Z && (z <=? hi)%Z
  | None => true
  end.

Definition documentedRanges (options : ConvertOptions) : bool :=
  inRange 0 255 (threshold options) && inRange 1 10 (detailLevel options)
  && inRange 0 10 (cornerSmoothing options) && inRange 0 10 (pathOptimization options).

(** The nested loops [for (y = 0; y < height; y++) for (x = 0; x < width; x++)]. *)
Definition forEachPixel {S : Type} (width height : Z) (body : S -> Z -> Z -> S)
    (init : S) : S :=
  foldl (fun st y => foldl (fun st x => body st x y) st (seqZ 0 width))
        init (seqZ 0 height).

(** [new Uint8Array(n)]. *)
Definition newUint8Array (n : Z) : list Z := replicate (Z.to_nat n) 0%Z.

(** [arr[i] = v] on a typed array: nothing happens out of range. *)
Definition store (arr : list Z) (i : Z) (v : Z) : list Z :=
  if (i <? 0)%Z then arr else <[Z.to_nat i := v]> arr.

(** [arr[i]]: [None] is [undefined]. *)
Definition load (arr : list Z) (i : Z) : option Z :=
  if (i <? 0)%Z then None else arr !! Z.to_nat i.

(** A byte read from [data] as an operand of arithmetic: [undefined] is NaN. *)
Definition operand (v : option Z) : float :=
  match v with
  | Some z => Z2F z
  | None => PrimFloat.nan
  end.

(** [0.299 * r + 0.587 * g + 0.114 * b]. *)
Definition luminance (r g b : float) : float :=
  (0.299 * r + 0.587 * g + 0.114 * b)%float.

Definition preprocessBitmap (imageData : ImageData) (options : ConvertOptions)
    : list Z :=
  let width := img_width imageData in
  let height := img_height imageData in
  let data := img_data imageData in
  let threshold := orDefault (threshold options) 128 in
  forEachPixel width height
    (fun bitmap x y =>
       let i := ((y * width + x) * 4)%Z in
       let r := operand (load data i) in
       let g := operand (load data (i + 1)) in
       let b := operand (load data (i + 2)) in
       let a := load data (i + 3) in
       match a with
       | Some 0%Z => store bitmap (y * width + x) 0
       | _ =>
           let gray := luminance r g b in
           store bitmap (y * width + x)
                 (if (gray <? Z2F threshold)%float then 1 else 0)%Z
       end)
    (newUint8Array (width * height)).

(** [Math.round] on a finite number, as an integer: floor (v + 1/2). *)
Definition Math_round (f : float) : option Z :=
  match Prim2SF f with
  | S754_zero _ => Some 0%Z
  | S754_finite s m e =>
      let M := if s then Zneg m else Zpos m in
      Some (if (0 <=? e)%Z then M * 2 ^ e
            else (2 * M + 2 ^ (- e)) / 2 ^ (- e + 1))%Z
  | _ => None
  end.

(** Storing a number in a [Uint8Array]: NaN and the infinities become 0,
    an integer is reduced modulo 256. *)
Definition toUint8 (v : option Z) : Z :=
  match v with
  | Some z => (z mod 256)%Z
  | None => 0%Z
  end.

(** Step 1 of [preprocessBitmapAdvanced]: the grayscale image. *)
Definition grayscaleOf (imageData : ImageData) : list Z :=
  let width := img_width imageData in
  let height := img_height imageData in
  let data := img_data imageData in
  forEachPixel width height
    (fun grayscale x y =>
       let i := ((y * width + x) * 4)%Z in
       match load data (i + 3) with
       | Some 0%Z => store grayscale (y * width + x) 255
       | _ =>
           let gray :=
             Math_round (luminance (operand (load data i))
                                   (operand (load data (i + 1)))
                                   (operand (load data (i + 2)))) in
           store grayscale (y * width + x) (toUint8 gray)
       end)
    (newUint8Array (width * height)).

(** The window [for (dy = -blockSize; dy <= blockSize; dy++) for (dx ...)]
    around [(x, y)]: the pair [(sum, count)] over the in-bounds neighbours. *)
Definition windowSum (grayscale : list Z) (width height blockSize x y : Z) : Z * Z :=
  foldl (fun st dy =>
    foldl (fun st dx =>
      let nx := (x + dx)%Z in
      let ny := (y + dy)%Z in
      if ((0 <=? nx) && (nx <? width) && (0 <=? ny) && (ny <? height))%Z then
        (fst st + default 0 (load grayscale (ny * width + nx)), snd st + 1)%Z
      else st) st (seqZ (- blockSize) (2 * blockSize + 1)))
    (0, 0)%Z (seqZ (- blockSize) (2 * blockSize + 1)).

Definition Qltb (a b : Q) : bool := negb (Qle_bool b a).

(** Step 2: the adaptive threshold.  [sum], [count], [pixel] and
    [10 - detailLevel] are integers, so [pixel < sum / count - (10 -
    detailLevel)] asks whether [sum / count] lies above the integer
    [pixel + (10 - detailLevel)]; binary64 rounding is monotone and cannot
    carry the quotient across an integer, and the quotient is taken exactly,
    as a rational.  An empty window gives 0 / 0, which is NaN, and every
    comparison with NaN is false.  A read of [grayscale] at an in-bounds
    pixel is never [undefined]. *)
Definition preprocessBitmapAdvanced (imageData : ImageData)
    (options : ConvertOptions) : list Z :=
  let width := img_width imageData in
  let height := img_height imageData in
  let detailLevel := orDefault (detailLevel options) 5 in
  let grayscale := grayscaleOf imageData in
  let blockSize := (11 - detailLevel)%Z in
  forEachPixel width height
    (fun bitmap x y =>
       let '(sum, count) := windowSum grayscale width height blockSize x y in
       let localAvg := (inject_Z sum / inject_Z count)%Q in
       let pixel := default 0%Z (load grayscale (y * width + x)) in
       store bitmap (y * width + x)
             (if (count =? 0)%Z then 0
              else if Qltb (inject_Z pixel)
                           (localAvg - inject_Z (10 - detailLevel))%Q
              then 1 else 0)%Z)
    (newUint8Array (width * height)).

(** The pixels of a [width] x [height] grid in the order the loops visit them. *)
Definition pixels (width height : Z) : list Pixel :=
  concat (map (fun y => map (fun x => (x, y)) (seqZ 0 width)) (seqZ 0 height)).

(** What the two loops store for the pixel [(x, y)]. *)
Definition simpleValue (imageData : ImageData) (options : ConvertOptions)
    (x y : Z) : Z :=
  let i := ((y * img_width imageData + x) * 4)%Z in
  let data := img_data imageData in
  match load data (i + 3) with
  | Some 0%Z => 0%Z
  | _ =>
      if (luminance (operand (load data i)) (operand (load data (i + 1)))
                    (operand (load data (i + 2)))
          <? Z2F (orDefault (threshold options) 128))%float
      then 1%Z else 0%Z
  end.

Definition grayValue (imageData : ImageData) (x y : Z) : Z :=
  let i := ((y * img_width imageData + x) * 4)%Z in
  let data := img_data imageData in
  match load data (i + 3) with
  | Some 0%Z => 255%Z
  | _ =>
      toUint8 (Math_round (luminance (operand (load data i))
                                     (operand (load data (i + 1)))
                                     (operand (load data (i + 2)))))
  end.

(** The window statistics stay within byte range. *)
Definition windowInv (st : Z * Z) : Prop :=
  (0 <= fst st /\ fst st <= 255 * snd st /\ 0 <= snd st)%Z.

(** ** Contour tracing ([findContours]) *)

(** Direction vectors (right, down, left, up). *)
Definition dx : list Z := [1; 0; -1; 0]%Z.
Definition dy : list Z := [0; 1; 0; -1]%Z.

(** [nx >= 0 && nx < width && ny >= 0 && ny < height &&
     bitmap[ny * width + nx] === 1]. *)
Definition isForeground (bitmap : list Z) (width height nx ny : Z) : bool :=
  (0 <=? nx)%Z && (nx <? width)%Z && (0 <=? ny)%Z && (ny <? height)%Z
  && bool_decide (load bitmap (ny * width + nx) = Some 1%Z).

(** What the search [for (let i = 0; i < 4; i++)] leaves behind. *)
Record Search := mkSearch {
  found : bool;
  s_cx : Z;
  s_cy : Z;
  s_dir : nat
}.

Fixpoint tryDirections (bitmap : list Z) (width height cx cy : Z) (dir : nat)
    (tries : nat) : Search :=
  match tries with
  | 0 => mkSearch false cx cy dir
  | S tries' =>
      let nx := (cx + dx !!! dir)%Z in
      let ny := (cy + dy !!! dir)%Z in
      if isForeground bitmap width height nx ny then mkSearch true nx ny dir
      else tryDirections bitmap width height cx cy ((dir + 1) mod 4) tries'
  end.

(** The variables of one trace. *)
Record Trace := mkTrace {
  t_cx : Z;
  t_cy : Z;
  t_dir : nat;
  t_count : Z;
  t_contour : list Pixel;
  t_visited : list Z
}.

(** [cx === contour[0].x && cy === contour[0].y]. *)
Definition atStart (contour : list Pixel) (cx cy : Z) : bool :=
  match contour !! 0 with
  | Some p => (cx =? fst p)%Z && (cy =? snd p)%Z
  | None => false
  end.

(** [while (count < maxSteps)]: [steps] is [maxSteps - count]. *)
Fixpoint traceLoop (bitmap : list Z) (width height : Z) (steps : nat) (t : Trace)
    : Trace :=
  match steps with
  | 0 => t
  | S steps' =>
      let visited := store (t_visited t) (t_cy t * width + t_cx t) 1 in
      let contour := t_contour t ++ [(t_cx t, t_cy t)] in
      let s := tryDirections bitmap width height (t_cx t) (t_cy t) (t_dir t) 4 in
      if negb (found s)
         || ((2 <? length contour) && atStart contour (s_cx s) (s_cy s))
      then mkTrace (s_cx s) (s_cy s) (s_dir s) (t_count t) contour visited
      else traceLoop bitmap width height steps'
             (mkTrace (s_cx s) (s_cy s) ((s_dir s + 3) mod 4) (t_count t + 1)
                      contour visited)
  end.

(** The trace started at the seed pixel [(x, y)]. *)
Definition traceContour (bitmap : list Z) (width height : Z) (visited : list Z)
    (x y : Z) : Trace :=
  traceLoop bitmap width height (Z.to_nat (width * height))
            (mkTrace x y 0 0 [] visited).

(** The body of the scan for starting points; the state is
    [(contours, visited)]. *)
Definition scanPixel (bitmap : list Z) (width height : Z)
    (st : list (list Pixel) * list Z) (x y : Z) : list (list Pixel) * list Z :=
  let idx := (y * width + x)%Z in
  if bool_decide (load bitmap idx = Some 1%Z)
     && bool_decide (load (snd st) idx = Some 0%Z)
  then
    let t := traceContour bitmap width height (snd st) x y in
    (if 2 <? length (t_contour t) then fst st ++ [t_contour t] else fst st,
     t_visited t)
  else st.

Definition scanContours (bitmap : list Z) (width height : Z)
    : list (list Pixel) * list Z :=
  forEachPixel width height (scanPixel bitmap width height)
               ([], replicate (length bitmap) 0%Z).

Definition findContours (bitmap : list Z) (width height : Z) : list (list Pixel) :=
  fst (scanContours bitmap width height).

(** The occupancy grid whose foreground is the filled rectangle with corner
    [(x0, y0)], [W] columns and [H] rows. *)
Definition inRect (x0 y0 W H x y : Z) : bool :=
  (x0 <=? x)%Z && (x <? x0 + W)%Z && (y0 <=? y)%Z && (y <? y0 + H)%Z.

Definition rectGrid (width height x0 y0 W H : Z) : list Z :=
  map (fun c => if inRect x0 y0 W H (fst c) (snd c) then 1%Z else 0%Z)
      (pixels width height).

(** The state of the scan when it reaches the [k]-th pixel in row-major
    order. *)
Definition scanUpTo (bitmap : list Z) (width height : Z) (k : nat)
    : list (list Pixel) * list Z :=
  foldl (fun st c => scanPixel bitmap width height st (fst c) (snd c))
        ([], replicate (length bitmap) 0%Z)
        (take k (pixels width height)).

(** The boundary of the rectangle in the order the trace visits it: along
    the top row to the right, down the right column, back along the bottom
    row, and up the left column; [perimeterDir] is the direction the trace
    holds when it arrives at the [k]-th boundary pixel. *)
Definition perimeterPixel (x0 y0 W H k : Z) : Pixel :=
  if (k <? W)%Z then (x0 + k, y0)%Z
  else if (k <? W + H - 1)%Z then (x0 + W - 1, y0 + (k - W + 1))%Z
  else if (k <? 2 * W + H - 2)%Z then (x0 + (2 * W + H - 3 - k), y0 + H - 1)%Z
  else (x0, y0 + (2 * W + 2 * H - 4 - k))%Z.

Definition perimeterDir (W H k : Z) : nat :=
  if (k =? 0)%Z then 0
  else if (k <? W)%Z then 3
  else if (k <? W + H - 1)%Z then 0
  else if (k <? 2 * W + H - 2)%Z then 1
  else 2.

Definition perimeter (x0 y0 W H : Z) : list Pixel :=
  map (perimeterPixel x0 y0 W H) (seqZ 0 (2 * W + 2 * H - 4)).

(** The marks a trace leaves: [visited[cy * width + cx] = 1] for each point. *)
Definition markAll (width : Z) (visited : list Z) (contour : list Pixel) : list Z :=
  foldl (fun v p => store v (snd p * width + fst p) 1%Z) visited contour.

(** The rectangle lies inside the grid and has at least two rows and two
    columns. *)
Definition rectInGrid (width height x0 y0 W H : Z) : Prop :=
  (0 <= x0 /\ 0 <= y0 /\ x0 + W <= width /\ y0 + H <= height /\ 2 <= W /\ 2 <= H)%Z.

(** The variables of the trace when it arrives at the [k]-th boundary pixel. *)
Definition perimeterState (width x0 y0 W H : Z) (visited : list Z) (k : Z) : Trace :=
  mkTrace (fst (perimeterPixel x0 y0 W H k)) (snd (perimeterPixel x0 y0 W H k))
          (perimeterDir W H k) k
          (map (perimeterPixel x0 y0 W H) (seqZ 0 k))
          (markAll width visited (map (perimeterPixel x0 y0 W H) (seqZ 0 k))).

(** The second contour of a rectangle that has an interior: the trace
    started at the first interior pixel steps right, up, left, and is back. *)
Definition innerLoop (x0 y0 : Z) : list Pixel :=
  [(x0 + 1, y0 + 1); (x0 + 2, y0 + 1); (x0 + 2, y0); (x0 + 1, y0)]%Z.

(** ** Circular layout ([js/spinnerGenerator.js]) *)

(** The spinner options, as [getSpinnerOptions] builds them with [parseInt];
    a missing field is [None] and takes the default of the destructuring. *)
Record SpinnerOptions := mkSpinnerOptions {
  diameter : option Z;
  frameCount : option Z;
  spacing : option Z;
  bearingDiameter : option Z;
  bearingType : option string;
  outlineThickness : option Z;
  outlineStyle : option string
}.

Record Position := mkPosition {
  pos_x : float;
  pos_y : float;
  pos_angle : float;
  pos_scale : float
}.

(** [Math.PI]. *)
Definition Math_PI : float := 3.141592653589793%float.

(** [const radius = (diameter - bearingDiameter) / 2 - spacing]. *)
Definition placementRadius (diameter bearingDiameter spacing : Z) : float :=
  ((Z2F diameter - Z2F bearingDiameter) / 2 - Z2F spacing)%float.

(** What a thrown value or a rejection carries. *)
Inductive JsError :=
  | TypeError
  | Error (message : string).

Inductive Result (A : Type) :=
  | Ok (a : A)
  | Throw (e : JsError).
Arguments Ok {A} a.
Arguments Throw {A} e.

Definition bindResult {A B} (r : Result A) (k : A -> Result B) : Result B :=
  match r with
  | Ok a => k a
  | Throw e => Throw e
  end.

Fixpoint mapResult {A B} (f : A -> Result B) (l : list A) : Result (list B) :=
  match l with
  | [] => Ok []
  | a :: l' =>
      bindResult (f a) (fun b =>
      bindResult (mapResult f l') (fun bs => Ok (b :: bs)))
  end.

Section Layout.

(** The host's [Math.cos] and [Math.sin], and the type of the frames' SVG
    elements. *)
Variables Math_cos Math_sin : float -> float.
Variable Frame : Type.

Definition calculateFramePositions (count diameter bearingDiameter spacing : Z)
    : list Position :=
  let radius := placementRadius diameter bearingDiameter spacing in
  let angleStep := (2 * Math_PI / Z2F count)%float in
  let approximateFrameSize := (2 * radius * Math_sin (Math_PI / Z2F count))%float in
  let scale := (approximateFrameSize / 50)%float in
  map (fun i =>
         let angle := (Z2F i * angleStep)%float in
         mkPosition (Math_cos angle * radius)%float (Math_sin angle * radius)%float
                    (angle * (180 / Math_PI))%float scale)
      (seqZ 0 count).

(** The elements of the design.  [createFrameElement],
    [createSpinnerOutline] and [createBearing] build markup from their
    arguments alone; the design records, for each element, the helper that
    builds it and the arguments it is built from (the path data of the
    outline and the circles of the bearing are not spelled out). *)
Record FrameElement := mkFrameElement {
  fe_frame : Frame;
  fe_position : Position;
  fe_preview : bool
}.

Record Outline := mkOutline {
  ol_positions : list Position;
  ol_thickness : Z;
  ol_style : string
}.

Record Bearing := mkBearing {
  br_diameter : Z;
  br_type : string
}.

Record SpinnerSvg := mkSpinnerSvg {
  svg_diameter : Z;
  svg_background : bool;
  svg_outline : Outline;
  svg_frames : list FrameElement;
  svg_bearing : Bearing
}.

(** [createFrameElement]: destructuring an undefined position, or cloning an
    undefined frame, throws. *)
Definition createFrameElement (frameSvg : option Frame) (position : option Position)
    (isPreview : bool) : Result FrameElement :=
  match position, frameSvg with
  | Some p, Some f => Ok (mkFrameElement f p isPreview)
  | _, _ => Throw TypeError
  end.

Definition createSpinnerOutline (positions : list Position) (thickness : Z)
    (style : string) : Outline :=
  mkOutline positions thickness style.

Definition createBearing (diameter : Z) (type : string) : Bearing :=
  mkBearing diameter type.

(** [svgFrames[i % svgFrames.length]]; the remainder by 0 is NaN. *)
Definition frameAt (svgFrames : list Frame) (i : Z) : option Frame :=
  if length svgFrames =? 0 then None
  else svgFrames !! Z.to_nat (i mod Z.of_nat (length svgFrames)).

Definition generateSpinnerSvg (svgFrames : list Frame) (options : SpinnerOptions)
    (isPreview : bool) : Result SpinnerSvg :=
  let diameter := default 100%Z (diameter options) in
  let frameCount := default 8%Z (frameCount options) in
  let spacing := default 5%Z (spacing options) in
  let bearingDiameter := default 22%Z (bearingDiameter options) in
  let bearingType := default "standard"%string (bearingType options) in
  let outlineThickness := default 3%Z (outlineThickness options) in
  let outlineStyle := default "simple"%string (outlineStyle options) in
  let framePositions :=
    calculateFramePositions frameCount diameter bearingDiameter spacing in
  bindResult
    (mapResult (fun i =>
                  createFrameElement (frameAt svgFrames i)
                                     (framePositions !! Z.to_nat i) isPreview)
               (seqZ 0 frameCount))
    (fun frames =>
       let outline := createSpinnerOutline framePositions outlineThickness outlineStyle in
       let bearing := createBearing bearingDiameter bearingType in
       Ok (mkSpinnerSvg diameter isPreview outline frames bearing)).

(** How the promise of [generateSpinner] settles, and the calls of
    [progressCallback] in the order they are made. *)
Inductive Outcome :=
  | Resolved (svg : SpinnerSvg)
  | Rejected (e : JsError).

Definition generateSpinner (svgFrames : option (list Frame))
    (options : SpinnerOptions) : list (Z * string) * Outcome :=
  match svgFrames with
  | None | Some [] => ([], Rejected (Error "No frames available"))
  | Some frames =>
      match generateSpinnerSvg frames options false with
      | Throw e => ([(10%Z, "Setting up spinner layout..."%string)], Rejected e)
      | Ok spinnerSvg =>
          ([(10%Z, "Setting up spinner layout..."%string);
            (40%Z, "Arranging frames..."%string);
            (70%Z, "Creating bearing..."%string);
            (90%Z, "Finalizing spinner design..."%string);
            (100%Z, "Spinner generated successfully!"%string)],
           Resolved spinnerSvg)
      end
  end.

End Layout.

Arguments mkFrameElement {Frame}.
Arguments fe_frame {Frame}.
Arguments fe_position {Frame}.
Arguments fe_preview {Frame}.
Arguments mkSpinnerSvg {Frame}.
Arguments svg_diameter {Frame}.
Arguments svg_background {Frame}.
Arguments svg_outline {Frame}.
Arguments svg_frames {Frame}.
Arguments svg_bearing {Frame}.
Arguments createFrameElement {Frame}.
Arguments frameAt {Frame}.
Arguments generateSpinnerSvg Math_cos Math_sin {Frame}.
Arguments Resolved {Frame}.
Arguments Rejected {Frame}.
Arguments generateSpinner Math_cos Math_sin {Frame}.

Definition isResolved {Frame} (o : Outcome Frame) : bool :=
  match o with
  | Resolved _ => true
  | Rejected _ => false
  end.

(** A host for closed examples: [Math.cos] and [Math.sin] are
    implementation-approximated; here, Taylor polynomials after reduction of
    the argument to [-pi, pi]. *)
Definition reduceAngle (a : float) : float :=
  (a - 2 * Math_PI * Z2F (default 0%Z (Math_round (a / (2 * Math_PI)))))%float.

Fixpoint taylor (x2 term : float) (k : Z) (n : nat) : float :=
  match n with
  | 0 => 0%float
  | S n' =>
      (term + taylor x2 (- term * x2 / (Z2F (k + 1) * Z2F (k + 2))) (k + 2) n')%float
  end.

Definition hostCos (a : float) : float :=
  let x := reduceAngle a in taylor (x * x)%float 1%float 0 14.

Definition hostSin (a : float) : float :=
  let x := reduceAngle a in taylor (x * x)%float x 1 14.

(** ** Cubic smoothing ([generateSmoothPath]) and the traced paths
    ([simulatePotraceResults]) *)

Section Conversion.

Variable numToString : float -> string.

(** [points.push(points[0], points[1], points[2])] unless the last point
    repeats the first; the contour has more than 2 points where this runs. *)
Definition closeLoop (contour : list Point) : list Point :=
  match contour !! 0, last contour with
  | Some first, Some last_ =>
      if (negb (px first =? px last_) || negb (py first =? py last_))%float
      then contour ++ take 3 contour
      else contour
  | _, _ => contour
  end.

(** The end point and the two control points of the segment that round [i]
    of [for (i = 1; i < points.length - 2; i++)] appends. *)
Definition smoothSegment (smoothing : float) (p0 p1 p2 p3 : Point) : PathCommand :=
  let tensionFactor := (0.2 + smoothing * 0.05)%float in
  let cp1x := (px p1 + (px p2 - px p0) * tensionFactor)%float in
  let cp1y := (py p1 + (py p2 - py p0) * tensionFactor)%float in
  let cp2x := (px p2 - (px p3 - px p1) * tensionFactor)%float in
  let cp2y := (py p2 - (py p3 - py p1) * tensionFactor)%float in
  CubicTo (mkPoint cp1x cp1y) (mkPoint cp2x cp2y) p2.

Definition smoothStep (points : list Point) (smoothing : float)
    (pathData : string) (i : nat) : string :=
  match points !! (i - 1), points !! i, points !! (i + 1), points !! (i + 2) with
  | Some p0, Some p1, Some p2, Some p3 =>
      (pathData ++ renderCommand numToString (smoothSegment smoothing p0 p1 p2 p3))%string
  | _, _, _, _ => pathData
  end.

(** [generateSmoothPath]: reading [contour[0].x] of an empty contour throws. *)
Definition generateSmoothPath (contour : list Point) (smoothing : float)
    : Result string :=
  if length contour <=? 2 then
    match contour !! 0, last contour with
    | Some first, Some last_ =>
        Ok ("M" ++ coords numToString (px first) (py first)
                ++ " L" ++ coords numToString (px last_) (py last_))%string
    | _, _ => Throw TypeError
    end
  else
    let points := closeLoop contour in
    match points !! 0 with
    | Some first =>
        Ok (foldl (smoothStep points smoothing)
                  ("M" ++ coords numToString (px first) (py first))%string
                  (seq 1 (length points - 3)))
    | None => Throw TypeError
    end.

(** [simulatePotraceResults].  The recursion of [simplifyContour] running
    out of stack is a [RangeError], recorded here with its message. *)
Definition optimizeContour (fuel : nat) (contour : list Point) (pathOptimization : Z)
    : Result (list Point) :=
  if (0 <? pathOptimization)%Z then
    match simplifyContour fuel contour (Z2F pathOptimization * 0.5)%float with
    | Some optimizedContour => Ok optimizedContour
    | None => Throw (Error "Maximum call stack size exceeded")
    end
  else Ok contour.

Definition simulatePotraceResults (fuel : nat) (bitmap : list Z) (width height : Z)
    (options : ConvertOptions) : Result (list string) :=
  let contours := findContours bitmap width height in
  let pathOptimization := orDefault (pathOptimization options) 5 in
  let cornerSmoothing := orDefault (cornerSmoothing options) 2 in
  mapResult (fun contour =>
               bindResult (optimizeContour fuel (map pixelPoint contour) pathOptimization)
                 (fun optimizedContour =>
                    generateSmoothPath optimizedContour (Z2F cornerSmoothing)))
            contours.

(** ** The frame converters ([convertFrameSimple], [convertFrameAdvanced],
    [convertFrames]) *)

(** A [path] element and the [svg] document of one frame. *)
Record PathElement := mkPathElement {
  pe_d : string;
  pe_fill : string;
  pe_stroke : string
}.

Record SvgDocument := mkSvgDocument {
  doc_width : Z;
  doc_height : Z;
  doc_viewBox : string;
  doc_paths : list PathElement
}.

Definition pathElement (d : string) : PathElement :=
  mkPathElement d "black" "none".

Definition newSvgDocument (imageData : ImageData) (paths : list PathElement)
    : SvgDocument :=
  mkSvgDocument (img_width imageData) (img_height imageData)
    ("0 0 " ++ numToString (Z2F (img_width imageData)) ++ " "
            ++ numToString (Z2F (img_height imageData)))%string
    paths.

Definition convertFrameSimple (imageData : ImageData) (options : ConvertOptions)
    : SvgDocument :=
  let bitmap := preprocessBitmap imageData options in
  let contours := findContours bitmap (img_width imageData) (img_height imageData) in
  newSvgDocument imageData
    (map (fun contour =>
            pathElement (contourToSvgPath numToString (map pixelPoint contour)
                           (Z2F (orDefault (cornerSmoothing options) 0))))
         contours).

Definition convertFrameAdvanced (fuel : nat) (imageData : ImageData)
    (options : ConvertOptions) : Result SvgDocument :=
  let bitmap := preprocessBitmapAdvanced imageData options in
  bindResult
    (simulatePotraceResults fuel bitmap (img_width imageData) (img_height imageData)
                            options)
    (fun paths => Ok (newSvgDocument imageData (map pathElement paths))).

(** A processed GIF frame, [{imageData, delay}]. *)
Record GifFrame := mkGifFrame {
  gf_imageData : ImageData;
  gf_delay : Z
}.

(** [options.method || 'simple']; the field is passed next to the numeric
    options. *)
Definition methodOrSimple (method : option string) : string :=
  match method with
  | None | Some EmptyString => "simple"%string
  | Some m => m
  end.

(** The loop of [convertFrames] from round [i] on: the calls of
    [progressCallback] in order, and the documents or the exception that
    ends the loop.  [Math.round] is applied to a finite number here. *)
Fixpoint convertLoop (fuel : nat) (method : string) (options : ConvertOptions)
    (total i : Z) (frames : list GifFrame)
    : list (Z * string) * Result (list SvgDocument) :=
  match frames with
  | [] => ([(100%Z, "All frames converted successfully!"%string)], Ok [])
  | frame :: rest =>
      let progress := default 0%Z (Math_round (Z2F i / Z2F total * 100)%float) in
      let call :=
        (progress,
         ("Converting frame " ++ numToString (Z2F (i + 1)) ++ " of "
                              ++ numToString (Z2F total))%string) in
      let svgDocument :=
        if String.eqb method "simple"
        then Ok (convertFrameSimple (gf_imageData frame) options)
        else convertFrameAdvanced fuel (gf_imageData frame) options in
      match svgDocument with
      | Throw e => ([call], Throw e)
      | Ok doc =>
          let '(calls, r) := convertLoop fuel method options total (i + 1) rest in
          (call :: calls, bindResult r (fun docs => Ok (doc :: docs)))
      end
  end.

Definition convertFrames (fuel : nat) (frames : list GifFrame)
    (method : option string) (options : ConvertOptions)
    : list (Z * string) * Result (list SvgDocument) :=
  convertLoop fuel (methodOrSimple method) options (Z.of_nat (length frames)) 0 frames.

End Conversion.


(** ** Predicates on grids, images, contours and paths *)

(** Every cell of an occupancy grid is 0 or 1. *)
Definition binaryGrid (bitmap : list Z) : Prop :=
  Forall (fun v => v = 0%Z \/ v = 1%Z) bitmap.

(** Every pixel of the image has alpha 0. *)
Definition transparentImage (imageData : ImageData) : bool :=
  forallb (fun c =>
             bool_decide (load (img_data imageData)
                               ((snd c * img_width imageData + fst c) * 4 + 3)
                          = Some 0%Z))
          (pixels (img_width imageData) (img_height imageData)).

(** A host for closed examples: numbers print as the nearest integer. *)
Definition hostNumToString (f : float) : string :=
  match Math_round f with
  | Some z => NilZero.string_of_int (Z.to_int z)
  | None => "NaN"%string
  end.

(** Two pixels one step apart in one of the four directions, and a contour
    whose consecutive points are. *)
Definition adjacent (p q : Pixel) : bool :=
  (Z.abs (fst q - fst p) + Z.abs (snd q - snd p) =? 1)%Z.

Fixpoint walk (contour : list Pixel) : bool :=
  match contour with
  | p :: rest =>
      match rest with
      | q :: _ => adjacent p q && walk rest
      | [] => true
      end
  | [] => true
  end.

(** No point of the contour is at a computed distance above 0 from the
    segment joining its first and its last point. *)
Definition flatContour (contour : list Point) : bool :=
  match contour !! 0, last contour with
  | Some start, Some end_ =>
      forallb (fun p => negb (0 <? pointLineDistance p start end_)%float) contour
  | _, _ => false
  end.

(** Kinds of drawing commands, and the point a command ends at. *)
Definition lineOrQuad (c : PathCommand) : bool :=
  match c with
  | LineTo _ | QuadTo _ _ => true
  | _ => false
  end.

Definition isCubic (c : PathCommand) : bool :=
  match c with
  | CubicTo _ _ _ => true
  | _ => false
  end.

Definition endPoint (c : PathCommand) : option Point :=
  match c with
  | MoveTo p | LineTo p | QuadTo _ p | CubicTo _ _ p => Some p
  | ClosePath => None
  end.

(** Every pixel of the image has the grayscale value [g]. *)
Definition uniformGray (imageData : ImageData) (g : Z) : bool :=
  forallb (fun c => (grayValue imageData (fst c) (snd c) =? g)%Z)
          (pixels (img_width imageData) (img_height imageData)).

(** No foreground pixel of the grid has a foreground pixel next to it. *)
Definition isolatedPixels (bitmap : list Z) (width height : Z) : bool :=
  forallb (fun c =>
             negb (isForeground bitmap width height (fst c) (snd c))
             || forallb (fun d =>
                           negb (isForeground bitmap width height
                                   (fst c + dx !!! d) (snd c + dy !!! d)))
                        (seq 0 4))
          (pixels width height).

(** What the scan keeps true of its state [(contours, visited)]: the array
    of marks has the size of the grid, the first point of every contour is
    marked, and no two contours start at the same pixel. *)
Definition scanInv (bitmap : list Z) (width : Z) (st : list (list Pixel) * list Z)
    : Prop :=
  length (snd st) = length bitmap
  /\ Forall (fun c => exists p, head c = Some p
                                /\ load (snd st) (snd p * width + fst p) = Some 1%Z)
            (fst st)
  /\ NoDup (map head (fst st)).

(** What holds of the variables of a trace at the top of the loop, and of
    the contour it leaves. *)
Definition traceInv (bitmap : list Z) (width height : Z) (t : Trace) : Prop :=
  t_dir t < 4
  /\ isForeground bitmap width height (t_cx t) (t_cy t) = true
  /\ Forall (fun p => isForeground bitmap width height (fst p) (snd p) = true)
            (t_contour t)
  /\ walk (t_contour t ++ [(t_cx t, t_cy t)]) = true.

(** What holds of every contour of the scan: foreground pixels only, each
    one step from the one before, and no more of them than the grid has
    cells. *)
Definition tracedContour (bitmap : list Z) (width height : Z) (c : list Pixel)
    : Prop :=
  Forall (fun p => isForeground bitmap width height (fst p) (snd p) = true) c
  /\ walk c = true
  /\ length c <= Z.to_nat (width * height).

(** ** The preview and the outline path ([generatePreview],
    [createSpinnerOutline], [createRoundedOutlinePath],
    [createCustomOutlinePath]) *)

(** [Math.max(...values)]: -Infinity for no value, NaN as soon as one value
    is NaN, and +0 above -0. *)
Definition Math_max2 (a b : float) : float :=
  if PrimFloat.is_nan a || PrimFloat.is_nan b then PrimFloat.nan
  else if (a <? b)%float then b
  else if (b <? a)%float then a
  else if PrimFloat.get_sign a then b else a.

Definition Math_max (values : list float) : float :=
  foldl Math_max2 PrimFloat.neg_infinity values.

Section Outline.

Variables Math_cos Math_sin : float -> float.
Variables Math_atan2 Math_pow : float -> float -> float.
Variable numToString : float -> string.
Variable Frame : Type.

(** The placeholder of [createEmptySvg]: its size and its message. *)
Record EmptySvg := mkEmptySvg {
  es_width : Z;
  es_height : Z;
  es_message : string
}.

Definition createEmptySvg (width height : Z) (message : string) : EmptySvg :=
  mkEmptySvg width height message.

Inductive Preview :=
  | Placeholder (e : EmptySvg)
  | Design (svg : SpinnerSvg Frame).

Definition generatePreview (svgFrames : option (list Frame))
    (options : SpinnerOptions) : Result Preview :=
  match svgFrames with
  | None | Some [] => Ok (Placeholder (createEmptySvg 300 300 "No frames available"))
  | Some frames =>
      bindResult (generateSpinnerSvg Math_cos Math_sin frames options true)
                 (fun svg => Ok (Design svg))
  end.

(** The branch [style === 'simple' || positions.length < 3] of
    [createSpinnerOutline]: two half circles. *)
Definition circleOutlinePath (positions : list Position) : string :=
  let maxRadius :=
    Math_max (map (fun p => PrimFloat.sqrt (pos_x p * pos_x p + pos_y p * pos_y p)%float)
                  positions) in
  let radius := (maxRadius + 10)%float in
  ("M" ++ numToString radius ++ ",0 A" ++ numToString radius ++ ","
       ++ numToString radius ++ " 0 1,1 " ++ numToString (- radius)%float
       ++ ",0 A" ++ numToString radius ++ "," ++ numToString radius
       ++ " 0 1,1 " ++ numToString radius ++ ",0 Z")%string.

(** [hullPoints] of [createRoundedOutlinePath]. *)
Definition hullPoints (positions : list Position) : list Point :=
  let angleStep := (2 * Math_PI / Z2F (Z.of_nat (length positions)))%float in
  imap (fun i pos =>
          let angle := (Z2F (Z.of_nat i) * angleStep)%float in
          let padding := 15%float in
          mkPoint (pos_x pos + Math_cos angle * padding)%float
                  (pos_y pos + Math_sin angle * padding)%float)
       positions.

Definition roundedStep (hullPoints : list Point) (pathData : string) (i : nat)
    : string :=
  let n := length hullPoints in
  match hullPoints !! i, hullPoints !! ((i + 1) mod n), hullPoints !! ((i + 2) mod n) with
  | Some current, Some next, Some next2 =>
      let midX := ((px current + px next) / 2)%float in
      let midY := ((py current + py next) / 2)%float in
      let nextMidX := ((px next + px next2) / 2)%float in
      let nextMidY := ((py next + py next2) / 2)%float in
      (pathData ++ " L" ++ coords numToString midX midY
                ++ " Q" ++ coords numToString (px next) (py next)
                ++ " " ++ coords numToString nextMidX nextMidY)%string
  | _, _, _ => pathData
  end.

Definition createRoundedOutlinePath (positions : list Position) : string :=
  if length positions <? 3 then ""%string else
  let hull := hullPoints positions in
  match hull !! 0 with
  | Some first =>
      (foldl (roundedStep hull) ("M" ++ coords numToString (px first) (py first))%string
             (seq 0 (length hull)) ++ " Z")%string
  | None => ""%string
  end.

(** One round of the loop of [createCustomOutlinePath]. *)
Definition customStep (positions : list Position) (centerX centerY maxRadius : float)
    (pathData : string) (i : nat) : string :=
  let padding := (maxRadius * 0.3)%float in
  match positions !! i, positions !! ((i + 1) mod length positions) with
  | Some pos, Some nextPos =>
      let angle := Math_atan2 (pos_y pos - centerY)%float (pos_x pos - centerX)%float in
      let paddedX := (pos_x pos + Math_cos angle * padding)%float in
      let paddedY := (pos_y pos + Math_sin angle * padding)%float in
      let nextAngle :=
        Math_atan2 (pos_y nextPos - centerY)%float (pos_x nextPos - centerX)%float in
      let midAngle := ((angle + nextAngle) / 2)%float in
      let midDistance := (maxRadius * 0.6)%float in
      let midX := (centerX + Math_cos midAngle * midDistance)%float in
      let midY := (centerY + Math_sin midAngle * midDistance)%float in
      let pathData :=
        if i =? 0 then ("M" ++ coords numToString paddedX paddedY)%string
        else (pathData ++ " L" ++ coords numToString paddedX paddedY)%string in
      (pathData ++ " L" ++ coords numToString midX midY)%string
  | _, _ => pathData
  end.

Definition createCustomOutlinePath (positions : list Position) : string :=
  if length positions <? 3 then ""%string else
  let count := Z2F (Z.of_nat (length positions)) in
  let centerX := (foldl (fun sum p => sum + pos_x p) 0 positions / count)%float in
  let centerY := (foldl (fun sum p => sum + pos_y p) 0 positions / count)%float in
  let maxRadius :=
    Math_max (map (fun p => PrimFloat.sqrt (Math_pow (pos_x p - centerX) 2
                                            + Math_pow (pos_y p - centerY) 2)%float)
                  positions) in
  (foldl (customStep positions centerX centerY maxRadius) ""%string
         (seq 0 (length positions)) ++ " Z")%string.

(** The [d] attribute that [createSpinnerOutline] computes from its
    arguments. *)
Definition outlinePathData (positions : list Position) (style : string) : string :=
  if String.eqb style "simple" || (length positions <? 3)
  then circleOutlinePath positions
  else if String.eqb style "rounded" then createRoundedOutlinePath positions
  else createCustomOutlinePath positions.

End Outline.

Arguments Placeholder {Frame}.
Arguments Design {Frame}.
Arguments generatePreview Math_cos Math_sin {Frame}.

(** A frame element of the preview and the one of the final design: the
    same frame at the same position. *)
Definition samePlacement {Frame} (a b : FrameElement Frame) : Prop :=
  fe_frame a = fe_frame b /\ fe_position a = fe_position b
  /\ fe_preview a = true /\ fe_preview b = false.

(** Path data that starts with a move-to. *)
Definition startsWithMove (pathData : string) : Prop :=
  exists rest, pathData = String "M" rest.

(** A frame and the document made from it have the same width and height. *)
Definition sameSize (frame : GifFrame) (doc : SvgDocument) : Prop :=
  doc_width doc = img_width (gf_imageData frame)
  /\ doc_height doc = img_height (gf_imageData frame).

(** The simple mode reads the image as the filled rectangle with corner
    [(x0, y0)], [W] columns and [H] rows: foreground exactly inside it. *)
Definition showsRectangle (imageData : ImageData) (options : ConvertOptions)
    (x0 y0 W H : Z) : bool :=
  forallb (fun c =>
             (simpleValue imageData options (fst c) (snd c)
              =? (if inRect x0 y0 W H (fst c) (snd c) then 1 else 0))%Z)
          (pixels (img_width imageData) (img_height imageData)).

(** * Proofs *)

(** ** Order facts about binary64 comparisons *)

Lemma SFcompare_le_lt_trans x y z c :
  SFcompare x y = Some c -> c <> Gt ->
  SFcompare y z = Some Lt -> SFcompare x z = Some Lt.
Proof.
  destruct x as [[]| [] | | [] mx ex], y as [[]| [] | | [] my ey],
           z as [[]| [] | | [] mz ez]; simpl;
    intros H1 Hc H2; try congruence; try (injection H1 as <-; congruence).
  all: change (Pos.compare_cont Eq) with Pos.compare in *.
  all: injection H1 as <-; injection H2 as H2; f_equal.
  all: destruct (Z.compare_spec ex ey); destruct (Z.compare_spec ey ez);
       destruct (Z.compare_spec ex ez); try lia; subst; try congruence.
  all: destruct (Pos.compare_spec mx my); destruct (Pos.compare_spec my mz);
       destruct (Pos.compare_spec mx mz); simpl in *; try lia; subst;
       try congruence.
Qed.

Lemma ltb_leb_trans (a b c : float) :
  (a <=? b)%float = true -> (b <? c)%float = true -> (a <? c)%float = true.
Proof.
  rewrite leb_spec, !ltb_spec. unfold SFleb, SFltb.
  destruct (SFcompare (Prim2SF a) (Prim2SF b)) as [c1|] eqn:E1; [|discriminate].
  destruct (SFcompare (Prim2SF b) (Prim2SF c)) as [[]|] eqn:E2; try discriminate.
  intros H _. erewrite SFcompare_le_lt_trans; eauto. destruct c1; congruence.
Qed.

Lemma ltb_zero_of_nonneg (t : float) :
  (0 <=? t)%float = true -> (t <? 0)%float = false.
Proof.
  rewrite leb_spec, ltb_spec. unfold SFleb, SFltb.
  change (Prim2SF 0) with (S754_zero false).
  destruct (Prim2SF t) as [[]| [] | | [] m e]; simpl; congruence.
Qed.

(** ** Path simplification: the scan for the farthest point *)

Section Farthest.
Variables (contour : list Point) (start end_ : Point).

Lemma farthestStep_inv st i :
  1 <= i -> i <= length contour - 2 ->
  farthestInv contour st -> farthestInv contour (farthestStep contour start end_ st i).
Proof.
  intros Hi1 Hi2 Hst. unfold farthestStep.
  destruct (contour !! i) as [p|]; [|assumption].
  destruct (fst st <? pointLineDistance p start end_)%float; [|assumption].
  right. unfold interiorIndex. simpl. lia.
Qed.

Lemma interior_indices :
  Forall (interiorIndex contour) (seq 1 (length contour - 2)).
Proof. apply Forall_forall. intros i Hi%elem_of_seq. unfold interiorIndex. lia. Qed.

Lemma foldl_farthest_inv l st :
  Forall (interiorIndex contour) l ->
  farthestInv contour st ->
  farthestInv contour (foldl (farthestStep contour start end_) st l).
Proof.
  intros Hl. revert st.
  induction Hl as [|i l [Hi1 Hi2] _ IH]; intros st Hst; simpl; [assumption|].
  apply IH. now apply farthestStep_inv.
Qed.

Lemma farthest_inv : farthestInv contour (farthest contour start end_).
Proof.
  unfold farthest. apply foldl_farthest_inv; [apply interior_indices|now left].
Qed.

End Farthest.




(** ** Path simplification: the recursion *)

Lemma simplifyContour_short fuel contour tolerance :
  length contour <= 2 -> simplifyContour fuel contour tolerance = Some contour.
Proof.
  intros H. apply Nat.leb_le in H. destruct fuel; simpl; now rewrite H.
Qed.

Lemma simplifyContour_long fuel contour tolerance :
  3 <= length contour ->
  exists start end_,
    contour !! 0 = Some start /\ last contour = Some end_ /\
    simplifyContour (S fuel) contour tolerance =
      (let '(maxDist, index) := farthest contour start end_ in
       if (tolerance <? maxDist)%float then
         match simplifyContour fuel (take (index + 1) contour) tolerance with
         | Some part1 =>
             match simplifyContour fuel (drop index contour) tolerance with
             | Some part2 => Some (take (length part1 - 1) part1 ++ part2)
             | None => None
             end
         | None => None
         end
       else Some [start; end_]).
Proof.
  intros H.
  destruct (contour !! 0) as [start|] eqn:E0.
  2:{ apply lookup_ge_None in E0. lia. }
  destruct (last contour) as [end_|] eqn:E1.
  2:{ apply last_None in E1. subst. simpl in H. lia. }
  exists start, end_. repeat split.
  assert ((length contour <=? 2) = false) as Hb by (apply Nat.leb_gt; lia).
  simpl. rewrite Hb, E0, E1. reflexivity.
Qed.

Lemma head_take_pos {A} (l : list A) n : 1 <= n -> head (take n l) = head l.
Proof. destruct n; [lia|]. now destruct l. Qed.

Lemma last_drop_lt {A} (l : list A) n : n < length l -> last (drop n l) = last l.
Proof.
  intros H. rewrite !last_lookup, lookup_drop, length_drop. f_equal. lia.
Qed.

Lemma last_app_nonempty {A} (l1 l2 : list A) :
  l2 <> [] -> last (l1 ++ l2) = last l2.
Proof.
  intros H. rewrite last_app. destruct (last l2) eqn:E; [reflexivity|].
  now apply last_None in E.
Qed.

Lemma keepsEnds_join contour index part1 part2 :
  interiorIndex contour index ->
  keepsEnds (take (index + 1) contour) part1 ->
  keepsEnds (drop index contour) part2 ->
  keepsEnds contour (take (length part1 - 1) part1 ++ part2) /\
  3 <= length (take (length part1 - 1) part1 ++ part2).
Proof.
  intros [Hi1 Hi2] (Hh1 & _ & Hn1) (_ & Hl2 & Hn2).
  rewrite length_take in Hn1. rewrite length_drop in Hn2.
  assert (2 <= length part1) as Hp1 by (apply Hn1; lia).
  assert (2 <= length part2) as Hp2 by (apply Hn2; lia).
  assert (part2 <> []) as Hne2 by (intros ->; simpl in Hp2; lia).
  assert (length (take (length part1 - 1) part1 ++ part2) =
          length part1 - 1 + length part2) as Hlen.
  { rewrite length_app, length_take. lia. }
  split; [|lia]. repeat split.
  - rewrite head_app. rewrite head_take_pos by lia.
    rewrite Hh1, head_take_pos by lia.
    destruct (head contour) eqn:E; [reflexivity|].
    apply head_None in E. subst. simpl in Hi2. lia.
  - rewrite last_app_nonempty by assumption.
    rewrite Hl2. apply last_drop_lt. lia.
  - lia.
Qed.

Lemma simplifyContour_shape tolerance :
  (0 <=? tolerance)%float = true ->
  forall fuel contour, length contour <= fuel + 2 ->
  exists r, simplifyContour fuel contour tolerance = Some r /\ keepsEnds contour r.
Proof.
  intros Htol. induction fuel as [|fuel IH]; intros contour Hlen.
  - exists contour. split; [apply simplifyContour_short; lia|].
    unfold keepsEnds. auto.
  - destruct (le_lt_dec (length contour) 2) as [Hs|Hl].
    { exists contour. split; [now apply simplifyContour_short|].
      unfold keepsEnds. auto. }
    destruct (simplifyContour_long fuel contour tolerance Hl)
      as (start & end_ & E0 & E1 & ->).
    pose proof (farthest_inv contour start end_) as Hinv.
    destruct (farthest contour start end_) as [maxDist index].
    destruct (tolerance <? maxDist)%float eqn:Hcmp.
    + destruct Hinv as [Hinit | Hidx].
      { injection Hinit as -> ->.
        rewrite (ltb_zero_of_nonneg _ Htol) in Hcmp. discriminate. }
      simpl in Hidx. pose proof Hidx as [Hi1 Hi2].
      destruct (IH (take (index + 1) contour)) as (part1 & -> & K1).
      { rewrite length_take. lia. }
      destruct (IH (drop index contour)) as (part2 & -> & K2).
      { rewrite length_drop. lia. }
      eexists. split; [reflexivity|].
      now apply (keepsEnds_join contour index).
    + exists [start; end_]. split; [reflexivity|].
      unfold keepsEnds. rewrite (head_lookup contour), E0, E1. simpl. auto.
Qed.

(** The result does not depend on the stack depth once it is deep enough. *)
Lemma simplifyContour_fuel_mono tolerance fuel :
  forall contour r fuel', fuel <= fuel' ->
  simplifyContour fuel contour tolerance = Some r ->
  simplifyContour fuel' contour tolerance = Some r.
Proof.
  induction fuel as [|fuel IH]; intros contour r fuel' Hle H.
  - simpl in H. destruct (length contour <=? 2) eqn:E; [|discriminate].
    injection H as <-. apply simplifyContour_short. now apply Nat.leb_le.
  - destruct (le_lt_dec (length contour) 2) as [Hs|Hl].
    { rewrite simplifyContour_short in H |- * by assumption. assumption. }
    destruct fuel' as [|fuel']; [lia|].
    destruct (simplifyContour_long fuel contour tolerance Hl)
      as (start & end_ & E0 & E1 & Heq).
    destruct (simplifyContour_long fuel' contour tolerance Hl)
      as (start' & end_' & E0' & E1' & Heq').
    rewrite E0 in E0'. rewrite E1 in E1'. injection E0' as <-. injection E1' as <-.
    rewrite Heq in H. rewrite Heq'.
    destruct (farthest contour start end_) as [maxDist index].
    destruct (tolerance <? maxDist)%float; [|assumption].
    destruct (simplifyContour fuel (take (index + 1) contour) tolerance)
      as [part1|] eqn:P1; [|discriminate].
    destruct (simplifyContour fuel (drop index contour) tolerance)
      as [part2|] eqn:P2; [|discriminate].
    rewrite (IH _ part1 fuel') by (lia || assumption).
    rewrite (IH _ part2 fuel') by (lia || assumption).
    assumption.
Qed.

(** C10. For a non-empty contour and a tolerance >= 0, [simplifyContour]
    returns (within a call stack as deep as the contour is long) a non-empty
    contour whose first point is the input's first point and whose last
    point is the input's last point. *)
Theorem simplifyContour_preserves_endpoints contour tolerance fuel :
  contour <> [] ->
  (0 <=? tolerance)%float = true ->
  length contour <= fuel ->
  exists r, simplifyContour fuel contour tolerance = Some r /\
            r <> [] /\ head r = head contour /\ last r = last contour.
Proof.
  intros Hne Htol Hfuel.
  destruct (simplifyContour_shape tolerance Htol fuel contour) as (r & Hr & Hh & Hl & _);
    [lia|].
  exists r. repeat split; try assumption.
  intros ->. simpl in Hh. symmetry in Hh. now apply head_None in Hh.
Qed.

Lemma simplifyContour_preserves_endpoints_witness :
  exists r,
    simplifyContour 5
      [pixelPoint (0, 0)%Z; pixelPoint (2, 0)%Z; pixelPoint (2, 3)%Z;
       pixelPoint (1, 3)%Z; pixelPoint (0, 2)%Z] 1 = Some r /\
    r <> [] /\
    head r = Some (pixelPoint (0, 0)%Z) /\ last r = Some (pixelPoint (0, 2)%Z).
Proof.
  apply (simplifyContour_preserves_endpoints
           [pixelPoint (0, 0)%Z; pixelPoint (2, 0)%Z; pixelPoint (2, 3)%Z;
            pixelPoint (1, 3)%Z; pixelPoint (0, 2)%Z] 1 5);
    [discriminate | reflexivity | simpl; lia].
Defined.

Lemma simplifyContour_fewer_points_aux t t' :
  (0 <=? t')%float = true -> (t' <=? t)%float = true ->
  forall fuel contour, length contour <= fuel + 2 ->
  exists r r',
    simplifyContour fuel contour t = Some r /\
    simplifyContour fuel contour t' = Some r' /\
    length r <= length r'.
Proof.
  intros Ht' Htt'. induction fuel as [|fuel IH]; intros contour Hlen.
  - exists contour, contour. rewrite !simplifyContour_short by lia. auto.
  - destruct (le_lt_dec (length contour) 2) as [Hs|Hl].
    { exists contour, contour. rewrite !simplifyContour_short by lia. auto. }
    destruct (simplifyContour_long fuel contour t Hl)
      as (start & end_ & E0 & E1 & ->).
    destruct (simplifyContour_long fuel contour t' Hl)
      as (start' & end_' & E0' & E1' & ->).
    rewrite E0 in E0'. rewrite E1 in E1'. injection E0' as <-. injection E1' as <-.
    pose proof (farthest_inv contour start end_) as Hinv.
    destruct (farthest contour start end_) as [maxDist index].
    assert ((t' <? maxDist)%float = true -> interiorIndex contour index) as Hidx.
    { intros Hcmp. destruct Hinv as [Hinit | Hidx]; [|assumption].
      injection Hinit as -> ->.
      rewrite (ltb_zero_of_nonneg _ Ht') in Hcmp. discriminate. }
    destruct (t <? maxDist)%float eqn:Hcmp.
    + rewrite (ltb_leb_trans _ _ _ Htt' Hcmp) in Hidx |- *.
      destruct (Hidx eq_refl) as [Hi1 Hi2].
      destruct (IH (take (index + 1) contour)) as (p1 & p1' & -> & -> & L1).
      { rewrite length_take. lia. }
      destruct (IH (drop index contour)) as (p2 & p2' & -> & -> & L2).
      { rewrite length_drop. lia. }
      do 2 eexists. repeat split.
      rewrite !length_app, !length_take. lia.
    + destruct (t' <? maxDist)%float eqn:Hcmp'.
      * destruct (Hidx eq_refl) as [Hi1 Hi2].
        destruct (simplifyContour_shape t' Ht' fuel (take (index + 1) contour))
          as (p1' & -> & K1).
        { rewrite length_take. lia. }
        destruct (simplifyContour_shape t' Ht' fuel (drop index contour))
          as (p2' & -> & K2).
        { rewrite length_drop. lia. }
        do 2 eexists. repeat split.
        destruct (keepsEnds_join contour index p1' p2') as [_ H3]; try assumption.
        { split; assumption. }
        simpl. lia.
      * do 2 eexists. repeat split. simpl. lia.
Qed.

(** C8. For all tolerances t >= t' >= 0, simplifying a contour with t yields
    at most as many points as simplifying it with t'. *)
Theorem simplifyContour_monotone contour t t' fuel :
  (0 <=? t')%float = true ->
  (t' <=? t)%float = true ->
  length contour <= fuel ->
  exists r r',
    simplifyContour fuel contour t = Some r /\
    simplifyContour fuel contour t' = Some r' /\
    length r <= length r'.
Proof.
  intros Ht' Htt' Hfuel.
  apply simplifyContour_fewer_points_aux; [assumption..|lia].
Qed.

Lemma simplifyContour_monotone_witness :
  exists r r',
    simplifyContour 5
      [pixelPoint (0, 0)%Z; pixelPoint (2, 0)%Z; pixelPoint (2, 3)%Z;
       pixelPoint (1, 3)%Z; pixelPoint (0, 2)%Z] 2 = Some r /\
    simplifyContour 5
      [pixelPoint (0, 0)%Z; pixelPoint (2, 0)%Z; pixelPoint (2, 3)%Z;
       pixelPoint (1, 3)%Z; pixelPoint (0, 2)%Z] 0.5 = Some r' /\
    length r <= length r'.
Proof.
  apply (simplifyContour_monotone
           [pixelPoint (0, 0)%Z; pixelPoint (2, 0)%Z; pixelPoint (2, 3)%Z;
            pixelPoint (1, 3)%Z; pixelPoint (0, 2)%Z] 2 0.5 5);
    [reflexivity | reflexivity | simpl; lia].
Defined.

Lemma simplifyContour_length_aux tolerance :
  (0 <=? tolerance)%float = true ->
  forall fuel contour, length contour <= fuel + 2 ->
  exists r, simplifyContour fuel contour tolerance = Some r /\
            length r <= length contour.
Proof.
  intros Htol. induction fuel as [|fuel IH]; intros contour Hlen.
  - exists contour. split; [apply simplifyContour_short; lia|lia].
  - destruct (le_lt_dec (length contour) 2) as [Hs|Hl].
    { exists contour. split; [now apply simplifyContour_short|lia]. }
    destruct (simplifyContour_long fuel contour tolerance Hl)
      as (start & end_ & E0 & E1 & ->).
    pose proof (farthest_inv contour start end_) as Hinv.
    destruct (farthest contour start end_) as [maxDist index].
    destruct (tolerance <? maxDist)%float eqn:Hcmp.
    + destruct Hinv as [Hinit | [Hi1 Hi2]].
      { injection Hinit as -> ->.
        rewrite (ltb_zero_of_nonneg _ Htol) in Hcmp. discriminate. }
      simpl in Hi1, Hi2.
      destruct (IH (take (index + 1) contour)) as (part1 & -> & L1).
      { rewrite length_take. lia. }
      destruct (IH (drop index contour)) as (part2 & -> & L2).
      { rewrite length_drop. lia. }
      eexists. split; [reflexivity|].
      rewrite length_take in L1. rewrite length_drop in L2.
      rewrite length_app, length_take. lia.
    + exists [start; end_]. split; [reflexivity|]. simpl. lia.
Qed.

(** For a tolerance >= 0 the simplified contour has at most as many points
    as the contour it was made from. *)
Theorem simplifyContour_no_longer contour tolerance fuel :
  (0 <=? tolerance)%float = true ->
  length contour <= fuel ->
  exists r, simplifyContour fuel contour tolerance = Some r /\
            length r <= length contour.
Proof.
  intros Htol Hfuel. apply simplifyContour_length_aux; [assumption|lia].
Qed.

Lemma simplifyContour_no_longer_witness :
  exists r,
    simplifyContour 4
      [pixelPoint (0, 0)%Z; pixelPoint (1, 0)%Z; pixelPoint (2, 0)%Z;
       pixelPoint (2, 1)%Z] 0.5 = Some r /\
    length r <= 4.
Proof.
  apply (simplifyContour_no_longer
           [pixelPoint (0, 0)%Z; pixelPoint (1, 0)%Z; pixelPoint (2, 0)%Z;
            pixelPoint (2, 1)%Z] 0.5 4);
    [reflexivity | simpl; lia].
Defined.

(** ** Tolerance 0 *)









(** Between the two cases some points are dropped and others kept, and the
    first condition is sufficient, not necessary: here (2, 0) lies on the
    segment from (0, 0) to (4, 0), yet every split of the recursion finds a
    point off its chord and the contour is returned unchanged. *)
Remark simplifyContour_zero_keeps_on_inner_chord :
  offSegmentb
    [pixelPoint (0, 0)%Z; pixelPoint (1, 3)%Z; pixelPoint (2, 0)%Z;
     pixelPoint (3, 5)%Z; pixelPoint (4, 0)%Z; pixelPoint (10, 1)%Z] = false
  /\ simplifyContour 6
       [pixelPoint (0, 0)%Z; pixelPoint (1, 3)%Z; pixelPoint (2, 0)%Z;
        pixelPoint (3, 5)%Z; pixelPoint (4, 0)%Z; pixelPoint (10, 1)%Z] 0
     = Some [pixelPoint (0, 0)%Z; pixelPoint (1, 3)%Z; pixelPoint (2, 0)%Z;
             pixelPoint (3, 5)%Z; pixelPoint (4, 0)%Z; pixelPoint (10, 1)%Z].
Proof. split; vm_compute; reflexivity. Qed.


(** ** Path smoothing with strength 0 *)

Section SmoothingFacts.
Variable numToString : float -> string.

Lemma lineStep_fold (pre ps : list Point) (acc : string) :
  foldl (lineStep numToString (pre ++ ps)) acc (seq (length pre) (length ps))
  = foldl (fun s c => (s ++ renderCommand numToString c)%string) acc (map LineTo ps).
Proof.
  revert pre acc. induction ps as [|q qs IH]; intros pre acc; [reflexivity|].
  simpl. unfold lineStep at 2.
  rewrite list_lookup_middle by reflexivity.
  specialize (IH (pre ++ [q])). rewrite <- app_assoc, length_app in IH. simpl in IH.
  rewrite Nat.add_1_r in IH. apply IH.
Qed.

Lemma straightPolygon_no_curve (contour : list Point) :
  existsb isCurve (straightPolygon contour) = false.
Proof.
  destruct contour as [|first rest]; [reflexivity|]. simpl.
  rewrite existsb_app. simpl. rewrite orb_false_r.
  induction rest as [|q qs IH]; [reflexivity|assumption].
Qed.

(** C6. With smoothing strength 0 the path of a non-empty contour is the
    text of: a move-to the first point, a line-to each following point in
    order, and a close; none of these commands is a quadratic or cubic
    curve. *)
Theorem contourToSvgPath_straight (first : Point) (rest : list Point) :
  contourToSvgPath numToString (first :: rest) 0
  = renderPath numToString (MoveTo first :: map LineTo rest ++ [ClosePath])
  /\ straightPolygon (first :: rest) = MoveTo first :: map LineTo rest ++ [ClosePath]
  /\ existsb isCurve (straightPolygon (first :: rest)) = false.
Proof.
  split; [|split; [reflexivity|apply straightPolygon_no_curve]].
  unfold contourToSvgPath, renderPath. simpl.
  change (0 =? 0)%float with true. cbv iota.
  rewrite foldl_app. simpl. f_equal.
  rewrite Nat.sub_0_r. apply (lineStep_fold [first] rest).
Qed.

End SmoothingFacts.

(** ** Row-major loops and typed arrays *)

Lemma forEachPixel_pixels {S : Type} width height (body : S -> Z -> Z -> S) init :
  forEachPixel width height body init
  = foldl (fun st c => body st (fst c) (snd c)) init (pixels width height).
Proof.
  unfold forEachPixel, pixels. generalize (seqZ 0 height) as rows. intros rows.
  revert init. induction rows as [|y rows IH]; intros init; [reflexivity|].
  simpl. rewrite foldl_app, foldl_fmap. simpl. apply IH.
Qed.

Lemma elem_of_pixels width height x y :
  (x, y) ∈ pixels width height <-> (0 <= x < width /\ 0 <= y < height)%Z.
Proof.
  unfold pixels. rewrite list_elem_of_In, in_concat. split.
  - intros (row & Hrow & Hin). apply in_map_iff in Hrow as (y' & <- & Hy).
    apply in_map_iff in Hin as (x' & [= -> ->] & Hx).
    apply list_elem_of_In, elem_of_seqZ in Hx, Hy. lia.
  - intros [Hx Hy]. exists (map (fun x => (x, y)) (seqZ 0 width)). split.
    + apply in_map_iff. exists y. split; [reflexivity|].
      apply list_elem_of_In, elem_of_seqZ. lia.
    + apply in_map_iff. exists x. split; [reflexivity|].
      apply list_elem_of_In, elem_of_seqZ. lia.
Qed.

Lemma forEachPixel_ext {S : Type} width height (body1 body2 : S -> Z -> Z -> S) init :
  (forall st x y, body1 st x y = body2 st x y) ->
  forEachPixel width height body1 init = forEachPixel width height body2 init.
Proof.
  intros Hext. rewrite !forEachPixel_pixels.
  generalize (pixels width height) as l. intros l. revert init.
  induction l as [|c l IH]; intros init; [reflexivity|].
  simpl. rewrite Hext. apply IH.
Qed.

Lemma length_store arr i v : length (store arr i v) = length arr.
Proof. unfold store. destruct (i <? 0)%Z; [reflexivity|apply length_insert]. Qed.

Lemma load_store_eq arr i v :
  (0 <= i)%Z -> Z.to_nat i < length arr -> load (store arr i v) i = Some v.
Proof.
  intros Hi Hlen. unfold load, store.
  destruct (Z.ltb_spec i 0); [lia|]. now apply list_lookup_insert_eq.
Qed.

Lemma load_store_ne arr i j v :
  (0 <= i)%Z -> (0 <= j)%Z -> i <> j -> load (store arr i v) j = load arr j.
Proof.
  intros Hi Hj Hne. unfold load, store.
  destruct (Z.ltb_spec i 0); [lia|]. destruct (Z.ltb_spec j 0); [lia|].
  apply list_lookup_insert_ne. lia.
Qed.

Lemma cell_index_inj width x y x' y' :
  (0 <= x < width)%Z -> (0 <= x' < width)%Z ->
  (y * width + x = y' * width + x')%Z -> x = x' /\ y = y'.
Proof.
  intros Hx Hx' Heq.
  assert (y = y') as -> by nia. split; [lia|reflexivity].
Qed.

Lemma cell_index_bound width height x y :
  (0 <= x < width)%Z -> (0 <= y < height)%Z ->
  (0 <= y * width + x < width * height)%Z.
Proof. intros Hx Hy. nia. Qed.

(** After a row-major loop that stores [f x y] in cell [y * width + x], the
    cell of an in-range pixel holds its value. *)
Lemma foldl_store_load width height (f : Z -> Z -> Z) cells init x y :
  (forall c, c ∈ cells -> (0 <= fst c < width /\ 0 <= snd c < height)%Z) ->
  (x, y) ∈ cells ->
  length init = Z.to_nat (width * height) ->
  load (foldl (fun arr c => store arr (snd c * width + fst c) (f (fst c) (snd c)))
              init cells) (y * width + x)
  = Some (f x y).
Proof.
  intros Hcells Hin Hlen.
  assert (forall l, length (foldl (fun arr c =>
            store arr (snd c * width + fst c) (f (fst c) (snd c))) init l)
          = length init) as Hlength.
  { intros l. induction l as [|c l IH] using rev_ind; [reflexivity|].
    rewrite foldl_snoc, length_store. exact IH. }
  induction cells as [|c cells IH] using rev_ind.
  { apply elem_of_nil in Hin. contradiction. }
  rewrite foldl_snoc.
  destruct (Hcells (x, y)) as [Hx Hy]; [assumption|]. simpl in Hx, Hy.
  destruct (Hcells c) as [Hcx Hcy]; [apply elem_of_app; right; apply list_elem_of_singleton; reflexivity|].
  pose proof (cell_index_bound width height x y Hx Hy) as Hb.
  pose proof (cell_index_bound width height _ _ Hcx Hcy) as Hcb.
  destruct (decide (c = (x, y))) as [-> | Hne].
  - simpl. apply load_store_eq; [lia|]. rewrite Hlength. lia.
  - rewrite load_store_ne; [| lia | lia |].
    + apply IH.
      * intros c' Hc'. apply Hcells. apply elem_of_app. now left.
      * apply elem_of_app in Hin as [Hin | Hin]; [assumption|].
        apply list_elem_of_singleton in Hin. congruence.
    + intros Heq. apply Hne.
      destruct (cell_index_inj width (fst c) (snd c) x y) as [E1 E2]; try assumption.
      destruct c; simpl in *; congruence.
Qed.

Lemma forEachPixel_store_load width height (f : Z -> Z -> Z)
    (body : list Z -> Z -> Z -> list Z) x y :
  (forall arr x y, body arr x y = store arr (y * width + x) (f x y)) ->
  (0 <= x < width)%Z -> (0 <= y < height)%Z ->
  load (forEachPixel width height body (newUint8Array (width * height)))
       (y * width + x)
  = Some (f x y).
Proof.
  intros Hbody Hx Hy.
  rewrite (forEachPixel_ext _ _ _ (fun arr x y => store arr (y * width + x) (f x y)))
    by exact Hbody.
  rewrite forEachPixel_pixels.
  apply (foldl_store_load width height f).
  - intros [cx cy] Hc. now apply elem_of_pixels in Hc.
  - now apply elem_of_pixels.
  - unfold newUint8Array. apply length_replicate.
Qed.

(** ** The row-major order of the pixels *)

Lemma pixels_succ width n :
  pixels width (Z.of_nat (S n))
  = pixels width (Z.of_nat n) ++ map (fun x => (x, Z.of_nat n)) (seqZ 0 width).
Proof.
  unfold pixels. rewrite seqZ_S, map_app, concat_app. simpl.
  now rewrite app_nil_r.
Qed.

Lemma length_pixels width height :
  (0 <= width)%Z -> (0 <= height)%Z ->
  length (pixels width height) = Z.to_nat (width * height).
Proof.
  intros Hw Hh. rewrite <- (Z2Nat.id height) by assumption.
  induction (Z.to_nat height) as [|n IH].
  - simpl. now rewrite Z.mul_0_r.
  - rewrite pixels_succ, length_app, IH, length_map, length_seqZ. nia.
Qed.

Lemma lookup_pixels_nat width height i :
  (0 < width)%Z -> (0 <= height)%Z -> i < Z.to_nat (width * height) ->
  pixels width height !! i = Some (Z.of_nat i mod width, Z.of_nat i / width)%Z.
Proof.
  intros Hw Hh. rewrite <- (Z2Nat.id height) by assumption.
  induction (Z.to_nat height) as [|n IH]; intros Hi.
  - rewrite Z.mul_0_r in Hi. simpl in Hi. lia.
  - rewrite pixels_succ.
    destruct (le_lt_dec (Z.to_nat (width * Z.of_nat n)) i) as [Hge|Hlt].
    + rewrite lookup_app_r by (rewrite length_pixels; lia).
      rewrite length_pixels by lia.
      rewrite list_lookup_fmap, lookup_seqZ_lt by nia. simpl. f_equal.
      assert (Z.of_nat i = Z.of_nat n * width
                           + Z.of_nat (i - Z.to_nat (width * Z.of_nat n)))%Z as Hi' by nia.
      f_equal.
      * apply (Z.mod_unique_pos _ _ (Z.of_nat n)); nia.
      * apply (Z.div_unique_pos _ _ _
                 (Z.of_nat (i - Z.to_nat (width * Z.of_nat n)))); nia.
    + rewrite lookup_app_l by (rewrite length_pixels; lia). now apply IH.
Qed.

Lemma lookup_pixels width height x y :
  (0 <= x < width)%Z -> (0 <= y < height)%Z ->
  pixels width height !! Z.to_nat (y * width + x) = Some (x, y).
Proof.
  intros Hx Hy. rewrite lookup_pixels_nat by nia.
  rewrite Z2Nat.id by nia. f_equal. f_equal.
  - symmetry. apply (Z.mod_unique_pos _ _ y); lia.
  - symmetry. apply (Z.div_unique_pos _ _ _ x); lia.
Qed.

Lemma lookup_pixels_inv width height i x y :
  (0 < width)%Z -> (0 <= height)%Z ->
  pixels width height !! i = Some (x, y) ->
  Z.of_nat i = (y * width + x)%Z /\ (0 <= x < width)%Z /\ (0 <= y < height)%Z.
Proof.
  intros Hw Hh Hi.
  assert (i < Z.to_nat (width * height)) as Hlt.
  { apply lookup_lt_Some in Hi. now rewrite length_pixels in Hi by lia. }
  rewrite lookup_pixels_nat in Hi by assumption. injection Hi as <- <-.
  pose proof (Z.mod_pos_bound (Z.of_nat i) width Hw).
  pose proof (Z.div_mod (Z.of_nat i) width).
  pose proof (Z.div_pos (Z.of_nat i) width).
  assert (Z.of_nat i / width < height)%Z by (apply Z.div_lt_upper_bound; nia).
  repeat split; lia.
Qed.

(** ** Bitmap preprocessing *)

Lemma preprocessBitmap_load imageData options x y :
  (0 <= x < img_width imageData)%Z -> (0 <= y < img_height imageData)%Z ->
  load (preprocessBitmap imageData options) (y * img_width imageData + x)
  = Some (simpleValue imageData options x y).
Proof.
  intros Hx Hy. unfold preprocessBitmap.
  apply (forEachPixel_store_load _ _ (simpleValue imageData options)); try assumption.
  intros arr x' y'. unfold simpleValue.
  destruct (load (img_data imageData) ((y' * img_width imageData + x') * 4 + 3))
    as [[| |]|]; reflexivity.
Qed.

Lemma grayscaleOf_load imageData x y :
  (0 <= x < img_width imageData)%Z -> (0 <= y < img_height imageData)%Z ->
  load (grayscaleOf imageData) (y * img_width imageData + x)
  = Some (grayValue imageData x y).
Proof.
  intros Hx Hy. unfold grayscaleOf.
  apply (forEachPixel_store_load _ _ (grayValue imageData)); try assumption.
  intros arr x' y'. unfold grayValue.
  destruct (load (img_data imageData) ((y' * img_width imageData + x') * 4 + 3))
    as [[| |]|]; reflexivity.
Qed.

Lemma grayValue_byte imageData x y : (0 <= grayValue imageData x y <= 255)%Z.
Proof.
  unfold grayValue.
  assert (forall v, 0 <= toUint8 v <= 255)%Z as Hb.
  { intros [z|]; simpl; [|lia]. pose proof (Z.mod_pos_bound z 256). lia. }
  destruct (load _ _) as [[| |]|]; auto; lia.
Qed.

Lemma foldl_invariant {A B} (P : A -> Prop) (f : A -> B -> A) l a :
  P a -> (forall a b, P a -> P (f a b)) -> P (foldl f a l).
Proof.
  intros Ha Hstep. revert a Ha. induction l as [|b l IH]; intros a Ha; simpl; auto.
Qed.

Lemma windowSum_inv imageData blockSize x y :
  windowInv (windowSum (grayscaleOf imageData) (img_width imageData)
                       (img_height imageData) blockSize x y).
Proof.
  unfold windowSum. apply foldl_invariant; [unfold windowInv; simpl; lia|].
  intros st dy Hst. apply foldl_invariant; [assumption|].
  clear st Hst. intros st dx Hst.
  destruct ((0 <=? x + dx) && (x + dx <? img_width imageData)
            && (0 <=? y + dy) && (y + dy <? img_height imageData))%Z eqn:Hin;
    [|assumption].
  apply andb_prop in Hin as [Hin H4]. apply andb_prop in Hin as [Hin H3].
  apply andb_prop in Hin as [H1 H2].
  apply Z.leb_le in H1, H3. apply Z.ltb_lt in H2, H4.
  rewrite grayscaleOf_load by lia.
  pose proof (grayValue_byte imageData (x + dx) (y + dy)).
  unfold windowInv in *. simpl. lia.
Qed.

Lemma adaptive_not_above_white sum count c :
  (0 <= sum)%Z -> (sum <= 255 * count)%Z -> (0 < count)%Z -> (0 <= c)%Z ->
  Qltb (inject_Z 255) (inject_Z sum / inject_Z count - inject_Z c) = false.
Proof.
  intros Hs Hsc Hc Hcc. unfold Qltb. apply negb_false_iff, Qle_bool_iff.
  assert (inject_Z sum / inject_Z count <= inject_Z 255)%Q as Hq.
  { apply Qle_shift_div_r.
    - unfold Qlt. simpl. lia.
    - rewrite <- inject_Z_mult. unfold Qle. simpl. lia. }
  assert (0 <= inject_Z c)%Q as Hq'.
  { unfold Qle. simpl. lia. }
  lra.
Qed.

Lemma documented_detailLevel options :
  documentedRanges options = true ->
  (1 <= orDefault (detailLevel options) 5 <= 10)%Z.
Proof.
  unfold documentedRanges. intros H.
  apply andb_prop in H as [H _]. apply andb_prop in H as [H _].
  apply andb_prop in H as [_ H].
  destruct (detailLevel options) as [d|]; simpl in *; [|lia].
  apply andb_prop in H as [H1 H2]. apply Z.leb_le in H1, H2.
  destruct d; simpl; lia.
Qed.

(** C7. Within the documented ranges of the options, a pixel whose alpha
    byte is 0 is background (0) in the grid of the simple mode and in the
    grid of the adaptive mode, whatever its R, G and B bytes are. *)
Theorem transparent_pixel_is_background imageData options x y :
  documentedRanges options = true ->
  (0 <= x < img_width imageData)%Z -> (0 <= y < img_height imageData)%Z ->
  load (img_data imageData) ((y * img_width imageData + x) * 4 + 3) = Some 0%Z ->
  load (preprocessBitmap imageData options) (y * img_width imageData + x) = Some 0%Z
  /\ load (preprocessBitmapAdvanced imageData options) (y * img_width imageData + x)
     = Some 0%Z.
Proof.
  intros Hopts Hx Hy Halpha. split.
  - rewrite preprocessBitmap_load by assumption.
    unfold simpleValue. now rewrite Halpha.
  - unfold preprocessBitmapAdvanced.
    pose proof (documented_detailLevel options Hopts) as Hd.
    set (dl := orDefault (detailLevel options) 5) in *.
    match goal with
    | |- load (forEachPixel _ _ ?body _) _ = _ =>
        rewrite (forEachPixel_store_load _ _
                   (fun x y => let '(sum, count) :=
                        windowSum (grayscaleOf imageData) (img_width imageData)
                                  (img_height imageData) (11 - dl) x y in
                      if (count =? 0)%Z then 0%Z
                      else if Qltb (inject_Z (default 0%Z
                                      (load (grayscaleOf imageData)
                                            (y * img_width imageData + x))))
                                   (inject_Z sum / inject_Z count - inject_Z (10 - dl))
                           then 1%Z else 0%Z) body)
    end; try assumption.
    + pose proof (windowSum_inv imageData (11 - dl) x y) as Hinv.
      destruct (windowSum _ _ _ _ x y) as [sum count].
      unfold windowInv in Hinv. simpl in Hinv.
      destruct (Z.eqb_spec count 0); [reflexivity|].
      rewrite grayscaleOf_load by assumption. unfold grayValue.
      rewrite Halpha. simpl default.
      rewrite adaptive_not_above_white by lia. reflexivity.
    + intros arr x' y'. destruct (windowSum _ _ _ _ x' y'). reflexivity.
Qed.

Lemma transparent_pixel_is_background_witness :
  load (preprocessBitmap
          (mkImageData 2 1 [0; 0; 0; 255; 10; 20; 30; 0]%Z)
          (mkConvertOptions (Some 200%Z) (Some 10%Z) None None)) (0 * 2 + 1)
  = Some 0%Z
  /\ load (preprocessBitmapAdvanced
          (mkImageData 2 1 [0; 0; 0; 255; 10; 20; 30; 0]%Z)
          (mkConvertOptions (Some 200%Z) (Some 10%Z) None None)) (0 * 2 + 1)
     = Some 0%Z.
Proof.
  apply (transparent_pixel_is_background
           (mkImageData 2 1 [0; 0; 0; 255; 10; 20; 30; 0]%Z)
           (mkConvertOptions (Some 200%Z) (Some 10%Z) None None) 1 0);
    [reflexivity | simpl; lia | simpl; lia | reflexivity].
Defined.

(** What the simple mode stores for a pixel that is not fully transparent:
    the comparison of the computed luminance with [options.threshold || 128]. *)
Lemma preprocessBitmap_opaque imageData options x y a :
  (0 <= x < img_width imageData)%Z -> (0 <= y < img_height imageData)%Z ->
  load (img_data imageData) ((y * img_width imageData + x) * 4 + 3) = Some a ->
  a <> 0%Z ->
  load (preprocessBitmap imageData options) (y * img_width imageData + x)
  = Some (if (luminance
                (operand (load (img_data imageData) ((y * img_width imageData + x) * 4)))
                (operand (load (img_data imageData) ((y * img_width imageData + x) * 4 + 1)))
                (operand (load (img_data imageData) ((y * img_width imageData + x) * 4 + 2)))
              <? Z2F (orDefault (threshold options) 128))%float
          then 1 else 0)%Z.
Proof.
  intros Hx Hy Ha Hne. rewrite preprocessBitmap_load by assumption.
  unfold simpleValue. rewrite Ha. destruct a; [contradiction|reflexivity..].
Qed.

(** For a threshold other than 0 the simple mode does what the threshold
    says: an opaque pixel is foreground exactly when its computed luminance
    is less than the threshold. *)
Lemma preprocessBitmap_foreground_iff imageData options x y a t :
  (0 <= x < img_width imageData)%Z -> (0 <= y < img_height imageData)%Z ->
  load (img_data imageData) ((y * img_width imageData + x) * 4 + 3) = Some a ->
  a <> 0%Z ->
  threshold options = Some t -> t <> 0%Z ->
  load (preprocessBitmap imageData options) (y * img_width imageData + x) = Some 1%Z
  <-> (luminance
         (operand (load (img_data imageData) ((y * img_width imageData + x) * 4)))
         (operand (load (img_data imageData) ((y * img_width imageData + x) * 4 + 1)))
         (operand (load (img_data imageData) ((y * img_width imageData + x) * 4 + 2)))
       <? Z2F t)%float = true.
Proof.
  intros Hx Hy Ha Hne Ht Hnz.
  rewrite (preprocessBitmap_opaque imageData options x y a) by assumption.
  rewrite Ht. assert (orDefault (Some t) 128 = t) as -> by (destruct t; easy).
  destruct (_ <? _)%float; split; congruence.
Qed.

(** The luminance is the binary64 value of the expression: for the grey
    (128, 128, 128) it is 127.99999999999999, just below 128. *)
Remark luminance_grey_128 :
  luminance (Z2F 128) (Z2F 128) (Z2F 128) = 127.99999999999999%float
  /\ (luminance (Z2F 128) (Z2F 128) (Z2F 128) <? Z2F 128)%float = true.
Proof. split; reflexivity. Qed.

(** C9 at the threshold 0 of the documented range [0, 255]: an opaque black
    pixel has luminance 0, which is not less than 0, yet the simple mode
    marks it foreground, because [options.threshold || 128] reads 0 as
    missing and compares with 128. *)
Theorem preprocessBitmap_threshold_zero :
  preprocessBitmap (mkImageData 1 1 [0; 0; 0; 255]%Z)
                   (mkConvertOptions (Some 0%Z) None None None)
  = [1%Z]
  /\ documentedRanges (mkConvertOptions (Some 0%Z) None None None) = true
  /\ (luminance (Z2F 0) (Z2F 0) (Z2F 0) <? Z2F 0)%float = false
  /\ preprocessBitmap (mkImageData 1 1 [0; 0; 0; 255]%Z)
                      (mkConvertOptions (Some 0%Z) None None None)
     = preprocessBitmap (mkImageData 1 1 [0; 0; 0; 255]%Z)
                        (mkConvertOptions (Some 128%Z) None None None).
Proof. repeat split. Qed.

(** ** Contour tracing: the step budget *)

Lemma traceLoop_count bitmap width height steps :
  forall t,
    let r := traceLoop bitmap width height steps t in
    (t_count r = (t_count t + Z.of_nat steps)%Z /\
     length (t_contour r) = length (t_contour t) + steps)
    \/ (t_count t <= t_count r < t_count t + Z.of_nat steps)%Z.
Proof.
  induction steps as [|steps IH]; intros t; simpl.
  - left. split; lia.
  - destruct (negb _ || _) eqn:Hbreak.
    + right. simpl. lia.
    + match goal with |- context [traceLoop _ _ _ _ ?t'] => specialize (IH t') end.
      simpl in IH. rewrite length_app in IH. simpl in IH.
      destruct IH as [[Hc Hl] | Hc]; [left; split; lia | right; lia].
Qed.

Lemma traceContour_budget bitmap width height visited x y :
  t_count (traceContour bitmap width height visited x y) = (width * height)%Z ->
  length (t_contour (traceContour bitmap width height visited x y))
  = Z.to_nat (width * height).
Proof.
  unfold traceContour. intros Hcount.
  pose proof (traceLoop_count bitmap width height (Z.to_nat (width * height))
                (mkTrace x y 0 0 [] visited)) as H.
  simpl in H. destruct H as [[_ Hl] | Hc]; [exact Hl|]. lia.
Qed.

Lemma scanPixel_keeps bitmap width height st x y c :
  c ∈ fst st -> c ∈ fst (scanPixel bitmap width height st x y).
Proof.
  intros Hc. unfold scanPixel.
  destruct (_ && _); [|assumption]. simpl.
  destruct (2 <? _); [|assumption]. apply elem_of_app. now left.
Qed.

Lemma scan_keeps bitmap width height l st c :
  c ∈ fst st ->
  c ∈ fst (foldl (fun st c => scanPixel bitmap width height st (fst c) (snd c)) st l).
Proof.
  revert st. induction l as [|p l IH]; intros st Hc; [assumption|].
  simpl. apply IH. now apply scanPixel_keeps.
Qed.

Lemma scan_fixed bitmap width height st l :
  (forall c, c ∈ l -> scanPixel bitmap width height st (fst c) (snd c) = st) ->
  foldl (fun st c => scanPixel bitmap width height st (fst c) (snd c)) st l = st.
Proof.
  induction l as [|c l IH]; intros Hl; [reflexivity|].
  simpl. rewrite (Hl c) by apply list_elem_of_here.
  apply IH. intros c' Hc'. apply Hl. now apply list_elem_of_further.
Qed.

Lemma scanPixel_extends bitmap width height st x y :
  exists more, fst (scanPixel bitmap width height st x y) = fst st ++ more.
Proof.
  unfold scanPixel. destruct (_ && _); [|exists []; now rewrite app_nil_r].
  cbn [fst]. destruct (2 <? _); [eexists; reflexivity|].
  exists []. now rewrite app_nil_r.
Qed.

Lemma scan_extends bitmap width height l st :
  exists more,
    fst (foldl (fun st c => scanPixel bitmap width height st (fst c) (snd c)) st l)
    = fst st ++ more.
Proof.
  revert st. induction l as [|p l IH]; intros st.
  - exists []. simpl. now rewrite app_nil_r.
  - simpl. destruct (IH (scanPixel bitmap width height st (fst p) (snd p))) as [m2 ->].
    destruct (scanPixel_extends bitmap width height st (fst p) (snd p)) as [m1 ->].
    exists (m1 ++ m2). now rewrite app_assoc.
Qed.

Lemma scanUpTo_add bitmap width height m n :
  scanUpTo bitmap width height (m + n)
  = foldl (fun st c => scanPixel bitmap width height st (fst c) (snd c))
          (scanUpTo bitmap width height m) (take n (drop m (pixels width height))).
Proof.
  unfold scanUpTo. now rewrite <- foldl_app, take_take_drop.
Qed.

Lemma scanUpTo_succ bitmap width height k x y :
  pixels width height !! k = Some (x, y) ->
  scanUpTo bitmap width height (S k)
  = scanPixel bitmap width height (scanUpTo bitmap width height k) x y.
Proof.
  intros Hk. unfold scanUpTo. rewrite (take_S_r _ _ _ Hk), foldl_snoc. reflexivity.
Qed.

Lemma scanContours_from bitmap width height k :
  scanContours bitmap width height
  = foldl (fun st c => scanPixel bitmap width height st (fst c) (snd c))
          (scanUpTo bitmap width height k) (drop k (pixels width height)).
Proof.
  unfold scanContours, scanUpTo. rewrite forEachPixel_pixels.
  rewrite <- foldl_app, take_drop. reflexivity.
Qed.

(** C4, as the code has it.  A trace that uses up its budget of
    [width * height] steps stops with exactly [width * height] points.  The
    contour is kept or dropped by its length alone: it is appended to the
    output when [width * height] is more than 2, and then it is in the final
    result; the scan goes on from the next pixel with the marks the trace
    left. *)
Theorem budget_exhausted_contour_is_kept bitmap width height k x y :
  let st := scanUpTo bitmap width height k in
  let t := traceContour bitmap width height (snd st) x y in
  pixels width height !! k = Some (x, y) ->
  load bitmap (y * width + x) = Some 1%Z ->
  load (snd st) (y * width + x) = Some 0%Z ->
  t_count t = (width * height)%Z ->
  length (t_contour t) = Z.to_nat (width * height)
  /\ scanUpTo bitmap width height (S k)
     = (if (2 <? width * height)%Z then fst st ++ [t_contour t] else fst st,
        t_visited t)
  /\ ((2 < width * height)%Z -> t_contour t ∈ findContours bitmap width height).
Proof.
  intros st t Hk Hfg Hvis Hcount.
  assert (length (t_contour t) = Z.to_nat (width * height)) as Hlen.
  { now apply traceContour_budget. }
  assert (scanUpTo bitmap width height (S k)
          = (if (2 <? width * height)%Z then fst st ++ [t_contour t] else fst st,
             t_visited t)) as Hnext.
  { rewrite (scanUpTo_succ _ _ _ _ _ _ Hk). unfold scanPixel. fold st.
    rewrite (bool_decide_eq_true_2 _ Hfg), (bool_decide_eq_true_2 _ Hvis). simpl.
    fold t. rewrite Hlen.
    destruct (Z.ltb_spec 2 (width * height)).
    - assert ((2 <? Z.to_nat (width * height)) = true) as ->; [|reflexivity].
      apply Nat.ltb_lt. lia.
    - assert ((2 <? Z.to_nat (width * height)) = false) as ->; [|reflexivity].
      apply Nat.ltb_ge. lia. }
  repeat split; try assumption.
  intros Hbig. unfold findContours. rewrite (scanContours_from _ _ _ (S k)).
  apply scan_keeps. rewrite Hnext.
  destruct (Z.ltb_spec 2 (width * height)); [|lia].
  simpl. apply elem_of_app. right.
  apply list_elem_of_singleton. reflexivity.
Qed.

Lemma budget_exhausted_contour_is_kept_witness :
  length (t_contour (traceContour [1; 1; 1]%Z 3 1
                       (snd (scanUpTo [1; 1; 1]%Z 3 1 0)) 0 0))
  = Z.to_nat (3 * 1)
  /\ scanUpTo [1; 1; 1]%Z 3 1 1
     = (if (2 <? 3 * 1)%Z
        then fst (scanUpTo [1; 1; 1]%Z 3 1 0)
               ++ [t_contour (traceContour [1; 1; 1]%Z 3 1
                                (snd (scanUpTo [1; 1; 1]%Z 3 1 0)) 0 0)]
        else fst (scanUpTo [1; 1; 1]%Z 3 1 0),
        t_visited (traceContour [1; 1; 1]%Z 3 1
                     (snd (scanUpTo [1; 1; 1]%Z 3 1 0)) 0 0))
  /\ ((2 < 3 * 1)%Z ->
      t_contour (traceContour [1; 1; 1]%Z 3 1
                   (snd (scanUpTo [1; 1; 1]%Z 3 1 0)) 0 0)
      ∈ findContours [1; 1; 1]%Z 3 1).
Proof.
  apply (budget_exhausted_contour_is_kept [1; 1; 1]%Z 3 1 0 0 0);
    [reflexivity | reflexivity | reflexivity | reflexivity].
Defined.

(** C4 as stated fails: on the 3 x 1 grid [1 1 1] the only trace uses up its
    budget of 3 steps, and its contour is in the output. *)
Lemma budget_exhausted_contour_not_discarded :
  t_count (traceContour [1; 1; 1]%Z 3 1 [0; 0; 0]%Z 0 0) = (3 * 1)%Z
  /\ findContours [1; 1; 1]%Z 3 1 = [[(0, 0); (1, 0); (2, 0)]%Z].
Proof. split; reflexivity. Qed.

(** ** Contour tracing: what is never returned *)

(** A grid that is entirely background has no contour. *)
Theorem findContours_background (n : nat) (width height : Z) :
  findContours (replicate n 0%Z) width height = [].
Proof.
  unfold findContours, scanContours. rewrite forEachPixel_pixels.
  rewrite scan_fixed; [reflexivity|].
  intros [x y] _. unfold scanPixel. cbn [fst snd].
  assert (bool_decide (load (replicate n 0%Z) (y * width + x) = Some 1%Z) = false) as ->;
    [|reflexivity].
  apply bool_decide_eq_false_2. unfold load.
  destruct (y * width + x <? 0)%Z; [discriminate|].
  intros Hl. apply lookup_replicate in Hl as [Hl _]. discriminate.
Qed.

Lemma scanPixel_min_points bitmap width height st x y :
  Forall (fun c : list Pixel => 3 <= length c) (fst st) ->
  Forall (fun c : list Pixel => 3 <= length c)
         (fst (scanPixel bitmap width height st x y)).
Proof.
  intros Hst. unfold scanPixel. destruct (_ && _); [|assumption]. cbn [fst].
  destruct (2 <? _) eqn:Hlen; [|assumption].
  apply Forall_app. split; [assumption|].
  constructor; [|constructor]. apply Nat.ltb_lt in Hlen. lia.
Qed.

(** A contour with fewer than 3 points is never returned. *)
Theorem findContours_min_points bitmap width height :
  Forall (fun c : list Pixel => 3 <= length c) (findContours bitmap width height).
Proof.
  unfold findContours, scanContours. rewrite forEachPixel_pixels.
  apply (foldl_invariant (fun st => Forall (fun c : list Pixel => 3 <= length c) (fst st))).
  - constructor.
  - intros st c Hst. now apply scanPixel_min_points.
Qed.

(** ** Contour tracing: one round of the loop *)

Lemma traceLoop_continue bitmap width height steps t s :
  tryDirections bitmap width height (t_cx t) (t_cy t) (t_dir t) 4 = s ->
  found s = true ->
  (2 <? length (t_contour t ++ [(t_cx t, t_cy t)]))
  && atStart (t_contour t ++ [(t_cx t, t_cy t)]) (s_cx s) (s_cy s) = false ->
  traceLoop bitmap width height (S steps) t
  = traceLoop bitmap width height steps
      (mkTrace (s_cx s) (s_cy s) ((s_dir s + 3) mod 4) (t_count t + 1)
               (t_contour t ++ [(t_cx t, t_cy t)])
               (store (t_visited t) (t_cy t * width + t_cx t) 1)).
Proof.
  intros Hs Hfound Hopen. cbn [traceLoop]. rewrite Hs, Hfound, Hopen. reflexivity.
Qed.

Lemma traceLoop_break bitmap width height steps t s :
  tryDirections bitmap width height (t_cx t) (t_cy t) (t_dir t) 4 = s ->
  negb (found s)
  || ((2 <? length (t_contour t ++ [(t_cx t, t_cy t)]))
      && atStart (t_contour t ++ [(t_cx t, t_cy t)]) (s_cx s) (s_cy s)) = true ->
  traceLoop bitmap width height (S steps) t
  = mkTrace (s_cx s) (s_cy s) (s_dir s) (t_count t)
            (t_contour t ++ [(t_cx t, t_cy t)])
            (store (t_visited t) (t_cy t * width + t_cx t) 1).
Proof.
  intros Hs Hclose. cbn [traceLoop]. rewrite Hs, Hclose. reflexivity.
Qed.

(** ** Contour tracing on a filled rectangle *)

Ltac zbool :=
  repeat (cbn [fst snd];
          match goal with
          | |- context [(?a <? ?b)%Z] => destruct (Z.ltb_spec a b); try lia
          | |- context [(?a <=? ?b)%Z] => destruct (Z.leb_spec a b); try lia
          | |- context [(?a =? ?b)%Z] => destruct (Z.eqb_spec a b); try lia
          end).

(** Decide every integer comparison of the goal from the hypotheses. *)
Ltac zdecide :=
  repeat match goal with
    | |- context [(?a <? ?b)%Z] =>
        first [ rewrite (proj2 (Z.ltb_lt a b)) by lia
              | rewrite (proj2 (Z.ltb_ge a b)) by lia ]
    | |- context [(?a <=? ?b)%Z] =>
        first [ rewrite (proj2 (Z.leb_le a b)) by lia
              | rewrite (proj2 (Z.leb_gt a b)) by lia ]
    | |- context [(?a =? ?b)%Z] =>
        first [ rewrite (proj2 (Z.eqb_eq a b)) by lia
              | rewrite (proj2 (Z.eqb_neq a b)) by lia ]
    end.

(** Evaluate the direction arithmetic once the direction is known. *)
Ltac eval_dirs :=
  repeat match goal with
    | |- context [dx !!! ?d] =>
        let v := eval vm_compute in (dx !!! d) in change (dx !!! d) with v
    | |- context [dy !!! ?d] =>
        let v := eval vm_compute in (dy !!! d) in change (dy !!! d) with v
    | |- context [(?a + ?b) mod 4] =>
        let v := eval vm_compute in ((a + b) mod 4) in change ((a + b) mod 4) with v
    end.

Section Rectangle.
Variables width height x0 y0 W H : Z.
Hypothesis inGrid : rectInGrid width height x0 y0 W H.

Lemma rectGrid_load x y :
  (0 <= x < width)%Z -> (0 <= y < height)%Z ->
  load (rectGrid width height x0 y0 W H) (y * width + x)
  = Some (if inRect x0 y0 W H x y then 1 else 0)%Z.
Proof.
  intros Hx Hy. unfold load, rectGrid.
  destruct (Z.ltb_spec (y * width + x) 0); [nia|].
  rewrite list_lookup_fmap, lookup_pixels by assumption. reflexivity.
Qed.

Lemma isForeground_rect nx ny :
  isForeground (rectGrid width height x0 y0 W H) width height nx ny
  = inRect x0 y0 W H nx ny.
Proof.
  destruct inGrid as (Hx0 & Hy0 & Hxw & Hyh & HW & HH).
  unfold isForeground.
  destruct (Z.leb_spec 0 nx), (Z.ltb_spec nx width), (Z.leb_spec 0 ny),
           (Z.ltb_spec ny height); simpl;
    try (unfold inRect; zbool; reflexivity).
  rewrite rectGrid_load by lia.
  destruct (inRect x0 y0 W H nx ny); reflexivity.
Qed.

Lemma perimeter_search k :
  (0 <= k < 2 * W + 2 * H - 4)%Z ->
  tryDirections (rectGrid width height x0 y0 W H) width height
    (fst (perimeterPixel x0 y0 W H k)) (snd (perimeterPixel x0 y0 W H k))
    (perimeterDir W H k) 4
  = mkSearch true (fst (perimeterPixel x0 y0 W H (k + 1)))
             (snd (perimeterPixel x0 y0 W H (k + 1)))
             ((perimeterDir W H (k + 1) + 1) mod 4).
Proof.
  destruct inGrid as (Hx0 & Hy0 & Hxw & Hyh & HW & HH). intros Hk.
  assert (k = 0 \/ 1 <= k < W - 1 \/ k = W - 1 \/ W <= k < W + H - 2
          \/ k = W + H - 2 \/ W + H - 1 <= k < 2 * W + H - 3
          \/ k = 2 * W + H - 3 \/ 2 * W + H - 2 <= k)%Z as Hcases by lia.
  unfold perimeterPixel, perimeterDir.
  destruct Hcases as [Hc|[Hc|[Hc|[Hc|[Hc|[Hc|[Hc|Hc]]]]]]];
    zdecide; cbn [fst snd];
    unfold tryDirections; rewrite ?isForeground_rect; unfold inRect;
    eval_dirs; zdecide; cbn [andb]; f_equal; lia.
Qed.

Lemma perimeterPixel_first : perimeterPixel x0 y0 W H 0 = (x0, y0).
Proof.
  destruct inGrid as (Hx0 & Hy0 & Hxw & Hyh & HW & HH).
  unfold perimeterPixel. zdecide. f_equal; lia.
Qed.

Lemma perimeterPixel_wraps :
  perimeterPixel x0 y0 W H (2 * W + 2 * H - 4) = (x0, y0).
Proof.
  destruct inGrid as (Hx0 & Hy0 & Hxw & Hyh & HW & HH).
  unfold perimeterPixel. zdecide. f_equal; lia.
Qed.

Lemma perimeterPixel_not_start k :
  (0 < k < 2 * W + 2 * H - 4)%Z -> perimeterPixel x0 y0 W H k <> (x0, y0).
Proof.
  destruct inGrid as (Hx0 & Hy0 & Hxw & Hyh & HW & HH). intros Hk.
  unfold perimeterPixel. zbool; intros E; inversion E; lia.
Qed.

Lemma perimeterPixel_inRect k :
  (0 <= k < 2 * W + 2 * H - 4)%Z ->
  inRect x0 y0 W H (fst (perimeterPixel x0 y0 W H k))
         (snd (perimeterPixel x0 y0 W H k)) = true.
Proof.
  destruct inGrid as (Hx0 & Hy0 & Hxw & Hyh & HW & HH). intros Hk.
  unfold perimeterPixel, inRect. zbool; reflexivity.
Qed.

Lemma turn_back d : d < 4 -> ((d + 1) mod 4 + 3) mod 4 = d.
Proof. intros Hd. do 4 (destruct d as [|d]; [reflexivity|]). lia. Qed.

Lemma perimeterDir_lt k : perimeterDir W H k < 4.
Proof. unfold perimeterDir. zbool; lia. Qed.

Lemma seqZ_snoc k : (0 <= k)%Z -> seqZ 0 (k + 1) = seqZ 0 k ++ [k].
Proof.
  intros Hk. rewrite seqZ_app by lia. reflexivity.
Qed.

Lemma perimeter_prefix_start k :
  (0 <= k)%Z ->
  (map (perimeterPixel x0 y0 W H) (seqZ 0 k) ++ [perimeterPixel x0 y0 W H k]) !! 0
  = Some (x0, y0).
Proof.
  intros Hk. rewrite <- perimeterPixel_first.
  destruct (Z.eq_dec k 0%Z) as [->|Hne]; [reflexivity|].
  rewrite seqZ_cons by lia. reflexivity.
Qed.

(** One round of the loop on the boundary, short of the last pixel. *)
Lemma traceLoop_perimeter_step visited steps k :
  (0 <= k < 2 * W + 2 * H - 5)%Z ->
  traceLoop (rectGrid width height x0 y0 W H) width height (S steps)
            (perimeterState width x0 y0 W H visited k)
  = traceLoop (rectGrid width height x0 y0 W H) width height steps
              (perimeterState width x0 y0 W H visited (k + 1)).
Proof.
  intros Hk. cbn [traceLoop perimeterState t_cx t_cy t_dir t_count t_contour t_visited].
  rewrite <- (surjective_pairing (perimeterPixel x0 y0 W H k)).
  rewrite perimeter_search by lia.
  cbn [found s_cx s_cy s_dir negb orb].
  unfold atStart. rewrite perimeter_prefix_start by lia. cbn [fst snd].
  pose proof (perimeterPixel_not_start (k + 1)) as Hns.
  destruct (perimeterPixel x0 y0 W H (k + 1)) as [nx ny] eqn:Enext. cbn [fst snd].
  assert (((nx =? x0)%Z && (ny =? y0)%Z) = false) as ->.
  { apply andb_false_iff.
    destruct (Z.eqb_spec nx x0), (Z.eqb_spec ny y0); auto.
    subst. exfalso. apply Hns; [lia|reflexivity]. }
  rewrite andb_false_r. cbn [orb].
  rewrite turn_back by apply perimeterDir_lt.
  f_equal. unfold perimeterState. rewrite Enext. cbn [fst snd].
  rewrite seqZ_snoc by lia. rewrite map_app. cbn [map].
  unfold markAll. rewrite foldl_snoc. reflexivity.
Qed.

(** The round at the last boundary pixel closes the contour. *)
Lemma traceLoop_perimeter_close visited steps :
  traceLoop (rectGrid width height x0 y0 W H) width height (S steps)
            (perimeterState width x0 y0 W H visited (2 * W + 2 * H - 5))
  = mkTrace x0 y0 3 (2 * W + 2 * H - 5) (perimeter x0 y0 W H)
            (markAll width visited (perimeter x0 y0 W H)).
Proof.
  destruct inGrid as (Hx0 & Hy0 & Hxw & Hyh & HW & HH).
  cbn [traceLoop perimeterState t_cx t_cy t_dir t_count t_contour t_visited].
  rewrite <- (surjective_pairing (perimeterPixel x0 y0 W H (2 * W + 2 * H - 5))).
  rewrite perimeter_search by lia.
  replace (2 * W + 2 * H - 5 + 1)%Z with (2 * W + 2 * H - 4)%Z by lia.
  rewrite perimeterPixel_wraps.
  cbn [found s_cx s_cy s_dir negb orb fst snd].
  unfold atStart. rewrite perimeter_prefix_start by lia. cbn [fst snd].
  rewrite !Z.eqb_refl. cbn [andb].
  assert (map (perimeterPixel x0 y0 W H) (seqZ 0 (2 * W + 2 * H - 5))
          ++ [perimeterPixel x0 y0 W H (2 * W + 2 * H - 5)]
          = perimeter x0 y0 W H) as Hper.
  { unfold perimeter.
    replace (2 * W + 2 * H - 4)%Z with (2 * W + 2 * H - 5 + 1)%Z by lia.
    rewrite seqZ_snoc by lia. now rewrite map_app. }
  rewrite Hper.
  assert ((2 <? length (perimeter x0 y0 W H)) = true) as ->.
  { apply Nat.ltb_lt. unfold perimeter. rewrite length_map, length_seqZ. lia. }
  cbn [andb orb]. f_equal.
  - unfold perimeterDir. zdecide. reflexivity.
  - rewrite <- Hper. unfold markAll. now rewrite foldl_snoc.
Qed.

Lemma traceLoop_perimeter visited n :
  forall steps k,
    (0 <= k)%Z -> (k + Z.of_nat n = 2 * W + 2 * H - 5)%Z -> n < steps ->
    traceLoop (rectGrid width height x0 y0 W H) width height steps
              (perimeterState width x0 y0 W H visited k)
    = mkTrace x0 y0 3 (2 * W + 2 * H - 5) (perimeter x0 y0 W H)
              (markAll width visited (perimeter x0 y0 W H)).
Proof.
  induction n as [|n IH]; intros steps k Hk Hsum Hsteps;
    (destruct steps as [|steps]; [lia|]).
  - replace k with (2 * W + 2 * H - 5)%Z by lia. apply traceLoop_perimeter_close.
  - rewrite traceLoop_perimeter_step by lia. apply IH; lia.
Qed.

(** The trace started at the top-left pixel of the rectangle follows the
    boundary once and closes. *)
Lemma traceContour_rect visited :
  traceContour (rectGrid width height x0 y0 W H) width height visited x0 y0
  = mkTrace x0 y0 3 (2 * W + 2 * H - 5) (perimeter x0 y0 W H)
            (markAll width visited (perimeter x0 y0 W H)).
Proof.
  destruct inGrid as (Hx0 & Hy0 & Hxw & Hyh & HW & HH).
  unfold traceContour.
  assert (mkTrace x0 y0 0 0 [] visited = perimeterState width x0 y0 W H visited 0) as ->.
  { unfold perimeterState. rewrite perimeterPixel_first. reflexivity. }
  apply (traceLoop_perimeter visited (Z.to_nat (2 * W + 2 * H - 5))); [lia|lia|].
  assert (2 * W + 2 * H - 4 <= W * H)%Z by nia.
  assert (W * H <= width * height)%Z by nia.
  lia.
Qed.

(** *** The marks of a trace *)

Lemma length_markAll visited contour :
  length (markAll width visited contour) = length visited.
Proof.
  unfold markAll. induction contour as [|p l IH] using rev_ind; [reflexivity|].
  now rewrite foldl_snoc, length_store.
Qed.

Lemma markAll_load visited contour x y :
  (forall p, p ∈ contour -> (0 <= fst p < width /\ 0 <= snd p < height)%Z) ->
  length visited = Z.to_nat (width * height) ->
  (x, y) ∈ contour ->
  load (markAll width visited contour) (y * width + x) = Some 1%Z.
Proof.
  intros Hin Hlen.
  induction contour as [|q l IH] using rev_ind; intros Hxy.
  { now apply elem_of_nil in Hxy. }
  unfold markAll. rewrite foldl_snoc. fold (markAll width visited l).
  destruct (Hin (x, y) Hxy) as [Hx Hy]. cbn [fst snd] in Hx, Hy.
  destruct (Hin q) as [Hqx Hqy].
  { apply elem_of_app. right. now apply list_elem_of_singleton. }
  pose proof (cell_index_bound width height x y Hx Hy).
  pose proof (cell_index_bound width height _ _ Hqx Hqy).
  destruct (decide (q = (x, y))) as [->|Hne].
  - cbn [fst snd]. apply load_store_eq; [lia|]. rewrite length_markAll. lia.
  - rewrite load_store_ne; [|lia|lia|].
    + apply IH.
      * intros p Hp. apply Hin. apply elem_of_app. now left.
      * apply elem_of_app in Hxy as [Hxy|Hxy]; [assumption|].
        apply list_elem_of_singleton in Hxy. congruence.
    + intros Heq. apply Hne.
      destruct (cell_index_inj width (fst q) (snd q) x y) as [E1 E2]; try assumption.
      destruct q; cbn [fst snd] in *; congruence.
Qed.

Lemma perimeter_in_grid p :
  p ∈ perimeter x0 y0 W H -> (0 <= fst p < width /\ 0 <= snd p < height)%Z.
Proof.
  destruct inGrid as (Hx0 & Hy0 & Hxw & Hyh & HW & HH).
  unfold perimeter. intros Hp. apply list_elem_of_fmap in Hp as (k & -> & Hk).
  apply elem_of_seqZ in Hk.
  pose proof (perimeterPixel_inRect k) as Hr. unfold inRect in Hr.
  destruct (perimeterPixel x0 y0 W H k) as [x y]. cbn [fst snd] in *.
  assert (((x0 <=? x)%Z && (x <? x0 + W)%Z && (y0 <=? y)%Z && (y <? y0 + H)%Z) = true)
    as Hr' by (apply Hr; lia).
  apply andb_prop in Hr' as [Hr' H4]. apply andb_prop in Hr' as [Hr' H3].
  apply andb_prop in Hr' as [H1 H2].
  apply Z.leb_le in H1, H3. apply Z.ltb_lt in H2, H4. lia.
Qed.

(** Every pixel on an edge of the rectangle is met by the trace. *)
Lemma edge_on_perimeter x y :
  inRect x0 y0 W H x y = true ->
  (x = x0 \/ x = x0 + W - 1 \/ y = y0 \/ y = y0 + H - 1)%Z ->
  (x, y) ∈ perimeter x0 y0 W H.
Proof.
  destruct inGrid as (Hx0 & Hy0 & Hxw & Hyh & HW & HH). intros Hr Hedge.
  unfold inRect in Hr.
  apply andb_prop in Hr as [Hr H4]. apply andb_prop in Hr as [Hr H3].
  apply andb_prop in Hr as [H1 H2].
  apply Z.leb_le in H1, H3. apply Z.ltb_lt in H2, H4.
  unfold perimeter. apply list_elem_of_fmap.
  assert (y = y0 \/ (y0 < y /\ x = x0 + W - 1)
          \/ (x < x0 + W - 1 /\ y = y0 + H - 1 /\ y0 < y)
          \/ (x = x0 /\ y0 < y < y0 + H - 1 /\ x < x0 + W - 1))%Z as Hcases by lia.
  destruct Hcases as [Hc|[Hc|[Hc|Hc]]].
  - exists (x - x0)%Z. split; [|apply elem_of_seqZ; lia].
    unfold perimeterPixel. zdecide. f_equal; lia.
  - exists (W - 1 + (y - y0))%Z. split; [|apply elem_of_seqZ; lia].
    unfold perimeterPixel. zdecide. f_equal; lia.
  - exists (2 * W + H - 3 - (x - x0))%Z. split; [|apply elem_of_seqZ; lia].
    unfold perimeterPixel. zdecide. f_equal; lia.
  - exists (2 * W + 2 * H - 4 - (y - y0))%Z. split; [|apply elem_of_seqZ; lia].
    unfold perimeterPixel. zdecide. f_equal; lia.
Qed.

(** A rectangle two pixels wide or two pixels high is all edge. *)
Lemma thin_rect_on_perimeter x y :
  (W = 2 \/ H = 2)%Z -> inRect x0 y0 W H x y = true -> (x, y) ∈ perimeter x0 y0 W H.
Proof.
  destruct inGrid as (Hx0 & Hy0 & Hxw & Hyh & HW & HH). intros Hthin Hr.
  apply edge_on_perimeter; [assumption|].
  unfold inRect in Hr.
  apply andb_prop in Hr as [Hr H4]. apply andb_prop in Hr as [Hr H3].
  apply andb_prop in Hr as [H1 H2].
  apply Z.leb_le in H1, H3. apply Z.ltb_lt in H2, H4. lia.
Qed.

(** The trace does not step on an interior pixel. *)
Lemma interior_off_perimeter x y :
  (x0 < x < x0 + W - 1)%Z -> (y0 < y < y0 + H - 1)%Z ->
  (x, y) ∉ perimeter x0 y0 W H.
Proof.
  intros Hx Hy Hin. unfold perimeter in Hin.
  apply list_elem_of_fmap in Hin as (k & Hk & _).
  unfold perimeterPixel in Hk. revert Hk. zbool; intros E; inversion E; lia.
Qed.

Lemma markAll_load_other visited contour x y :
  (forall p, p ∈ contour -> (0 <= fst p < width /\ 0 <= snd p < height)%Z) ->
  (0 <= x < width)%Z -> (0 <= y < height)%Z ->
  (x, y) ∉ contour ->
  load (markAll width visited contour) (y * width + x) = load visited (y * width + x).
Proof.
  intros Hin Hx Hy.
  induction contour as [|q l IH] using rev_ind; intros Hxy; [reflexivity|].
  unfold markAll. rewrite foldl_snoc. fold (markAll width visited l).
  destruct (Hin q) as [Hqx Hqy].
  { apply elem_of_app. right. now apply list_elem_of_singleton. }
  pose proof (cell_index_bound width height x y Hx Hy).
  pose proof (cell_index_bound width height _ _ Hqx Hqy).
  rewrite load_store_ne; [|lia|lia|].
  - apply IH.
    + intros p Hp. apply Hin. apply elem_of_app. now left.
    + intros Hl. apply Hxy. apply elem_of_app. now left.
  - intros Heq. apply Hxy. apply elem_of_app. right. apply list_elem_of_singleton.
    destruct (cell_index_inj width (fst q) (snd q) x y) as [E1 E2]; try assumption.
    destruct q; cbn [fst snd] in *; congruence.
Qed.

(** *** The scan for starting points *)

Lemma length_rectGrid :
  length (rectGrid width height x0 y0 W H) = Z.to_nat (width * height).
Proof.
  destruct inGrid as (Hx0 & Hy0 & Hxw & Hyh & HW & HH).
  unfold rectGrid. rewrite length_map. apply length_pixels; lia.
Qed.

Lemma scanPixel_background st x y :
  (0 <= x < width)%Z -> (0 <= y < height)%Z ->
  inRect x0 y0 W H x y = false ->
  scanPixel (rectGrid width height x0 y0 W H) width height st x y = st.
Proof.
  intros Hx Hy Hr. unfold scanPixel.
  rewrite rectGrid_load, Hr by assumption. reflexivity.
Qed.

Lemma scanPixel_visited st x y :
  load (snd st) (y * width + x) = Some 1%Z ->
  scanPixel (rectGrid width height x0 y0 W H) width height st x y = st.
Proof.
  intros Hv. unfold scanPixel. rewrite Hv.
  now rewrite andb_false_r.
Qed.

Lemma scan_unchanged st l :
  (forall c, c ∈ l ->
     scanPixel (rectGrid width height x0 y0 W H) width height st (fst c) (snd c) = st) ->
  foldl (fun st c =>
           scanPixel (rectGrid width height x0 y0 W H) width height st (fst c) (snd c))
        st l = st.
Proof. apply scan_fixed. Qed.

(** Before the top-left pixel of the rectangle the scan meets background
    only. *)
Lemma scanUpTo_seed :
  scanUpTo (rectGrid width height x0 y0 W H) width height
           (Z.to_nat (y0 * width + x0))
  = ([], replicate (Z.to_nat (width * height)) 0%Z).
Proof.
  destruct inGrid as (Hx0 & Hy0 & Hxw & Hyh & HW & HH).
  unfold scanUpTo. rewrite length_rectGrid. apply scan_unchanged.
  intros [x y] Hc. apply list_elem_of_lookup in Hc as [i Hi].
  apply lookup_take_Some in Hi as [Hi Hlt].
  apply lookup_pixels_inv in Hi as (Hidx & Hx & Hy); [|lia|lia].
  cbn [fst snd]. apply scanPixel_background; try assumption.
  unfold inRect. zbool. nia.
Qed.

Lemma scanUpTo_after_seed :
  scanUpTo (rectGrid width height x0 y0 W H) width height
           (S (Z.to_nat (y0 * width + x0)))
  = ([perimeter x0 y0 W H],
     markAll width (replicate (Z.to_nat (width * height)) 0%Z) (perimeter x0 y0 W H)).
Proof.
  destruct inGrid as (Hx0 & Hy0 & Hxw & Hyh & HW & HH).
  rewrite (scanUpTo_succ _ _ _ _ x0 y0) by (apply lookup_pixels; lia).
  rewrite scanUpTo_seed. unfold scanPixel. cbn [fst snd].
  rewrite rectGrid_load by lia.
  assert (inRect x0 y0 W H x0 y0 = true) as -> by (unfold inRect; zdecide; reflexivity).
  assert (load (replicate (Z.to_nat (width * height)) 0%Z) (y0 * width + x0) = Some 0%Z)
    as ->.
  { unfold load. destruct (Z.ltb_spec (y0 * width + x0) 0); [nia|].
    apply lookup_replicate_2. nia. }
  rewrite !bool_decide_eq_true_2 by reflexivity. cbn [andb].
  rewrite traceContour_rect. cbn [t_contour t_visited].
  assert ((2 <? length (perimeter x0 y0 W H)) = true) as ->; [|reflexivity].
  apply Nat.ltb_lt. unfold perimeter. rewrite length_map, length_seqZ. lia.
Qed.

Lemma scanPixel_head st x y c :
  head (fst st) = Some c ->
  head (fst (scanPixel (rectGrid width height x0 y0 W H) width height st x y)) = Some c.
Proof.
  intros Hc. unfold scanPixel. destruct (_ && _); [|assumption]. cbn [fst].
  destruct (2 <? _); [|assumption].
  destruct (fst st); [discriminate|assumption].
Qed.

Lemma scan_head l st c :
  head (fst st) = Some c ->
  head (fst (foldl (fun st c =>
                      scanPixel (rectGrid width height x0 y0 W H) width height
                                st (fst c) (snd c)) st l)) = Some c.
Proof.
  revert st. induction l as [|p l IH]; intros st Hc; [assumption|].
  simpl. apply IH. now apply scanPixel_head.
Qed.

Lemma scan_after_seed_thin :
  (W = 2 \/ H = 2)%Z ->
  scanContours (rectGrid width height x0 y0 W H) width height
  = ([perimeter x0 y0 W H],
     markAll width (replicate (Z.to_nat (width * height)) 0%Z) (perimeter x0 y0 W H)).
Proof.
  destruct inGrid as (Hx0 & Hy0 & Hxw & Hyh & HW & HH). intros Hthin.
  rewrite (scanContours_from _ _ _ (S (Z.to_nat (y0 * width + x0)))).
  rewrite scanUpTo_after_seed. apply scan_unchanged.
  intros [x y] Hc. apply list_elem_of_lookup in Hc as [i Hi].
  rewrite lookup_drop in Hi.
  apply lookup_pixels_inv in Hi as (_ & Hx & Hy); [|lia|lia]. cbn [fst snd].
  destruct (inRect x0 y0 W H x y) eqn:Hr.
  - apply scanPixel_visited. cbn [snd].
    apply markAll_load.
    + apply perimeter_in_grid.
    + apply length_replicate.
    + now apply thin_rect_on_perimeter.
  - now apply scanPixel_background.
Qed.

(** *** A rectangle with an interior *)

Ltac search_rect :=
  unfold tryDirections; rewrite ?isForeground_rect; unfold inRect;
  eval_dirs; zdecide; cbn [andb]; reflexivity.

Lemma traceContour_interior visited :
  (3 <= W)%Z -> (3 <= H)%Z ->
  t_contour (traceContour (rectGrid width height x0 y0 W H) width height visited
                          (x0 + 1) (y0 + 1))
  = [(x0 + 1, y0 + 1); (x0 + 1 + 1, y0 + 1 + 0); (x0 + 1 + 1 + 0, y0 + 1 + 0 + -1);
     (x0 + 1 + 1 + 0 + -1, y0 + 1 + 0 + -1 + 0)]%Z.
Proof.
  destruct inGrid as (Hx0 & Hy0 & Hxw & Hyh & HW & HH). intros HW3 HH3.
  unfold traceContour.
  assert (exists n, Z.to_nat (width * height) = S (S (S (S n)))) as [n ->].
  { exists (Z.to_nat (width * height) - 4). nia. }
  erewrite traceLoop_continue;
    [|cbn [t_cx t_cy t_dir]; search_rect|reflexivity|reflexivity].
  cbn [s_cx s_cy s_dir t_cx t_cy t_count t_contour t_visited app].
  eval_dirs.
  erewrite traceLoop_continue;
    [|cbn [t_cx t_cy t_dir]; search_rect|reflexivity|reflexivity].
  cbn [s_cx s_cy s_dir t_cx t_cy t_count t_contour t_visited app].
  eval_dirs.
  erewrite traceLoop_continue;
    [|cbn [t_cx t_cy t_dir]; search_rect|reflexivity|].
  2:{ cbn [s_cx s_cy t_cx t_cy t_contour app length]. unfold atStart.
      cbn [lookup list_lookup fst snd]. zdecide. rewrite andb_false_r. reflexivity. }
  cbn [s_cx s_cy s_dir t_cx t_cy t_count t_contour t_visited app].
  eval_dirs.
  erewrite traceLoop_break; [|cbn [t_cx t_cy t_dir]; search_rect|].
  2:{ cbn [found negb orb s_cx s_cy t_cx t_cy t_contour app length]. unfold atStart.
      cbn [lookup list_lookup fst snd]. zdecide. reflexivity. }
  reflexivity.
Qed.

Lemma scanUpTo_interior_seed :
  (3 <= W)%Z -> (3 <= H)%Z ->
  scanUpTo (rectGrid width height x0 y0 W H) width height
           (Z.to_nat ((y0 + 1) * width + (x0 + 1)))
  = ([perimeter x0 y0 W H],
     markAll width (replicate (Z.to_nat (width * height)) 0%Z) (perimeter x0 y0 W H)).
Proof.
  destruct inGrid as (Hx0 & Hy0 & Hxw & Hyh & HW & HH). intros HW3 HH3.
  replace (Z.to_nat ((y0 + 1) * width + (x0 + 1)))
    with (S (Z.to_nat (y0 * width + x0))
          + (Z.to_nat ((y0 + 1) * width + (x0 + 1)) - S (Z.to_nat (y0 * width + x0))))
    by nia.
  rewrite scanUpTo_add, scanUpTo_after_seed. apply scan_unchanged.
  intros [x y] Hc. apply list_elem_of_lookup in Hc as [i Hi].
  apply lookup_take_Some in Hi as [Hi Hlt]. rewrite lookup_drop in Hi.
  apply lookup_pixels_inv in Hi as (Hidx & Hx & Hy); [|lia|lia]. cbn [fst snd].
  destruct (inRect x0 y0 W H x y) eqn:Hr; [|now apply scanPixel_background].
  apply scanPixel_visited. cbn [snd].
  apply markAll_load; [apply perimeter_in_grid|apply length_replicate|].
  apply edge_on_perimeter; [assumption|].
  unfold inRect in Hr.
  apply andb_prop in Hr as [Hr H4]. apply andb_prop in Hr as [Hr H3].
  apply andb_prop in Hr as [H1 H2].
  apply Z.leb_le in H1, H3. apply Z.ltb_lt in H2, H4.
  assert (y = y0 \/ (y = y0 + 1 /\ x = x0))%Z by nia. lia.
Qed.

Lemma scanUpTo_after_interior_seed :
  (3 <= W)%Z -> (3 <= H)%Z ->
  fst (scanUpTo (rectGrid width height x0 y0 W H) width height
                (S (Z.to_nat ((y0 + 1) * width + (x0 + 1)))))
  = [perimeter x0 y0 W H; innerLoop x0 y0].
Proof.
  destruct inGrid as (Hx0 & Hy0 & Hxw & Hyh & HW & HH). intros HW3 HH3.
  rewrite (scanUpTo_succ _ _ _ _ (x0 + 1) (y0 + 1))%Z by (apply lookup_pixels; lia).
  rewrite scanUpTo_interior_seed by assumption. unfold scanPixel. cbn [fst snd].
  rewrite rectGrid_load by lia.
  assert (inRect x0 y0 W H (x0 + 1) (y0 + 1) = true) as ->
    by (unfold inRect; zdecide; reflexivity).
  rewrite markAll_load_other;
    [|apply perimeter_in_grid|lia|lia|apply interior_off_perimeter; lia].
  assert (load (replicate (Z.to_nat (width * height)) 0%Z)
               ((y0 + 1) * width + (x0 + 1)) = Some 0%Z) as ->.
  { unfold load. destruct (Z.ltb_spec ((y0 + 1) * width + (x0 + 1)) 0); [nia|].
    apply lookup_replicate_2. nia. }
  rewrite !bool_decide_eq_true_2 by reflexivity. cbn [andb].
  rewrite traceContour_interior by assumption. cbn [length Nat.ltb Nat.leb fst app].
  unfold innerLoop. repeat (f_equal; try lia).
Qed.

End Rectangle.

(** C2, as the code has it.  For the grid whose foreground is one filled
    W x H rectangle (W, H >= 2) the first contour returned is the boundary
    of the rectangle, in trace order; it is the only contour when the
    rectangle has no interior pixel (W = 2 or H = 2); when it has one
    (W, H >= 3) a second contour follows, the loop through the first
    interior pixel. *)
Theorem findContours_rectangle width height x0 y0 W H :
  rectInGrid width height x0 y0 W H ->
  head (findContours (rectGrid width height x0 y0 W H) width height)
  = Some (perimeter x0 y0 W H)
  /\ ((W = 2 \/ H = 2)%Z ->
      findContours (rectGrid width height x0 y0 W H) width height
      = [perimeter x0 y0 W H])
  /\ ((3 <= W)%Z -> (3 <= H)%Z ->
      exists more,
        findContours (rectGrid width height x0 y0 W H) width height
        = perimeter x0 y0 W H :: innerLoop x0 y0 :: more).
Proof.
  intros inGrid. split; [|split].
  - unfold findContours.
    rewrite (scanContours_from _ _ _ (S (Z.to_nat (y0 * width + x0)))).
    apply scan_head.
    rewrite scanUpTo_after_seed by assumption. reflexivity.
  - intros Hthin. unfold findContours.
    rewrite scan_after_seed_thin by assumption. reflexivity.
  - intros HW3 HH3. unfold findContours.
    rewrite (scanContours_from _ _ _ (S (Z.to_nat ((y0 + 1) * width + (x0 + 1))))).
    match goal with
    | |- context [foldl ?f ?st ?l] =>
        destruct (scan_extends (rectGrid width height x0 y0 W H) width height l st)
          as [more ->]
    end.
    rewrite scanUpTo_after_interior_seed by assumption.
    exists more. reflexivity.
Qed.

Lemma findContours_rectangle_witness :
  findContours (rectGrid 5 4 1 1 3 2) 5 4 = [perimeter 1 1 3 2].
Proof.
  apply (proj1 (proj2 (findContours_rectangle 5 4 1 1 3 2
                         ltac:(unfold rectInGrid; lia)))).
  right. reflexivity.
Defined.

(** C2 as stated fails: the 3 x 3 grid that is all foreground.  The first
    trace follows the boundary and leaves the centre pixel unmarked; the scan
    then starts a second trace at the centre. *)
Lemma findContours_square3_two_contours :
  findContours (rectGrid 3 3 0 0 3 3) 3 3
  = [[(0, 0); (1, 0); (2, 0); (2, 1); (2, 2); (1, 2); (0, 2); (0, 1)];
     [(1, 1); (2, 1); (2, 0); (1, 0)]]%Z
  /\ rectGrid 3 3 0 0 3 3 = [1; 1; 1; 1; 1; 1; 1; 1; 1]%Z
  /\ length (findContours (rectGrid 3 3 0 0 3 3) 3 3) = 2.
Proof. repeat split; vm_compute; reflexivity. Qed.

(** ** Circular layout *)

Section LayoutFacts.
Variables Math_cos Math_sin : float -> float.
Variable Frame : Type.

(** C5. Whatever the options, [generateSpinner] called with an empty frame
    list (or with no list at all) rejects with the error "No frames
    available" before any progress is reported, and resolves with no design. *)
Theorem generateSpinner_rejects_empty (options : SpinnerOptions) :
  generateSpinner Math_cos Math_sin (Frame := Frame) (Some []) options
  = ([], Rejected (Error "No frames available"))
  /\ generateSpinner Math_cos Math_sin (Frame := Frame) None options
     = ([], Rejected (Error "No frames available"))
  /\ isResolved (snd (generateSpinner Math_cos Math_sin (Frame := Frame) (Some []) options))
     = false.
Proof. repeat split. Qed.

Lemma mapResult_ok {A B} (g : A -> Result B) (h : A -> B) (l : list A) :
  (forall a, a ∈ l -> g a = Ok (h a)) -> mapResult g l = Ok (map h l).
Proof.
  induction l as [|a l IH]; intros Hg; [reflexivity|].
  simpl. rewrite (Hg a) by apply list_elem_of_here. simpl.
  rewrite IH; [reflexivity|]. intros a' Ha'. apply Hg. now apply list_elem_of_further.
Qed.

Lemma frameAt_nonempty (f : Frame) (fs : list Frame) (i : Z) :
  exists g, frameAt (f :: fs) i = Some g.
Proof.
  unfold frameAt. simpl length. cbn [Nat.eqb].
  apply lookup_lt_is_Some_2.
  pose proof (Z.mod_pos_bound i (Z.of_nat (S (length fs)))).
  simpl length. lia.
Qed.

Lemma length_calculateFramePositions count diameter bearingDiameter spacing :
  length (calculateFramePositions Math_cos Math_sin count diameter bearingDiameter spacing)
  = Z.to_nat count.
Proof. unfold calculateFramePositions. now rewrite length_map, length_seqZ. Qed.

End LayoutFacts.

Section LayoutDimensions.
Variables Math_cos Math_sin : float -> float.
Variable Frame : Type.

Lemma placed_frames (svgFrames : list Frame) (positions : list Position)
    (P : Z -> Position) (l : list Z) :
  (forall i, i ∈ l -> (exists g, frameAt svgFrames i = Some g)
                      /\ positions !! Z.to_nat i = Some (P i)) ->
  exists frames,
    mapResult (fun i => createFrameElement (frameAt svgFrames i)
                                           (positions !! Z.to_nat i) false) l
    = Ok frames
    /\ map fe_position frames = map P l.
Proof.
  induction l as [|i l IH]; intros Hl; [exists []; split; reflexivity|].
  destruct (Hl i) as [[g Hg] Hp]; [apply list_elem_of_here|].
  destruct IH as (frames & Hframes & Hpos).
  { intros j Hj. apply Hl. now apply list_elem_of_further. }
  exists (mkFrameElement g (P i) false :: frames). simpl.
  rewrite Hg, Hp. simpl. rewrite Hframes. simpl. rewrite Hpos. split; reflexivity.
Qed.

(** With a non-empty frame list every frame element is built, and the
    promise resolves. *)
Lemma generateSpinner_resolves_nonempty (f : Frame) (fs : list Frame)
    (options : SpinnerOptions) :
  let count := default 8%Z (frameCount options) in
  let positions :=
    calculateFramePositions Math_cos Math_sin count
      (default 100%Z (diameter options))
      (default 22%Z (bearingDiameter options)) (default 5%Z (spacing options)) in
  exists frames,
    mapResult (fun i => createFrameElement (frameAt (f :: fs) i)
                                           (positions !! Z.to_nat i) false)
              (seqZ 0 count)
    = Ok frames
    /\ generateSpinner Math_cos Math_sin (Some (f :: fs)) options
       = ([(10%Z, "Setting up spinner layout..."%string);
           (40%Z, "Arranging frames..."%string);
           (70%Z, "Creating bearing..."%string);
           (90%Z, "Finalizing spinner design..."%string);
           (100%Z, "Spinner generated successfully!"%string)],
          Resolved (mkSpinnerSvg (default 100%Z (diameter options)) false
                      (createSpinnerOutline positions
                         (default 3%Z (outlineThickness options))
                         (default "simple"%string (outlineStyle options)))
                      frames
                      (createBearing (default 22%Z (bearingDiameter options))
                         (default "standard"%string (bearingType options))))).
Proof.
  intros count positions.
  destruct (placed_frames (f :: fs) positions
              (fun i => default (mkPosition 0 0 0 0) (positions !! Z.to_nat i))
              (seqZ 0 count)) as (frames & Hframes & _).
  { intros i Hi. apply elem_of_seqZ in Hi. split; [apply frameAt_nonempty|].
    destruct (positions !! Z.to_nat i) eqn:E; [reflexivity|].
    apply lookup_ge_None in E. unfold positions in E.
    rewrite length_calculateFramePositions in E. lia. }
  exists frames. split; [exact Hframes|].
  unfold generateSpinner, generateSpinnerSvg. fold count. fold positions.
  rewrite Hframes. reflexivity.
Qed.

(** C3, as the code has it.  The layout has no check on the placement
    radius: for a non-empty frame list and any options, whatever the sign of
    (diameter - bearingDiameter) / 2 - spacing, [generateSpinner] resolves
    with a design whose [frameCount] frames are placed, in order, at the
    positions that [calculateFramePositions] computes from that radius. *)
Theorem generateSpinner_ignores_radius_sign (f : Frame) (fs : list Frame)
    (options : SpinnerOptions) :
  let positions :=
    calculateFramePositions Math_cos Math_sin
      (default 8%Z (frameCount options)) (default 100%Z (diameter options))
      (default 22%Z (bearingDiameter options)) (default 5%Z (spacing options)) in
  exists log frames,
    generateSpinner Math_cos Math_sin (Some (f :: fs)) options
    = (log,
       Resolved (mkSpinnerSvg (default 100%Z (diameter options)) false
                   (createSpinnerOutline positions
                      (default 3%Z (outlineThickness options))
                      (default "simple"%string (outlineStyle options)))
                   frames
                   (createBearing (default 22%Z (bearingDiameter options))
                      (default "standard"%string (bearingType options)))))
    /\ map fe_position frames = positions
    /\ length frames = Z.to_nat (default 8%Z (frameCount options))
    /\ Forall (fun p =>
                 exists angle,
                   pos_x p = (Math_cos angle
                              * placementRadius (default 100%Z (diameter options))
                                  (default 22%Z (bearingDiameter options))
                                  (default 5%Z (spacing options)))%float
                   /\ pos_y p = (Math_sin angle
                                 * placementRadius (default 100%Z (diameter options))
                                     (default 22%Z (bearingDiameter options))
                                     (default 5%Z (spacing options)))%float)
              positions.
Proof.
  intros positions.
  set (count := default 8%Z (frameCount options)) in *.
  set (P := fun i : Z =>
    let radius := placementRadius (default 100%Z (diameter options))
                    (default 22%Z (bearingDiameter options))
                    (default 5%Z (spacing options)) in
    let angle := (Z2F i * (2 * Math_PI / Z2F count))%float in
    mkPosition (Math_cos angle * radius)%float (Math_sin angle * radius)%float
               (angle * (180 / Math_PI))%float
               (2 * radius * Math_sin (Math_PI / Z2F count) / 50)%float).
  assert (positions = map P (seqZ 0 count)) as Hpositions by reflexivity.
  destruct (placed_frames (f :: fs) positions P (seqZ 0 count)) as (frames & Hframes & Hpos).
  { intros i Hi. apply elem_of_seqZ in Hi. split; [apply frameAt_nonempty|].
    rewrite Hpositions, list_lookup_fmap, lookup_seqZ_lt by lia.
    simpl. f_equal. f_equal. lia. }
  eexists _, frames. split; [|split; [|split]].
  - unfold generateSpinner, generateSpinnerSvg. fold count. fold positions.
    rewrite Hframes. simpl. reflexivity.
  - now rewrite Hpos.
  - rewrite <- (length_map fe_position), Hpos, length_map, length_seqZ. reflexivity.
  - rewrite Hpositions. apply Forall_forall. intros p Hp.
    apply list_elem_of_fmap in Hp as (i & -> & _).
    eexists. split; reflexivity.
Qed.

End LayoutDimensions.

Section LayoutPlacement.
Variables Math_cos Math_sin : float -> float.
Variable Frame : Type.

Lemma cycled_frames (svgFrames : list Frame) (positions : list Position) (l : list Z) :
  forall frames,
    mapResult (fun i => createFrameElement (frameAt svgFrames i)
                                           (positions !! Z.to_nat i) false) l
    = Ok frames ->
    map (fun fe => Some (fe_frame fe)) frames = map (frameAt svgFrames) l.
Proof.
  induction l as [|i l IH]; intros frames Hframes; simpl in Hframes.
  - injection Hframes as <-. reflexivity.
  - destruct (positions !! Z.to_nat i) as [p|]; [|discriminate].
    destruct (frameAt svgFrames i) as [g|] eqn:Hg; [|discriminate].
    simpl in Hframes.
    destruct (mapResult _ l) as [rest|] eqn:Hrest; [|discriminate].
    simpl in Hframes. injection Hframes as <-. simpl.
    rewrite Hg. f_equal. now apply IH.
Qed.

(** The frames cycle: the design holds [frameCount] frames and the [i]-th is
    the source frame of index [i mod svgFrames.length]. *)
Theorem generateSpinner_frames_cycle (f : Frame) (fs : list Frame)
    (options : SpinnerOptions) :
  exists log svg,
    generateSpinner Math_cos Math_sin (Some (f :: fs)) options = (log, Resolved svg)
    /\ map (fun fe => Some (fe_frame fe)) (svg_frames svg)
       = map (fun i => (f :: fs) !! Z.to_nat (i mod Z.of_nat (length (f :: fs))))
             (seqZ 0 (default 8%Z (frameCount options))).
Proof.
  destruct (generateSpinner_resolves_nonempty Math_cos Math_sin Frame f fs options)
    as (frames & Hmap & Hgen).
  do 2 eexists. split; [exact Hgen|]. cbn [svg_frames].
  rewrite (cycled_frames _ _ _ _ Hmap). reflexivity.
Qed.

(** The worked examples of the layout: diameter 100, bearing diameter 22 and
    spacing 5 give the placement radius 34; 8 frames are placed at the
    angles 0, 45, ..., 315 degrees. *)
Theorem layout_examples :
  placementRadius 100 22 5 = 34%float
  /\ map pos_angle (calculateFramePositions Math_cos Math_sin 8 100 22 5)
     = [0; 45; 90; 135; 180; 225; 270; 315]%float.
Proof. split; vm_compute; reflexivity. Qed.

End LayoutPlacement.

(** C3 as stated fails: diameter 50, bearing diameter 30 and spacing 20 (all
    within the ranges of the form) give the placement radius -10, and
    30 >= 50 - 2 * 20; the promise resolves with a design of 8 frames. *)
Lemma nonpositive_radius_resolves :
  placementRadius 50 30 20 = (-10)%float
  /\ (placementRadius 50 30 20 <=? 0)%float = true
  /\ (50 - 2 * 20 <=? 30)%Z = true
  /\ isResolved
       (snd (generateSpinner hostCos hostSin (Some [tt])
               (mkSpinnerOptions (Some 50%Z) (Some 8%Z) (Some 20%Z) (Some 30%Z)
                                 None None None)))
     = true.
Proof. repeat split; vm_compute; reflexivity. Qed.
(** ** Invariants of the row-major loops *)

Lemma forEachPixel_invariant {S : Type} (P : S -> Prop) width height
    (body : S -> Z -> Z -> S) init :
  P init ->
  (forall st x y, (0 <= x < width)%Z -> (0 <= y < height)%Z -> P st -> P (body st x y)) ->
  P (forEachPixel width height body init).
Proof.
  intros Hinit Hbody. rewrite forEachPixel_pixels.
  assert (forall l, (forall c, c ∈ l -> c ∈ pixels width height) ->
            P (foldl (fun st c => body st (fst c) (snd c)) init l)) as H.
  { intros l. induction l as [|c l IH] using rev_ind; intros Hl; [exact Hinit|].
    rewrite foldl_snoc.
    assert (c ∈ pixels width height) as Hc.
    { apply Hl, elem_of_app. right. now apply list_elem_of_singleton. }
    destruct c as [x y]. apply elem_of_pixels in Hc as [Hx Hy].
    apply Hbody; try assumption.
    apply IH. intros c' Hc'. apply Hl, elem_of_app. now left. }
  apply H. auto.
Qed.

Lemma binaryGrid_store bitmap i v :
  binaryGrid bitmap -> v = 0%Z \/ v = 1%Z -> binaryGrid (store bitmap i v).
Proof.
  intros Hb Hv. unfold store. destruct (i <? 0)%Z; [assumption|].
  now apply Forall_insert.
Qed.

Lemma binaryGrid_new n : binaryGrid (newUint8Array n).
Proof. apply Forall_replicate. now left. Qed.

(** Both preprocessing modes return a grid of [width * height] cells, each
    of them 0 or 1. *)
Theorem preprocess_binary_grid imageData options :
  (length (preprocessBitmap imageData options)
   = Z.to_nat (img_width imageData * img_height imageData)
   /\ binaryGrid (preprocessBitmap imageData options))
  /\ (length (preprocessBitmapAdvanced imageData options)
      = Z.to_nat (img_width imageData * img_height imageData)
      /\ binaryGrid (preprocessBitmapAdvanced imageData options)).
Proof.
  set (n := Z.to_nat (img_width imageData * img_height imageData)). split.
  - unfold preprocessBitmap.
    apply (forEachPixel_invariant (fun arr => length arr = n /\ binaryGrid arr)).
    + split; [apply length_replicate | apply binaryGrid_new].
    + intros arr x y _ _ [Hlen Hbin].
      destruct (load _ _) as [[| |]|]; rewrite length_store;
        (split; [assumption|]); apply binaryGrid_store; try assumption;
        try (now left); destruct (_ <? _)%float; auto.
  - unfold preprocessBitmapAdvanced.
    apply (forEachPixel_invariant (fun arr => length arr = n /\ binaryGrid arr)).
    + split; [apply length_replicate | apply binaryGrid_new].
    + intros arr x y _ _ [Hlen Hbin]. destruct (windowSum _ _ _ _ x y) as [sum count].
      rewrite length_store. split; [assumption|].
      apply binaryGrid_store; [assumption|].
      destruct (count =? 0)%Z; [now left|]. destruct (Qltb _ _); auto.
Qed.

(** ** Images without foreground *)

Lemma findContours_no_foreground bitmap width height :
  (forall x y, (0 <= x < width)%Z -> (0 <= y < height)%Z ->
     load bitmap (y * width + x) <> Some 1%Z) ->
  findContours bitmap width height = [].
Proof.
  intros Hbg. unfold findContours, scanContours. rewrite forEachPixel_pixels.
  rewrite scan_fixed; [reflexivity|].
  intros [x y] Hc. apply elem_of_pixels in Hc as [Hx Hy].
  unfold scanPixel. cbn [fst snd].
  assert (bool_decide (load bitmap (y * width + x) = Some 1%Z) = false) as ->;
    [|reflexivity].
  apply bool_decide_eq_false_2, Hbg; assumption.
Qed.

Lemma transparentImage_alpha imageData x y :
  transparentImage imageData = true ->
  (0 <= x < img_width imageData)%Z -> (0 <= y < img_height imageData)%Z ->
  load (img_data imageData) ((y * img_width imageData + x) * 4 + 3) = Some 0%Z.
Proof.
  unfold transparentImage. rewrite forallb_forall. intros H Hx Hy.
  specialize (H (x, y)). cbn [fst snd] in H.
  eapply bool_decide_eq_true_1, H. apply list_elem_of_In, elem_of_pixels. auto.
Qed.

Lemma preprocessBitmapAdvanced_transparent imageData options x y :
  documentedRanges options = true ->
  (0 <= x < img_width imageData)%Z -> (0 <= y < img_height imageData)%Z ->
  load (img_data imageData) ((y * img_width imageData + x) * 4 + 3) = Some 0%Z ->
  load (preprocessBitmapAdvanced imageData options) (y * img_width imageData + x)
  = Some 0%Z.
Proof.
  intros Hopts Hx Hy Halpha. unfold preprocessBitmapAdvanced.
  pose proof (documented_detailLevel options Hopts) as Hd.
  set (dl := orDefault (detailLevel options) 5) in *.
  match goal with
  | |- load (forEachPixel _ _ ?body _) _ = _ =>
      rewrite (forEachPixel_store_load _ _
                 (fun x y => let '(sum, count) :=
                      windowSum (grayscaleOf imageData) (img_width imageData)
                                (img_height imageData) (11 - dl) x y in
                    if (count =? 0)%Z then 0%Z
                    else if Qltb (inject_Z (default 0%Z
                                    (load (grayscaleOf imageData)
                                          (y * img_width imageData + x))))
                                 (inject_Z sum / inject_Z count - inject_Z (10 - dl))
                         then 1%Z else 0%Z) body)
  end; try assumption.
  - pose proof (windowSum_inv imageData (11 - dl) x y) as Hinv.
    destruct (windowSum _ _ _ _ x y) as [sum count].
    unfold windowInv in Hinv. simpl in Hinv.
    destruct (Z.eqb_spec count 0); [reflexivity|].
    rewrite grayscaleOf_load by assumption. unfold grayValue.
    rewrite Halpha. simpl default.
    rewrite adaptive_not_above_white by lia. reflexivity.
  - intros arr x' y'. destruct (windowSum _ _ _ _ x' y'). reflexivity.
Qed.

Section EmptyDocuments.
Variable numToString : float -> string.

(** A fully transparent frame converts, in simple mode, to a document
    without any path. *)
Theorem convertFrameSimple_transparent imageData options :
  transparentImage imageData = true ->
  doc_paths (convertFrameSimple numToString imageData options) = [].
Proof.
  intros Htr. unfold convertFrameSimple. cbn [doc_paths newSvgDocument].
  rewrite findContours_no_foreground; [reflexivity|].
  intros x y Hx Hy. rewrite preprocessBitmap_load by assumption.
  unfold simpleValue. rewrite transparentImage_alpha by assumption. discriminate.
Qed.

(** So it does in advanced mode, for options within the documented ranges
    and any depth of the stack. *)
Theorem convertFrameAdvanced_transparent fuel imageData options :
  documentedRanges options = true ->
  transparentImage imageData = true ->
  convertFrameAdvanced numToString fuel imageData options
  = Ok (newSvgDocument numToString imageData []).
Proof.
  intros Hopts Htr. unfold convertFrameAdvanced, simulatePotraceResults.
  rewrite findContours_no_foreground; [reflexivity|].
  intros x y Hx Hy.
  rewrite preprocessBitmapAdvanced_transparent;
    [discriminate | assumption.. | now apply transparentImage_alpha].
Qed.

End EmptyDocuments.

Lemma convertFrameSimple_transparent_witness :
  doc_paths (convertFrameSimple hostNumToString
               (mkImageData 2 1 [9; 9; 9; 0; 10; 20; 30; 0]%Z)
               (mkConvertOptions None None None None)) = [].
Proof. apply (convertFrameSimple_transparent hostNumToString). reflexivity. Defined.

Lemma convertFrameAdvanced_transparent_witness :
  convertFrameAdvanced hostNumToString 0
    (mkImageData 2 1 [9; 9; 9; 0; 10; 20; 30; 0]%Z)
    (mkConvertOptions None (Some 7%Z) None None)
  = Ok (newSvgDocument hostNumToString (mkImageData 2 1 [9; 9; 9; 0; 10; 20; 30; 0]%Z) []).
Proof. apply (convertFrameAdvanced_transparent hostNumToString); reflexivity. Defined.


(** ** Contour tracing: what a contour is made of *)

Lemma walk_snoc contour p q :
  walk (contour ++ [p]) = true -> adjacent p q = true ->
  walk ((contour ++ [p]) ++ [q]) = true.
Proof.
  induction contour as [|a contour IH]; simpl; intros Hw Hadj.
  - now rewrite Hadj.
  - destruct contour as [|b contour]; simpl in *.
    + apply andb_prop in Hw as [-> _]. now rewrite Hadj.
    + apply andb_prop in Hw as [-> Hw]. simpl. now apply IH.
Qed.

Lemma walk_init contour p : walk (contour ++ [p]) = true -> walk contour = true.
Proof.
  induction contour as [|a contour IH]; simpl; [reflexivity|].
  destruct contour as [|b contour]; simpl in *; [reflexivity|].
  intros Hw. apply andb_prop in Hw as [-> Hw]. now apply IH.
Qed.

Lemma direction_step dir :
  dir < 4 -> (Z.abs (dx !!! dir) + Z.abs (dy !!! dir) = 1)%Z.
Proof.
  intros Hdir.
  destruct dir as [|[|[|[|dir]]]]; [reflexivity..|lia].
Qed.

Lemma tryDirections_spec bitmap width height cx cy tries :
  forall dir, dir < 4 ->
  let s := tryDirections bitmap width height cx cy dir tries in
  s_dir s < 4
  /\ (if found s
      then isForeground bitmap width height (s_cx s) (s_cy s) = true
           /\ adjacent (cx, cy) (s_cx s, s_cy s) = true
      else s_cx s = cx /\ s_cy s = cy).
Proof.
  induction tries as [|tries IH]; intros dir Hdir; cbn [tryDirections]; cbv zeta.
  - simpl. auto.
  - destruct (isForeground _ _ _ _ _) eqn:Hfg.
    + cbn [s_dir found s_cx s_cy]. split; [assumption|]. split; [assumption|].
      unfold adjacent. cbn [fst snd]. pose proof (direction_step dir Hdir).
      apply Z.eqb_eq. lia.
    + apply IH. apply Nat.mod_upper_bound. lia.
Qed.

Lemma traceLoop_walk bitmap width height steps :
  forall t, traceInv bitmap width height t ->
  let r := traceLoop bitmap width height steps t in
  Forall (fun p => isForeground bitmap width height (fst p) (snd p) = true)
         (t_contour r)
  /\ walk (t_contour r) = true
  /\ length (t_contour r) <= length (t_contour t) + steps.
Proof.
  induction steps as [|steps IH]; intros t (Hdir & Hcur & Hall & Hwalk);
    cbn [traceLoop]; cbv zeta.
  - split; [assumption|]. split; [now apply walk_init in Hwalk | lia].
  - pose proof (tryDirections_spec bitmap width height (t_cx t) (t_cy t) 4
                  (t_dir t) Hdir) as Hspec.
    cbv zeta in Hspec.
    set (s := tryDirections bitmap width height (t_cx t) (t_cy t) (t_dir t) 4) in *.
    destruct Hspec as [Hsdir Hs].
    assert (Forall (fun p => isForeground bitmap width height (fst p) (snd p) = true)
                   (t_contour t ++ [(t_cx t, t_cy t)])) as Hall'.
    { apply Forall_app. split; [assumption|]. constructor; [assumption|constructor]. }
    destruct (negb (found s) || _) eqn:Hbreak.
    + cbn [t_contour]. split; [assumption|]. split; [assumption|].
      rewrite length_app. simpl. lia.
    + apply orb_false_elim in Hbreak as [Hfound _].
      apply negb_false_iff in Hfound. rewrite Hfound in Hs. destruct Hs as [Hfg Hadj].
      match goal with |- context [traceLoop _ _ _ _ ?t'] => specialize (IH t') end.
      cbv zeta in IH. cbn [t_contour] in IH. rewrite length_app in IH.
      cbn [length] in IH.
      destruct IH as (H1 & H2 & H3).
      { split; [apply Nat.mod_upper_bound; lia|].
        split; [assumption|]. split; [assumption|]. now apply walk_snoc. }
      split; [assumption|]. split; [assumption|]. lia.
Qed.

Lemma scanContours_traced bitmap width height :
  Forall (tracedContour bitmap width height) (findContours bitmap width height).
Proof.
  unfold findContours, scanContours.
  apply (forEachPixel_invariant
           (fun st => Forall (tracedContour bitmap width height) (fst st)));
    [constructor|].
  intros st x y Hx Hy Hst. unfold scanPixel.
  destruct (bool_decide _ && bool_decide _) eqn:Hseed; [|assumption].
  apply andb_prop in Hseed as [Hone _]. apply bool_decide_eq_true_1 in Hone.
  cbn [fst]. destruct (2 <? _); [|assumption].
  apply Forall_app. split; [assumption|]. constructor; [|constructor].
  unfold traceContour.
  pose proof (traceLoop_walk bitmap width height (Z.to_nat (width * height))
                (mkTrace x y 0 0 [] (snd st))) as H.
  cbv zeta in H. cbn [t_contour length Nat.add] in H. apply H.
  unfold traceInv, isForeground. cbn [t_dir t_cx t_cy t_contour app walk].
  split; [lia|]. split; [|split; [constructor|reflexivity]].
  rewrite bool_decide_eq_true_2 by assumption.
  repeat (apply andb_true_intro; split); try apply Z.leb_le; try apply Z.ltb_lt;
    try reflexivity; lia.
Qed.

(** Every point of every contour is a foreground pixel inside the grid. *)
Theorem findContours_foreground bitmap width height :
  Forall (Forall (fun p => isForeground bitmap width height (fst p) (snd p) = true))
         (findContours bitmap width height).
Proof.
  eapply Forall_impl; [apply scanContours_traced|]. now intros c (H & _).
Qed.

(** Consecutive points of a contour are one step apart, horizontally or
    vertically. *)
Theorem findContours_connected bitmap width height :
  Forall (fun c => walk c = true) (findContours bitmap width height).
Proof.
  eapply Forall_impl; [apply scanContours_traced|]. now intros c (_ & H & _).
Qed.

(** No contour has more than [width * height] points. *)
Theorem findContours_length_bound bitmap width height :
  Forall (fun c : list Pixel => length c <= Z.to_nat (width * height))
         (findContours bitmap width height).
Proof.
  eapply Forall_impl; [apply scanContours_traced|]. now intros c (_ & _ & H).
Qed.

Lemma scanContours_min_points bitmap width height :
  Forall (fun c : list Pixel => 3 <= length c) (findContours bitmap width height).
Proof.
  unfold findContours, scanContours.
  apply (forEachPixel_invariant
           (fun st => Forall (fun c : list Pixel => 3 <= length c) (fst st)));
    [constructor|].
  intros st x y _ _ Hst. now apply scanPixel_min_points.
Qed.
(** ** Distances

    The sign of a rounded result is the sign it was given. *)
Lemma binary_round_aux_sign prec emax sx mx ex lx :
  match SpecFloat.binary_round_aux prec emax sx mx ex lx with
  | S754_zero s | S754_infinity s | S754_finite s _ _ => s = sx
  | S754_nan => True
  end.
Proof.
  unfold SpecFloat.binary_round_aux.
  destruct (shr_fexp prec emax mx ex lx) as [mrs' e'].
  destruct (shr_fexp prec emax _ e' loc_Exact) as [mrs'' e''].
  destruct (shr_m mrs''); auto. destruct (_ <=? _)%Z; auto.
Qed.

Lemma sqrt_not_negative (x : float) : (PrimFloat.sqrt x <? 0)%float = false.
Proof.
  rewrite ltb_spec, sqrt_spec. unfold SF64sqrt, SFsqrt.
  change (Prim2SF 0) with (S754_zero false).
  destruct (Prim2SF x) as [s|s| |s m e]; try reflexivity.
  - destruct s; reflexivity.
  - destruct s; [reflexivity|].
    destruct (SFsqrt_core_binary prec emax (Z.pos m) e) as [[mz ez] lz].
    pose proof (binary_round_aux_sign prec emax false mz ez lz) as H.
    destruct (SpecFloat.binary_round_aux _ _ _ _ _ _) as [s|s| |s m' e'];
      try subst s; reflexivity.
Qed.

(** The distance [pointLineDistance] returns is never negative (it is NaN
    when a coordinate is). *)
Theorem pointLineDistance_not_negative point lineStart lineEnd :
  (pointLineDistance point lineStart lineEnd <? 0)%float = false.
Proof.
  unfold pointLineDistance.
  repeat match goal with |- context [if ?c then _ else _] => destruct c end;
    apply sqrt_not_negative.
Qed.

(** ** Path simplification: only points of the contour, in their order *)

Lemma sublist_snoc_inv {A} (l1 l2 : list A) x y :
  l1 ++ [y] `sublist_of` l2 ++ [x] -> l1 `sublist_of` l2.
Proof.
  intros H. apply sublist_app_l in H as (k1 & k2 & Hk & H1 & H2).
  destruct k2 as [|z k2 _] using rev_ind.
  { apply sublist_nil_r in H2. discriminate. }
  rewrite app_assoc in Hk. apply app_inj_tail in Hk as [-> _].
  now apply sublist_inserts_r.
Qed.

Lemma sublist_ends {A} (contour : list A) start end_ :
  3 <= length contour -> contour !! 0 = Some start -> last contour = Some end_ ->
  [start; end_] `sublist_of` contour.
Proof.
  intros Hlen E0 E1. destruct contour as [|a contour]; [discriminate|].
  injection E0 as ->.
  destruct contour as [|b contour _] using rev_ind; [simpl in Hlen; lia|].
  rewrite app_comm_cons, last_snoc in E1. injection E1 as ->.
  apply sublist_skip. apply sublist_inserts_l. reflexivity.
Qed.

Lemma simplifyContour_only_drops tolerance :
  forall fuel contour r,
    simplifyContour fuel contour tolerance = Some r -> r `sublist_of` contour.
Proof.
  induction fuel as [|fuel IH]; intros contour r Hr.
  - simpl in Hr. destruct (length contour <=? 2); [|discriminate].
    injection Hr as <-. reflexivity.
  - destruct (le_lt_dec (length contour) 2) as [Hs|Hl].
    { rewrite simplifyContour_short in Hr by assumption. injection Hr as <-.
      reflexivity. }
    destruct (simplifyContour_long fuel contour tolerance Hl)
      as (start & end_ & E0 & E1 & E).
    rewrite E in Hr. clear E.
    pose proof (farthest_inv contour start end_) as Hinv.
    destruct (farthest contour start end_) as [maxDist index].
    destruct (tolerance <? maxDist)%float.
    + destruct (simplifyContour fuel (take (index + 1) contour) tolerance)
        as [part1|] eqn:E1'; [|discriminate].
      destruct (simplifyContour fuel (drop index contour) tolerance)
        as [part2|] eqn:E2'; [|discriminate].
      injection Hr as <-.
      apply IH in E1', E2'.
      rewrite <- (take_drop index contour) at 1.
      apply sublist_app; [|assumption].
      assert (index < length contour) as Hidx.
      { destruct Hinv as [Hinit | [Hi1 Hi2]]; [injection Hinit as _ ->; lia|].
        simpl in Hi2. lia. }
      destruct (lookup_lt_is_Some_2 contour index Hidx) as [p Hp].
      rewrite Nat.add_1_r, (take_S_r _ _ _ Hp) in E1'.
      destruct part1 as [|q part1 _] using rev_ind; [apply sublist_nil_l|].
      rewrite length_app. simpl. rewrite Nat.add_sub, take_app_length.
      now apply sublist_snoc_inv in E1'.
    + injection Hr as <-. now apply sublist_ends.
Qed.

(** For a tolerance >= 0, the simplified contour is made of points of the
    contour, in the order they have there. *)
Theorem simplifyContour_sublist contour tolerance fuel :
  (0 <=? tolerance)%float = true ->
  length contour <= fuel ->
  exists r, simplifyContour fuel contour tolerance = Some r /\
            r `sublist_of` contour.
Proof.
  intros Htol Hfuel.
  destruct (simplifyContour_shape tolerance Htol fuel contour) as (r & Hr & _);
    [lia|].
  exists r. split; [assumption|]. now apply (simplifyContour_only_drops tolerance fuel).
Qed.

Lemma simplifyContour_sublist_witness :
  exists r,
    simplifyContour 4
      [pixelPoint (0, 0)%Z; pixelPoint (1, 0)%Z; pixelPoint (2, 0)%Z;
       pixelPoint (2, 1)%Z] 0.5 = Some r /\
    r `sublist_of` [pixelPoint (0, 0)%Z; pixelPoint (1, 0)%Z; pixelPoint (2, 0)%Z;
                    pixelPoint (2, 1)%Z].
Proof.
  apply simplifyContour_sublist; [reflexivity | simpl; lia].
Defined.

(** ** Path simplification: a negative tolerance *)

Lemma farthest_flat contour start end_ :
  (forall p, p ∈ contour -> (0 <? pointLineDistance p start end_)%float = false) ->
  farthest contour start end_ = (0%float, 0).
Proof.
  intros Hflat. unfold farthest.
  apply (foldl_invariant (fun st => st = (0%float, 0))); [reflexivity|].
  intros st i ->. unfold farthestStep.
  destruct (contour !! i) as [p|] eqn:Hp; [|reflexivity].
  cbn [fst]. rewrite Hflat; [reflexivity|]. now apply list_elem_of_lookup_2 in Hp.
Qed.

(** With a negative tolerance, a contour of three or more points none of
    which is off the segment between its ends is never simplified: the
    split index stays 0, the second recursive call receives the whole
    contour again, and the recursion runs out of stack at every depth. *)
Theorem simplifyContour_negative_tolerance contour tolerance fuel :
  (tolerance <? 0)%float = true ->
  3 <= length contour ->
  flatContour contour = true ->
  simplifyContour fuel contour tolerance = None.
Proof.
  intros Htol Hlen Hflat. induction fuel as [|fuel IH].
  - simpl. destruct (Nat.leb_spec (length contour) 2); [lia|reflexivity].
  - destruct (simplifyContour_long fuel contour tolerance Hlen)
      as (start & end_ & E0 & E1 & ->).
    unfold flatContour in Hflat. rewrite E0, E1 in Hflat.
    rewrite farthest_flat.
    + rewrite Htol. rewrite (simplifyContour_short fuel (take (0 + 1) contour))
        by (rewrite length_take; lia).
      rewrite drop_0, IH. reflexivity.
    + intros p Hp. rewrite forallb_forall in Hflat.
      apply negb_true_iff, Hflat, list_elem_of_In, Hp.
Qed.

Lemma simplifyContour_negative_tolerance_witness :
  simplifyContour 1000
    [pixelPoint (0, 0)%Z; pixelPoint (1, 0)%Z; pixelPoint (2, 0)%Z] (-1) = None.
Proof.
  apply simplifyContour_negative_tolerance; [reflexivity | simpl; lia | reflexivity].
Defined.

(** ** The shape of the paths *)

Lemma string_app_assoc (a b c : string) : ((a ++ b) ++ c = a ++ (b ++ c))%string.
Proof. induction a as [|ch a IH]; simpl; [reflexivity|]. now rewrite IH. Qed.

Section PathShapes.
Variable numToString : float -> string.

Lemma renderPath_fold (acc : string) (cs1 cs2 : list PathCommand) :
  foldl (fun s c => (s ++ renderCommand numToString c)%string) acc (cs1 ++ cs2)
  = foldl (fun s c => (s ++ renderCommand numToString c)%string)
          (foldl (fun s c => (s ++ renderCommand numToString c)%string) acc cs1) cs2.
Proof. apply foldl_app. Qed.

Lemma cornerStep_commands contour radius acc i :
  exists cs,
    cornerStep numToString contour radius acc i
    = foldl (fun s c => (s ++ renderCommand numToString c)%string) acc cs
    /\ Forall (fun c => lineOrQuad c = true) cs /\ length cs <= 2.
Proof.
  unfold cornerStep.
  destruct (contour !! _) as [p0|]; [|exists []; simpl; auto].
  destruct (contour !! i) as [p1|]; [|exists []; simpl; auto].
  destruct (contour !! _) as [p2|]; [|exists []; simpl; auto].
  destruct (_ || _).
  - exists [LineTo p1]. simpl. auto.
  - eexists [LineTo (mkPoint _ _); QuadTo p1 (mkPoint _ _)]. simpl.
    split; [|auto]. now rewrite !string_app_assoc.
Qed.

Lemma cornerSteps_commands contour radius l :
  forall acc, exists cs,
    foldl (cornerStep numToString contour radius) acc l
    = foldl (fun s c => (s ++ renderCommand numToString c)%string) acc cs
    /\ Forall (fun c => lineOrQuad c = true) cs /\ length cs <= 2 * length l.
Proof.
  induction l as [|i l IH]; intros acc; [exists []; simpl; auto|].
  simpl foldl.
  destruct (cornerStep_commands contour radius acc i) as (cs1 & -> & F1 & L1).
  destruct (IH (foldl (fun s c => (s ++ renderCommand numToString c)%string) acc cs1))
    as (cs2 & -> & F2 & L2).
  exists (cs1 ++ cs2). rewrite renderPath_fold. split; [reflexivity|].
  split; [now apply Forall_app|]. rewrite length_app. simpl. lia.
Qed.

(** Whatever the smoothing strength, the path of a non-empty contour is the
    text of: a move-to the first point, then only line-to and quadratic
    commands (at most two for each following point), and a close. *)
Theorem contourToSvgPath_closed (first : Point) (rest : list Point) (smoothing : float) :
  exists cs,
    contourToSvgPath numToString (first :: rest) smoothing
    = renderPath numToString (MoveTo first :: cs ++ [ClosePath])
    /\ Forall (fun c => lineOrQuad c = true) cs
    /\ length cs <= 2 * length rest.
Proof.
  unfold contourToSvgPath, renderPath. cbn [lookup list_lookup].
  destruct (smoothing =? 0)%float.
  - exists (map LineTo rest). simpl. rewrite foldl_app. simpl.
    rewrite Nat.sub_0_r, (lineStep_fold numToString [first] rest).
    split; [reflexivity|]. split; [|rewrite length_map; lia].
    apply Forall_forall. intros c Hc. apply list_elem_of_fmap in Hc as (p & -> & _).
    reflexivity.
  - destruct (cornerSteps_commands (first :: rest) (smoothing * 0.5)%float
                (seq 1 (length (first :: rest) - 1))
                ("M" ++ coords numToString (px first) (py first))%string)
      as (cs & E & F & L).
    exists cs. cbv zeta. rewrite E. simpl. rewrite foldl_app. simpl.
    split; [reflexivity|]. split; [assumption|].
    rewrite length_seq in L. simpl in L. lia.
Qed.

(** *** Cubic smoothing *)

Lemma smoothSteps_segments points smoothing :
  forall k acc, k + 3 <= length points ->
  exists segments,
    foldl (smoothStep numToString points smoothing) acc (seq 1 k)
    = foldl (fun s c => (s ++ renderCommand numToString c)%string) acc segments
    /\ Forall (fun c => isCubic c = true) segments
    /\ map endPoint segments = map Some (take k (drop 2 points)).
Proof.
  induction k as [|k IH]; intros acc Hk.
  - exists []. simpl. auto.
  - rewrite seq_S, foldl_app. simpl.
    destruct (IH acc) as (segments & -> & F & E); [lia|].
    unfold smoothStep.
    destruct (lookup_lt_is_Some_2 points (S k - 1)) as [p0 ->]; [lia|].
    destruct (lookup_lt_is_Some_2 points (S k)) as [p1 ->]; [lia|].
    destruct (lookup_lt_is_Some_2 points (S k + 1)) as [p2 H2]; [lia|].
    destruct (lookup_lt_is_Some_2 points (S k + 2)) as [p3 ->]; [lia|].
    rewrite H2.
    exists (segments ++ [smoothSegment smoothing p0 p1 p2 p3]).
    rewrite foldl_app. split; [reflexivity|].
    split; [apply Forall_app; split; [assumption|repeat constructor]|].
    rewrite map_app, E. simpl.
    assert (drop 2 points !! k = Some p2) as Hd.
    { rewrite lookup_drop. replace (2 + k) with (S k + 1) by lia. exact H2. }
    rewrite (take_S_r _ _ _ Hd), map_app. reflexivity.
Qed.

Lemma closeLoop_shape contour :
  3 <= length contour ->
  (closeLoop contour = contour
   \/ closeLoop contour = contour ++ take 3 contour)
  /\ length contour <= length (closeLoop contour).
Proof.
  intros Hlen. unfold closeLoop.
  destruct (contour !! 0); [|split; [now left|lia]].
  destruct (last contour); [|split; [now left|lia]].
  destruct (_ || _); split; try (now left); try lia.
  - now right.
  - rewrite length_app. lia.
Qed.

(** The smooth path of a contour of three or more points is the text of a
    move-to the first point followed by cubic segments only: it is never
    closed by a close command.  The segments end, in order, at the points
    of the extended list from its third point on, leaving out its last
    point; for a contour whose last point differs from its first, these are
    the contour's points from the third on, then the first, then the
    second. *)
Theorem generateSmoothPath_segments (contour : list Point) (smoothing : float) :
  3 <= length contour ->
  exists first segments,
    contour !! 0 = Some first
    /\ generateSmoothPath numToString contour smoothing
       = Ok (renderPath numToString (MoveTo first :: segments))
    /\ Forall (fun c => isCubic c = true) segments
    /\ map endPoint segments
       = map Some (take (length (closeLoop contour) - 3) (drop 2 (closeLoop contour)))
    /\ (closeLoop contour <> contour ->
        map endPoint segments = map Some (drop 2 contour ++ take 2 contour)).
Proof.
  intros Hlen. unfold generateSmoothPath.
  destruct (Nat.leb_spec (length contour) 2) as [Hle|_]; [lia|].
  destruct (closeLoop_shape contour Hlen) as [Hshape Hlong].
  destruct (lookup_lt_is_Some_2 contour 0) as [first Hfirst]; [lia|].
  assert (closeLoop contour !! 0 = Some first) as Hfirst'.
  { destruct Hshape as [-> | ->]; [assumption|].
    rewrite lookup_app_l by lia. assumption. }
  cbv zeta. rewrite Hfirst'.
  destruct (smoothSteps_segments (closeLoop contour) smoothing
              (length (closeLoop contour) - 3)
              ("M" ++ coords numToString (px first) (py first))%string)
    as (segments & E & F & Hend); [lia|].
  exists first, segments. split; [assumption|]. rewrite E.
  split; [reflexivity|]. split; [assumption|]. split; [assumption|].
  intros Hopen. destruct Hshape as [Hc | Hc]; [contradiction|].
  rewrite Hend, Hc. f_equal.
  rewrite length_app, length_take, drop_app_le by lia.
  replace (length contour + 3 `min` length contour - 3) with
    (length (drop 2 contour) + 2) by (rewrite length_drop; lia).
  rewrite take_app_add', take_take by reflexivity. reflexivity.
Qed.

End PathShapes.

Lemma generateSmoothPath_segments_witness :
  exists first segments,
    [pixelPoint (0, 0)%Z; pixelPoint (1, 0)%Z; pixelPoint (1, 1)%Z] !! 0 = Some first
    /\ generateSmoothPath hostNumToString
         [pixelPoint (0, 0)%Z; pixelPoint (1, 0)%Z; pixelPoint (1, 1)%Z] 2
       = Ok (renderPath hostNumToString (MoveTo first :: segments))
    /\ Forall (fun c => isCubic c = true) segments
    /\ map endPoint segments
       = map Some (take (length (closeLoop [pixelPoint (0, 0)%Z; pixelPoint (1, 0)%Z;
                                            pixelPoint (1, 1)%Z]) - 3)
                        (drop 2 (closeLoop [pixelPoint (0, 0)%Z; pixelPoint (1, 0)%Z;
                                            pixelPoint (1, 1)%Z])))
    /\ (closeLoop [pixelPoint (0, 0)%Z; pixelPoint (1, 0)%Z; pixelPoint (1, 1)%Z]
        <> [pixelPoint (0, 0)%Z; pixelPoint (1, 0)%Z; pixelPoint (1, 1)%Z] ->
        map endPoint segments
        = map Some (drop 2 [pixelPoint (0, 0)%Z; pixelPoint (1, 0)%Z; pixelPoint (1, 1)%Z]
                    ++ take 2 [pixelPoint (0, 0)%Z; pixelPoint (1, 0)%Z;
                               pixelPoint (1, 1)%Z])).
Proof.
  apply (generateSmoothPath_segments hostNumToString). simpl. lia.
Defined.

(** ** The traced paths of the advanced mode *)

Lemma mapResult_all_ok {A B} (g : A -> Result B) (l : list A) :
  (forall a, a ∈ l -> exists b, g a = Ok b) ->
  exists bs, mapResult g l = Ok bs /\ length bs = length l.
Proof.
  induction l as [|a l IH]; intros Hg; [exists []; split; reflexivity|].
  destruct (Hg a) as [b Hb]; [apply list_elem_of_here|].
  destruct IH as (bs & Hbs & Hlen).
  { intros a' Ha'. apply Hg. now apply list_elem_of_further. }
  exists (b :: bs). simpl. rewrite Hb. simpl. rewrite Hbs. simpl.
  split; [reflexivity|]. now rewrite Hlen.
Qed.

Lemma mapResult_length {A B} (g : A -> Result B) (l : list A) :
  forall bs, mapResult g l = Ok bs -> length bs = length l.
Proof.
  induction l as [|a l IH]; intros bs Hbs; simpl in Hbs.
  - now injection Hbs as <-.
  - destruct (g a); [|discriminate]. simpl in Hbs.
    destruct (mapResult g l); [|discriminate]. simpl in Hbs.
    injection Hbs as <-. simpl. f_equal. now apply IH.
Qed.

Lemma documented_pathOptimization options :
  documentedRanges options = true ->
  (0 <? orDefault (pathOptimization options) 5)%Z = true
  /\ (0 <=? Z2F (orDefault (pathOptimization options) 5) * 0.5)%float = true.
Proof.
  unfold documentedRanges. intros H. apply andb_prop in H as [_ H].
  destruct (pathOptimization options) as [p|]; simpl in *; [|split; reflexivity].
  apply andb_prop in H as [H1 H2]. apply Z.leb_le in H1, H2.
  assert (p = 0 \/ p = 1 \/ p = 2 \/ p = 3 \/ p = 4 \/ p = 5 \/ p = 6 \/ p = 7
          \/ p = 8 \/ p = 9 \/ p = 10)%Z as Hp by lia.
  repeat (destruct Hp as [-> | Hp]; [split; reflexivity|]).
  subst p. split; reflexivity.
Qed.

Section TracedPaths.
Variable numToString : float -> string.

Lemma generateSmoothPath_ok contour smoothing :
  contour <> [] -> exists d, generateSmoothPath numToString contour smoothing = Ok d.
Proof.
  intros Hne. unfold generateSmoothPath.
  destruct contour as [|first contour]; [contradiction|].
  destruct (last (first :: contour)) as [last_|] eqn:Hlast.
  2:{ apply last_None in Hlast. discriminate. }
  destruct (length (first :: contour) <=? 2); [simpl; eauto|].
  cbv zeta. unfold closeLoop. cbn [lookup list_lookup]. rewrite Hlast.
  destruct (_ || _); simpl; eauto.
Qed.

Lemma simulatePotraceResults_paths fuel bitmap width height options :
  documentedRanges options = true ->
  Z.to_nat (width * height) <= fuel ->
  exists paths,
    simulatePotraceResults numToString fuel bitmap width height options = Ok paths
    /\ length paths = length (findContours bitmap width height).
Proof.
  intros Hopts Hfuel. unfold simulatePotraceResults.
  destruct (documented_pathOptimization options Hopts) as [Hpos Htol].
  apply mapResult_all_ok. intros contour Hc.
  pose proof (scanContours_traced bitmap width height) as Htraced.
  rewrite Forall_forall in Htraced. destruct (Htraced contour Hc) as (_ & _ & Hlen).
  unfold optimizeContour. rewrite Hpos.
  destruct (simplifyContour_shape _ Htol fuel (map pixelPoint contour))
    as (r & -> & _ & _ & Hr).
  { rewrite length_map. lia. }
  simpl. apply generateSmoothPath_ok.
  pose proof (scanContours_min_points bitmap width height) as Hmin.
  rewrite Forall_forall in Hmin. specialize (Hmin contour Hc).
  rewrite length_map in Hr. intros ->. simpl in Hr. lia.
Qed.

(** For options within the documented ranges and a stack of [width *
    height] frames or more, [simulatePotraceResults] throws nothing and
    returns one path for each contour of the grid. *)
Theorem simulatePotraceResults_one_path_each fuel bitmap width height options :
  documentedRanges options = true ->
  Z.to_nat (width * height) <= fuel ->
  exists paths,
    simulatePotraceResults numToString fuel bitmap width height options = Ok paths
    /\ length paths = length (findContours bitmap width height).
Proof. apply simulatePotraceResults_paths. Qed.

(** What the advanced mode reads of the options.  [threshold] is not read
    at all.  The minimum of a slider cannot switch a stage off:
    [cornerSmoothing] 0 is read as 2 and [pathOptimization] 0 as 5, as if
    they were missing, so the test [pathOptimization > 0] never sees 0. *)
Theorem convertFrameAdvanced_reads_options fuel imageData t t' d :
  convertFrameAdvanced numToString fuel imageData
    (mkConvertOptions t d (Some 0%Z) (Some 0%Z))
  = convertFrameAdvanced numToString fuel imageData
      (mkConvertOptions t' d (Some 2%Z) (Some 5%Z))
  /\ convertFrameAdvanced numToString fuel imageData (mkConvertOptions t d None None)
     = convertFrameAdvanced numToString fuel imageData
         (mkConvertOptions t' d (Some 2%Z) (Some 5%Z)).
Proof. split; reflexivity. Qed.

End TracedPaths.

Lemma simulatePotraceResults_one_path_each_witness :
  exists paths,
    simulatePotraceResults hostNumToString 4 [1; 1; 1; 1]%Z 2 2
      (mkConvertOptions None None (Some 3%Z) (Some 1%Z)) = Ok paths
    /\ length paths = length (findContours [1; 1; 1; 1]%Z 2 2).
Proof.
  apply (simulatePotraceResults_one_path_each hostNumToString);
    [reflexivity | simpl; lia].
Defined.

(** ** Converting the frames of an animation *)

Section ConvertFrames.
Variable numToString : float -> string.

Lemma convertLoop_simple fuel options total frames :
  forall i,
    exists calls,
      convertLoop numToString fuel "simple" options total i frames
      = (calls ++ [(100%Z, "All frames converted successfully!"%string)],
         Ok (map (fun frame => convertFrameSimple numToString (gf_imageData frame) options)
                 frames))
      /\ length calls = length frames.
Proof.
  induction frames as [|frame frames IH]; intros i.
  - exists []. split; reflexivity.
  - cbn [convertLoop]. cbv zeta. change (String.eqb "simple" "simple") with true.
    cbv iota. destruct (IH (i + 1)%Z) as (calls & -> & Hlen).
    eexists (_ :: calls). simpl. rewrite Hlen. split; reflexivity.
Qed.

(** In simple mode (also when no method or an empty one is given)
    [convertFrames] resolves, for every list of frames, with the documents
    of the frames in order; it reports progress once before each frame and
    a last time, with 100, at the end. *)
Theorem convertFrames_simple fuel frames method options :
  methodOrSimple method = "simple"%string ->
  exists calls,
    convertFrames numToString fuel frames method options
    = (calls ++ [(100%Z, "All frames converted successfully!"%string)],
       Ok (map (fun frame => convertFrameSimple numToString (gf_imageData frame) options)
               frames))
    /\ length calls = length frames.
Proof.
  intros Hm. unfold convertFrames. rewrite Hm. apply convertLoop_simple.
Qed.

Lemma convertFrameAdvanced_ok fuel imageData options :
  documentedRanges options = true ->
  Z.to_nat (img_width imageData * img_height imageData) <= fuel ->
  exists doc,
    convertFrameAdvanced numToString fuel imageData options = Ok doc
    /\ doc_width doc = img_width imageData /\ doc_height doc = img_height imageData.
Proof.
  intros Hopts Hfuel. unfold convertFrameAdvanced.
  destruct (simulatePotraceResults_paths numToString fuel
              (preprocessBitmapAdvanced imageData options)
              (img_width imageData) (img_height imageData) options Hopts Hfuel)
    as (paths & -> & _).
  simpl. eauto.
Qed.

Lemma convertLoop_resolves fuel method options total frames :
  documentedRanges options = true ->
  Forall (fun frame =>
            Z.to_nat (img_width (gf_imageData frame) * img_height (gf_imageData frame))
            <= fuel) frames ->
  forall i,
    exists calls docs,
      convertLoop numToString fuel method options total i frames
      = (calls ++ [(100%Z, "All frames converted successfully!"%string)], Ok docs)
      /\ length calls = length frames
      /\ Forall2 sameSize frames docs.
Proof.
  intros Hopts Hfuel. induction Hfuel as [|frame frames Hframe _ IH]; intros i.
  - exists [], []. repeat split. constructor.
  - cbn [convertLoop]. cbv zeta.
    assert (exists doc,
              (if String.eqb method "simple"
               then Ok (convertFrameSimple numToString (gf_imageData frame) options)
               else convertFrameAdvanced numToString fuel (gf_imageData frame) options)
              = Ok doc /\ sameSize frame doc) as (doc & -> & Hdoc).
    { destruct (String.eqb method "simple").
      - eexists. split; [reflexivity|]. split; reflexivity.
      - destruct (convertFrameAdvanced_ok fuel (gf_imageData frame) options Hopts Hframe)
          as (doc & -> & Hw & Hh).
        exists doc. split; [reflexivity|]. split; assumption. }
    destruct (IH (i + 1)%Z) as (calls & docs & -> & Hlen & Hsize).
    eexists (_ :: calls), (doc :: docs). simpl. rewrite Hlen.
    split; [reflexivity|]. split; [reflexivity|]. now constructor.
Qed.

(** Whatever the method, for options within the documented ranges and a
    stack deep enough for the largest frame, [convertFrames] resolves with
    one document for each frame, of the frame's width and height; it
    reports progress once before each frame and a last time, with 100, at
    the end. *)
Theorem convertFrames_resolves fuel frames method options :
  documentedRanges options = true ->
  Forall (fun frame =>
            Z.to_nat (img_width (gf_imageData frame) * img_height (gf_imageData frame))
            <= fuel) frames ->
  exists calls docs,
    convertFrames numToString fuel frames method options
    = (calls ++ [(100%Z, "All frames converted successfully!"%string)], Ok docs)
    /\ length calls = length frames
    /\ Forall2 sameSize frames docs.
Proof.
  intros Hopts Hfuel. now apply convertLoop_resolves.
Qed.

End ConvertFrames.

Lemma convertFrames_simple_witness :
  exists calls,
    convertFrames hostNumToString 0
      [mkGifFrame (mkImageData 2 1 [0; 0; 0; 255; 10; 20; 30; 0]%Z) 100] None
      (mkConvertOptions None None None None)
    = (calls ++ [(100%Z, "All frames converted successfully!"%string)],
       Ok (map (fun frame =>
                  convertFrameSimple hostNumToString (gf_imageData frame)
                    (mkConvertOptions None None None None))
               [mkGifFrame (mkImageData 2 1 [0; 0; 0; 255; 10; 20; 30; 0]%Z) 100]))
    /\ length calls
       = length [mkGifFrame (mkImageData 2 1 [0; 0; 0; 255; 10; 20; 30; 0]%Z) 100].
Proof. apply (convertFrames_simple hostNumToString). reflexivity. Defined.

Lemma convertFrames_resolves_witness :
  exists calls docs,
    convertFrames hostNumToString 4
      [mkGifFrame (mkImageData 2 1 [0; 0; 0; 255; 10; 20; 30; 0]%Z) 100;
       mkGifFrame (mkImageData 1 1 [0; 0; 0; 255]%Z) 40]
      (Some "advanced"%string) (mkConvertOptions None (Some 3%Z) None None)
    = (calls ++ [(100%Z, "All frames converted successfully!"%string)], Ok docs)
    /\ length calls
       = length [mkGifFrame (mkImageData 2 1 [0; 0; 0; 255; 10; 20; 30; 0]%Z) 100;
                 mkGifFrame (mkImageData 1 1 [0; 0; 0; 255]%Z) 40]
    /\ Forall2 sameSize
         [mkGifFrame (mkImageData 2 1 [0; 0; 0; 255; 10; 20; 30; 0]%Z) 100;
          mkGifFrame (mkImageData 1 1 [0; 0; 0; 255]%Z) 40] docs.
Proof.
  apply (convertFrames_resolves hostNumToString); [reflexivity|].
  repeat constructor; simpl; lia.
Defined.

(** ** The preview and the outline *)

Section PreviewFacts.
Variables Math_cos Math_sin : float -> float.
Variable Frame : Type.

Lemma createFrameElements_preview (svgFrames : list Frame) (positions : list Position)
    (l : list Z) :
  forall frames,
    mapResult (fun i => createFrameElement (frameAt svgFrames i)
                                           (positions !! Z.to_nat i) false) l
    = Ok frames ->
    exists previews,
      mapResult (fun i => createFrameElement (frameAt svgFrames i)
                                             (positions !! Z.to_nat i) true) l
      = Ok previews
      /\ Forall2 samePlacement previews frames.
Proof.
  induction l as [|i l IH]; intros frames Hframes; simpl in Hframes.
  - injection Hframes as <-. exists []. split; [reflexivity|constructor].
  - simpl. destruct (positions !! Z.to_nat i) as [p|]; [|discriminate].
    destruct (frameAt svgFrames i) as [g|]; [|discriminate].
    simpl in Hframes |- *.
    destruct (mapResult _ l) as [rest|] eqn:Hrest; [|discriminate].
    simpl in Hframes. injection Hframes as <-.
    destruct (IH rest eq_refl) as (previews & -> & Hsame).
    eexists. split; [reflexivity|]. constructor; [|assumption].
    repeat split.
Qed.

(** For a non-empty frame list the preview and the final design are laid
    out alike: same diameter, same outline, same bearing, the same frames at
    the same positions; the preview only adds its background.  Without
    frames the preview is a placeholder, where [generateSpinner] rejects. *)
Theorem generatePreview_same_layout (f : Frame) (fs : list Frame)
    (options : SpinnerOptions) :
  (exists preview log final,
     generatePreview Math_cos Math_sin (Some (f :: fs)) options = Ok (Design preview)
     /\ generateSpinner Math_cos Math_sin (Some (f :: fs)) options
        = (log, Resolved final)
     /\ svg_diameter preview = svg_diameter final
     /\ svg_outline preview = svg_outline final
     /\ svg_bearing preview = svg_bearing final
     /\ Forall2 samePlacement (svg_frames preview) (svg_frames final)
     /\ svg_background preview = true /\ svg_background final = false)
  /\ generatePreview Math_cos Math_sin (Frame := Frame) (Some []) options
     = Ok (Placeholder (createEmptySvg 300 300 "No frames available"))
  /\ generatePreview Math_cos Math_sin (Frame := Frame) None options
     = Ok (Placeholder (createEmptySvg 300 300 "No frames available")).
Proof.
  split; [|split; reflexivity].
  destruct (generateSpinner_resolves_nonempty Math_cos Math_sin Frame f fs options)
    as (frames & Hmap & Hgen).
  destruct (createFrameElements_preview _ _ _ _ Hmap) as (previews & Hprev & Hsame).
  do 3 eexists. split; [|split; [exact Hgen|]].
  - unfold generatePreview, generateSpinnerSvg. rewrite Hprev. reflexivity.
  - cbn [svg_diameter svg_outline svg_bearing svg_frames svg_background].
    repeat split. exact Hsame.
Qed.

End PreviewFacts.

Section OutlineFacts.
Variables Math_cos Math_sin : float -> float.
Variables Math_atan2 Math_pow : float -> float -> float.
Variable numToString : float -> string.

Lemma startsWithMove_app pathData more :
  startsWithMove pathData -> startsWithMove (pathData ++ more).
Proof. intros [rest ->]. now exists (rest ++ more)%string. Qed.

Lemma roundedSteps_move hull l pathData :
  startsWithMove pathData ->
  startsWithMove (foldl (roundedStep numToString hull) pathData l).
Proof.
  intros Hp. apply (foldl_invariant startsWithMove); [assumption|].
  intros acc i Hacc. unfold roundedStep.
  destruct (hull !! i); [|assumption].
  destruct (hull !! _); [|assumption]. destruct (hull !! _); [|assumption].
  now apply startsWithMove_app.
Qed.

Lemma customSteps_move positions centerX centerY maxRadius l pathData :
  Forall (fun i => i <> 0) l ->
  startsWithMove pathData ->
  startsWithMove (foldl (customStep Math_cos Math_sin Math_atan2 numToString positions
                           centerX centerY maxRadius) pathData l).
Proof.
  revert pathData. induction l as [|i l IH]; intros pathData Hl Hp; [assumption|].
  inversion Hl as [|? ? Hi Hl']; subst. simpl. apply IH; [assumption|].
  unfold customStep. destruct (positions !! i); [|assumption].
  destruct (positions !! _); [|assumption].
  destruct (Nat.eqb_spec i 0); [contradiction|].
  now apply startsWithMove_app, startsWithMove_app.
Qed.

(** The two path builders return the empty string for fewer than 3
    positions, but [createSpinnerOutline] never calls them then: whatever
    the style and the positions, the outline's path data starts with a
    move-to (it is never empty). *)
Theorem outlinePathData_never_empty (positions : list Position) (style : string) :
  startsWithMove
    (outlinePathData Math_cos Math_sin Math_atan2 Math_pow numToString positions style).
Proof.
  unfold outlinePathData.
  destruct (Nat.ltb_spec (length positions) 3) as [Hlt|Hge].
  { rewrite orb_true_r. unfold circleOutlinePath. eexists. reflexivity. }
  rewrite orb_false_r. destruct (String.eqb style "simple").
  { unfold circleOutlinePath. eexists. reflexivity. }
  destruct (String.eqb style "rounded").
  - unfold createRoundedOutlinePath.
    destruct (Nat.ltb_spec (length positions) 3) as [Hlt|_]; [lia|]. cbv zeta.
    destruct (lookup_lt_is_Some_2 (hullPoints Math_cos Math_sin positions) 0)
      as [first ->].
    { unfold hullPoints. rewrite length_imap. lia. }
    apply startsWithMove_app, roundedSteps_move. eexists. reflexivity.
  - unfold createCustomOutlinePath.
    destruct (Nat.ltb_spec (length positions) 3) as [Hlt|_]; [lia|]. cbv zeta.
    apply startsWithMove_app.
    destruct (length positions) as [|n] eqn:Hn; [lia|].
    cbn [seq foldl]. apply customSteps_move.
    + apply Forall_forall. intros i Hi. apply list_elem_of_In, in_seq in Hi. lia.
    + unfold customStep.
      destruct (lookup_lt_is_Some_2 positions 0) as [pos ->]; [lia|].
      destruct (lookup_lt_is_Some_2 positions ((0 + 1) mod length positions))
        as [nextPos ->].
      { apply Nat.mod_upper_bound. lia. }
      cbn [Nat.eqb]. apply startsWithMove_app. eexists. reflexivity.
Qed.

Variable Frame : Type.

(** With fewer than 3 frames to place, the outline of the design is the
    circle, whatever outline style is asked for. *)
Theorem outline_circle_below_three_frames (f : Frame) (fs : list Frame)
    (options : SpinnerOptions) :
  (default 8 (frameCount options) < 3)%Z ->
  exists log svg,
    generateSpinner Math_cos Math_sin (Some (f :: fs)) options = (log, Resolved svg)
    /\ length (svg_frames svg) = Z.to_nat (default 8%Z (frameCount options))
    /\ outlinePathData Math_cos Math_sin Math_atan2 Math_pow numToString
         (ol_positions (svg_outline svg)) (ol_style (svg_outline svg))
       = circleOutlinePath numToString (ol_positions (svg_outline svg)).
Proof.
  intros Hcount.
  destruct (generateSpinner_resolves_nonempty Math_cos Math_sin Frame f fs options)
    as (frames & Hmap & Hgen).
  do 2 eexists. split; [exact Hgen|].
  cbn [svg_frames svg_outline createSpinnerOutline ol_positions ol_style]. split.
  - rewrite (mapResult_length _ _ _ Hmap), length_seqZ. reflexivity.
  - unfold outlinePathData. rewrite length_calculateFramePositions.
    destruct (Nat.ltb_spec (Z.to_nat (default 8%Z (frameCount options))) 3); [|lia].
    now rewrite orb_true_r.
Qed.

End OutlineFacts.

Lemma outline_circle_below_three_frames_witness :
  exists log svg,
    generateSpinner hostCos hostSin (Some [tt])
      (mkSpinnerOptions None (Some 2%Z) None None None None (Some "rounded"%string))
    = (log, Resolved svg)
    /\ length (svg_frames svg) = Z.to_nat 2
    /\ outlinePathData hostCos hostSin (fun y x => 0%float) (fun b e => (b * b)%float)
         hostNumToString (ol_positions (svg_outline svg)) (ol_style (svg_outline svg))
       = circleOutlinePath hostNumToString (ol_positions (svg_outline svg)).
Proof.
  apply (outline_circle_below_three_frames hostCos hostSin
           (fun y x => 0%float) (fun b e => (b * b)%float) hostNumToString
           unit tt []
           (mkSpinnerOptions None (Some 2%Z) None None None None
                             (Some "rounded"%string))).
  reflexivity.
Defined.

(** ** Frames of one shade, grids of single pixels *)

Lemma adaptive_not_above_average sum count c pixel :
  (sum <= pixel * count)%Z -> (0 < count)%Z -> (0 <= c)%Z ->
  Qltb (inject_Z pixel) (inject_Z sum / inject_Z count - inject_Z c) = false.
Proof.
  intros Hsc Hc Hcc. unfold Qltb. apply negb_false_iff, Qle_bool_iff.
  assert (inject_Z sum / inject_Z count <= inject_Z pixel)%Q as Hq.
  { apply Qle_shift_div_r.
    - unfold Qlt. simpl. lia.
    - rewrite <- inject_Z_mult. unfold Qle. simpl. lia. }
  assert (0 <= inject_Z c)%Q as Hq'.
  { unfold Qle. simpl. lia. }
  lra.
Qed.

Lemma uniformGray_value imageData g x y :
  uniformGray imageData g = true ->
  (0 <= x < img_width imageData)%Z -> (0 <= y < img_height imageData)%Z ->
  grayValue imageData x y = g.
Proof.
  unfold uniformGray. rewrite forallb_forall. intros H Hx Hy.
  specialize (H (x, y)). cbn [fst snd] in H.
  apply Z.eqb_eq, H, list_elem_of_In, elem_of_pixels. auto.
Qed.

Lemma windowSum_uniform imageData g blockSize x y :
  uniformGray imageData g = true ->
  let st := windowSum (grayscaleOf imageData) (img_width imageData)
                      (img_height imageData) blockSize x y in
  (fst st = g * snd st /\ 0 <= snd st)%Z.
Proof.
  intros Hu. unfold windowSum.
  apply (foldl_invariant (fun st : Z * Z => (fst st = g * snd st /\ 0 <= snd st)%Z));
    [simpl; lia|].
  intros st dy Hst.
  apply (foldl_invariant (fun st : Z * Z => (fst st = g * snd st /\ 0 <= snd st)%Z));
    [assumption|].
  clear st Hst. intros st dx Hst.
  destruct ((0 <=? x + dx) && (x + dx <? img_width imageData)
            && (0 <=? y + dy) && (y + dy <? img_height imageData))%Z eqn:Hin;
    [|assumption].
  apply andb_prop in Hin as [Hin H4]. apply andb_prop in Hin as [Hin H3].
  apply andb_prop in Hin as [H1 H2].
  apply Z.leb_le in H1, H3. apply Z.ltb_lt in H2, H4.
  rewrite grayscaleOf_load by lia.
  rewrite (uniformGray_value imageData g) by (assumption || lia).
  simpl. lia.
Qed.

Lemma preprocessBitmapAdvanced_uniform imageData options g x y :
  documentedRanges options = true ->
  uniformGray imageData g = true ->
  (0 <= x < img_width imageData)%Z -> (0 <= y < img_height imageData)%Z ->
  load (preprocessBitmapAdvanced imageData options) (y * img_width imageData + x)
  = Some 0%Z.
Proof.
  intros Hopts Hu Hx Hy. unfold preprocessBitmapAdvanced.
  pose proof (documented_detailLevel options Hopts) as Hd.
  set (dl := orDefault (detailLevel options) 5) in *.
  match goal with
  | |- load (forEachPixel _ _ ?body _) _ = _ =>
      rewrite (forEachPixel_store_load _ _
                 (fun x y => let '(sum, count) :=
                      windowSum (grayscaleOf imageData) (img_width imageData)
                                (img_height imageData) (11 - dl) x y in
                    if (count =? 0)%Z then 0%Z
                    else if Qltb (inject_Z (default 0%Z
                                    (load (grayscaleOf imageData)
                                          (y * img_width imageData + x))))
                                 (inject_Z sum / inject_Z count - inject_Z (10 - dl))
                         then 1%Z else 0%Z) body)
  end; try assumption.
  - pose proof (windowSum_uniform imageData g (11 - dl) x y Hu) as Hinv.
    destruct (windowSum _ _ _ _ x y) as [sum count].
    cbv zeta in Hinv. simpl in Hinv.
    destruct (Z.eqb_spec count 0); [reflexivity|].
    rewrite grayscaleOf_load by assumption.
    rewrite (uniformGray_value imageData g) by assumption. simpl default.
    rewrite adaptive_not_above_average by lia. reflexivity.
  - intros arr x' y'. destruct (windowSum _ _ _ _ x' y'). reflexivity.
Qed.

Section UniformFrames.
Variable numToString : float -> string.

(** The adaptive threshold finds nothing in a frame of one shade: for
    options within the documented ranges the advanced mode converts a frame
    whose pixels all have the same grayscale value (solid black, say) to a
    document without any path. *)
Theorem convertFrameAdvanced_uniform fuel imageData options g :
  documentedRanges options = true ->
  uniformGray imageData g = true ->
  convertFrameAdvanced numToString fuel imageData options
  = Ok (newSvgDocument numToString imageData []).
Proof.
  intros Hopts Hu. unfold convertFrameAdvanced, simulatePotraceResults.
  rewrite findContours_no_foreground; [reflexivity|].
  intros x y Hx Hy.
  rewrite (preprocessBitmapAdvanced_uniform imageData options g) by assumption.
  discriminate.
Qed.

End UniformFrames.

Lemma convertFrameAdvanced_uniform_witness :
  convertFrameAdvanced hostNumToString 0
    (mkImageData 2 1 [0; 0; 0; 255; 0; 0; 0; 255]%Z)
    (mkConvertOptions None None None None)
  = Ok (newSvgDocument hostNumToString
          (mkImageData 2 1 [0; 0; 0; 255; 0; 0; 0; 255]%Z) []).
Proof.
  apply (convertFrameAdvanced_uniform hostNumToString 0 _ _ 0); reflexivity.
Defined.

Lemma tryDirections_isolated bitmap width height cx cy tries :
  (forall d, d < 4 ->
     isForeground bitmap width height (cx + dx !!! d) (cy + dy !!! d) = false) ->
  forall dir, dir < 4 ->
    found (tryDirections bitmap width height cx cy dir tries) = false.
Proof.
  intros Hiso. induction tries as [|tries IH]; intros dir Hdir; cbn [tryDirections];
    cbv zeta; [reflexivity|].
  rewrite Hiso by assumption. apply IH, Nat.mod_upper_bound. lia.
Qed.

Lemma isolatedPixels_neighbours bitmap width height x y d :
  isolatedPixels bitmap width height = true ->
  (0 <= x < width)%Z -> (0 <= y < height)%Z ->
  load bitmap (y * width + x) = Some 1%Z -> d < 4 ->
  isForeground bitmap width height (x + dx !!! d) (y + dy !!! d) = false.
Proof.
  unfold isolatedPixels. rewrite forallb_forall. intros H Hx Hy Hone Hd.
  specialize (H (x, y)). cbn [fst snd] in H.
  assert (isForeground bitmap width height x y = true) as Hfg.
  { unfold isForeground. rewrite bool_decide_eq_true_2 by assumption.
    repeat (apply andb_true_intro; split); try apply Z.leb_le; try apply Z.ltb_lt;
      try reflexivity; lia. }
  rewrite Hfg in H. simpl negb in H. rewrite orb_false_l in H.
  assert (In (x, y) (pixels width height)) as Hin
    by (apply list_elem_of_In, elem_of_pixels; auto).
  specialize (H Hin). rewrite forallb_forall in H.
  apply negb_true_iff, H, in_seq. lia.
Qed.

(** Specks leave no contour: on a grid none of whose foreground pixels has a
    foreground pixel next to it, [findContours] returns nothing. *)
Theorem findContours_isolated_pixels bitmap width height :
  isolatedPixels bitmap width height = true ->
  findContours bitmap width height = [].
Proof.
  intros Hiso. unfold findContours, scanContours.
  apply (forEachPixel_invariant (fun st : list (list Pixel) * list Z => fst st = []));
    [reflexivity|].
  intros st x y Hx Hy Hst. unfold scanPixel.
  destruct (bool_decide _ && bool_decide _) eqn:Hseed; [|assumption].
  apply andb_prop in Hseed as [Hone _]. apply bool_decide_eq_true_1 in Hone.
  cbn [fst]. unfold traceContour.
  destruct (Z.to_nat (width * height)) as [|steps] eqn:Hsteps; [nia|].
  rewrite (traceLoop_break _ _ _ _ _ _ eq_refl).
  - cbn [t_contour app length]. simpl. assumption.
  - cbn [t_cx t_cy t_dir].
    rewrite tryDirections_isolated; [reflexivity| |lia].
    intros d Hd. now apply isolatedPixels_neighbours.
Qed.

Lemma findContours_isolated_pixels_witness :
  findContours [1; 0; 1; 0; 0; 0; 0; 1; 0]%Z 3 3 = [].
Proof. apply findContours_isolated_pixels. reflexivity. Defined.

(** ** Contour tracing: the marks *)

Lemma load_store_mark arr i j :
  load arr j = Some 1%Z -> load (store arr i 1) j = Some 1%Z.
Proof.
  unfold load, store. destruct (j <? 0)%Z eqn:Hj; [discriminate|].
  destruct (i <? 0)%Z eqn:Hi; [auto|]. intros Hl.
  destruct (decide (Z.to_nat i = Z.to_nat j)) as [E|E].
  - rewrite E. apply list_lookup_insert_eq. now apply lookup_lt_Some in Hl.
  - now rewrite list_lookup_insert_ne.
Qed.

Lemma traceLoop_marks bitmap width height steps :
  forall t,
    let r := traceLoop bitmap width height steps t in
    length (t_visited r) = length (t_visited t)
    /\ (forall j, load (t_visited t) j = Some 1%Z -> load (t_visited r) j = Some 1%Z)
    /\ exists more, t_contour r = t_contour t ++ more.
Proof.
  induction steps as [|steps IH]; intros t; cbn [traceLoop]; cbv zeta.
  - split; [reflexivity|]. split; [auto|]. exists []. now rewrite app_nil_r.
  - destruct (negb _ || _).
    + cbn [t_visited t_contour]. rewrite length_store.
      split; [reflexivity|]. split; [intros j; apply load_store_mark|]. eauto.
    + match goal with |- context [traceLoop _ _ _ _ ?t'] => specialize (IH t') end.
      cbv zeta in IH. cbn [t_visited t_contour] in IH.
      destruct IH as (Hlen & Hmarks & more & Hmore).
      rewrite length_store in Hlen. split; [assumption|].
      split; [intros j Hj; apply Hmarks, load_store_mark, Hj|].
      exists ([(t_cx t, t_cy t)] ++ more). now rewrite app_assoc.
Qed.

Lemma traceLoop_first_mark bitmap width height steps t :
  (0 <= t_cy t * width + t_cx t)%Z ->
  Z.to_nat (t_cy t * width + t_cx t) < length (t_visited t) ->
  let r := traceLoop bitmap width height (S steps) t in
  load (t_visited r) (t_cy t * width + t_cx t) = Some 1%Z
  /\ exists more, t_contour r = t_contour t ++ (t_cx t, t_cy t) :: more.
Proof.
  intros Hidx Hlen. cbn [traceLoop]. cbv zeta.
  destruct (negb _ || _).
  - cbn [t_visited t_contour]. split; [now apply load_store_eq|]. now exists [].
  - match goal with |- context [traceLoop _ _ _ _ ?t'] =>
      pose proof (traceLoop_marks bitmap width height steps t') as H end.
    cbv zeta in H. cbn [t_visited t_contour] in H.
    destruct H as (_ & Hmarks & more & ->).
    split; [apply Hmarks; now apply load_store_eq|].
    exists more. now rewrite <- app_assoc.
Qed.

Lemma scanPixel_inv bitmap width height st x y :
  (0 <= x < width)%Z -> (0 <= y < height)%Z ->
  scanInv bitmap width st -> scanInv bitmap width (scanPixel bitmap width height st x y).
Proof.
  intros Hx Hy (Hlen & Hheads & Hnodup). unfold scanPixel.
  destruct (bool_decide _ && bool_decide _) eqn:Hseed; [|repeat split; assumption].
  apply andb_prop in Hseed as [Hone Hzero].
  apply bool_decide_eq_true_1 in Hone, Hzero.
  assert (0 <= y * width + x)%Z as Hidx by nia.
  assert (Z.to_nat (y * width + x) < length (snd st)) as Hin.
  { rewrite Hlen. unfold load in Hone.
    destruct (y * width + x <? 0)%Z; [discriminate|]. now apply lookup_lt_Some in Hone. }
  unfold traceContour.
  destruct (Z.to_nat (width * height)) as [|steps] eqn:Hsteps; [nia|].
  pose proof (traceLoop_marks bitmap width height (S steps)
                (mkTrace x y 0 0 [] (snd st))) as (Hlen' & Hmarks & _).
  pose proof (traceLoop_first_mark bitmap width height steps
                (mkTrace x y 0 0 [] (snd st)) Hidx Hin) as (Hmark & more & Hmore).
  cbn [t_visited t_contour t_cx t_cy app] in Hlen', Hmarks, Hmark, Hmore.
  set (t := traceLoop bitmap width height (S steps) (mkTrace x y 0 0 [] (snd st))) in *.
  assert (Forall (fun c => exists p, head c = Some p
                   /\ load (t_visited t) (snd p * width + fst p) = Some 1%Z) (fst st))
    as Hheads'.
  { eapply Forall_impl; [exact Hheads|]. intros c (p & Hp & Hl). eauto. }
  unfold scanInv.
  destruct (2 <? length (t_contour t)); cbn [fst snd];
    (split; [congruence|]); (split; [|]); try assumption.
  - apply Forall_app. split; [assumption|]. constructor; [|constructor].
    exists (x, y). rewrite Hmore. split; [reflexivity|assumption].
  - rewrite map_app. apply NoDup_app. split; [assumption|].
    split; [|apply NoDup_singleton].
    intros h Hh Hh'. apply list_elem_of_singleton in Hh'. subst h.
    apply list_elem_of_fmap in Hh as (c & Hc & Hcin).
    rewrite Forall_forall in Hheads. destruct (Hheads c Hcin) as (p & Hp & Hl).
    rewrite Hmore in Hc. simpl in Hc. rewrite Hp in Hc. injection Hc as <-.
    cbn [fst snd] in Hl. congruence.
Qed.

(** No two contours start at the same pixel: [visited] keeps a pixel from
    starting a second trace. *)
Theorem findContours_distinct_starts bitmap width height :
  NoDup (map head (findContours bitmap width height)).
Proof.
  unfold findContours, scanContours.
  apply (forEachPixel_invariant (scanInv bitmap width)).
  - split; [apply length_replicate|]. split; constructor.
  - intros st x y Hx Hy. now apply scanPixel_inv.
Qed.
(** ** The size of the grids *)

Lemma preprocess_grid_size imageData options :
  length (preprocessBitmap imageData options)
  = Z.to_nat (img_width imageData * img_height imageData)
  /\ length (preprocessBitmapAdvanced imageData options)
     = Z.to_nat (img_width imageData * img_height imageData).
Proof.
  split.
  - unfold preprocessBitmap.
    apply (forEachPixel_invariant
             (fun arr => length arr
                         = Z.to_nat (img_width imageData * img_height imageData))).
    + apply length_replicate.
    + intros arr x y _ _ Hlen. destruct (load _ _) as [[| |]|]; now rewrite length_store.
  - unfold preprocessBitmapAdvanced.
    apply (forEachPixel_invariant
             (fun arr => length arr
                         = Z.to_nat (img_width imageData * img_height imageData))).
    + apply length_replicate.
    + intros arr x y _ _ Hlen. destruct (windowSum _ _ _ _ x y).
      now rewrite length_store.
Qed.


(** ** From a frame to its paths: a rectangle *)

Lemma preprocessBitmap_rectangle imageData options x0 y0 W H :
  (0 < img_width imageData)%Z -> (0 <= img_height imageData)%Z ->
  showsRectangle imageData options x0 y0 W H = true ->
  preprocessBitmap imageData options
  = rectGrid (img_width imageData) (img_height imageData) x0 y0 W H.
Proof.
  intros Hw Hh Hshows.
  destruct (preprocess_grid_size imageData options) as [Hlen _].
  apply list_eq. intros i.
  destruct (le_lt_dec (Z.to_nat (img_width imageData * img_height imageData)) i)
    as [Hge|Hlt].
  - rewrite !lookup_ge_None_2; [reflexivity| |lia].
    unfold rectGrid. rewrite length_map, length_pixels by lia. assumption.
  - pose proof (lookup_pixels_nat _ _ i Hw Hh Hlt) as Hi.
    destruct (lookup_pixels_inv _ _ _ _ _ Hw Hh Hi) as (Hidx & Hx & Hy).
    pose proof (preprocessBitmap_load imageData options _ _ Hx Hy) as Hload.
    unfold load in Hload. rewrite <- Hidx in Hload.
    destruct (Z.ltb_spec (Z.of_nat i) 0); [lia|]. rewrite Nat2Z.id in Hload.
    rewrite Hload. unfold rectGrid. rewrite list_lookup_fmap, Hi. simpl. f_equal.
    unfold showsRectangle in Hshows. rewrite forallb_forall in Hshows.
    apply Z.eqb_eq.
    apply (Hshows (Z.of_nat i mod img_width imageData,
                   Z.of_nat i / img_width imageData)%Z).
    apply list_elem_of_In. eapply list_elem_of_lookup_2. exact Hi.
Qed.

Section RectangleFrames.
Variable numToString : float -> string.

Lemma contourToSvgPath_lines (first : Point) (rest : list Point) :
  contourToSvgPath numToString (first :: rest) 0
  = renderPath numToString (straightPolygon (first :: rest)).
Proof.
  unfold contourToSvgPath, renderPath. simpl.
  change (0 =? 0)%float with true. cbv iota.
  rewrite foldl_app. simpl. f_equal.
  rewrite Nat.sub_0_r. apply (lineStep_fold numToString [first] rest).
Qed.

Lemma perimeter_polygon x0 y0 W H :
  (2 <= W)%Z -> (2 <= H)%Z ->
  contourToSvgPath numToString (map pixelPoint (perimeter x0 y0 W H)) 0
  = renderPath numToString (straightPolygon (map pixelPoint (perimeter x0 y0 W H))).
Proof.
  intros HW HH. unfold perimeter.
  rewrite (seqZ_cons 0) by lia. simpl map. apply contourToSvgPath_lines.
Qed.

(** Simple mode, without corner smoothing, on a frame that shows one filled
    rectangle of at least 2 x 2 pixels: the first path of the document is
    the closed polygon through the boundary pixels of the rectangle, in
    trace order, and it is the only path when the rectangle has 2 rows or
    2 columns. *)
Theorem convertFrameSimple_rectangle imageData options x0 y0 W H :
  rectInGrid (img_width imageData) (img_height imageData) x0 y0 W H ->
  showsRectangle imageData options x0 y0 W H = true ->
  orDefault (cornerSmoothing options) 0 = 0%Z ->
  head (doc_paths (convertFrameSimple numToString imageData options))
  = Some (pathElement
            (renderPath numToString
               (straightPolygon (map pixelPoint (perimeter x0 y0 W H)))))
  /\ ((W = 2 \/ H = 2)%Z ->
      doc_paths (convertFrameSimple numToString imageData options)
      = [pathElement
           (renderPath numToString
              (straightPolygon (map pixelPoint (perimeter x0 y0 W H))))]).
Proof.
  intros inGrid Hshows Hsmooth.
  pose proof inGrid as (Hx0 & Hy0 & Hxw & Hyh & HW & HH).
  unfold convertFrameSimple. cbn [doc_paths newSvgDocument].
  rewrite Hsmooth.
  rewrite (preprocessBitmap_rectangle imageData options x0 y0 W H)
    by (assumption || lia).
  change (Z2F 0) with 0%float. split.
  - unfold findContours.
    rewrite (scanContours_from _ _ _ (S (Z.to_nat (y0 * img_width imageData + x0)))).
    match goal with
    | |- context [foldl ?f ?st ?l] =>
        pose proof (scan_head (img_width imageData) (img_height imageData)
                      x0 y0 W H l st (perimeter x0 y0 W H)) as Hhead
    end.
    rewrite (scanUpTo_after_seed _ _ _ _ _ _ inGrid) in Hhead |- *.
    specialize (Hhead eq_refl).
    destruct (fst (foldl _ _ _)) as [|c cs]; [discriminate|].
    injection Hhead as ->. simpl. now rewrite perimeter_polygon.
  - intros Hthin. unfold findContours.
    rewrite (scan_after_seed_thin _ _ _ _ _ _ inGrid Hthin). simpl.
    now rewrite perimeter_polygon.
Qed.

End RectangleFrames.

Lemma convertFrameSimple_rectangle_witness :
  head (doc_paths (convertFrameSimple hostNumToString
                     (mkImageData 3 2 [0; 0; 0; 255; 0; 0; 0; 255; 255; 255; 255; 255;
                                       0; 0; 0; 255; 0; 0; 0; 255; 0; 0; 0; 0]%Z)
                     (mkConvertOptions None None None None)))
  = Some (pathElement
            (renderPath hostNumToString
               (straightPolygon (map pixelPoint (perimeter 0 0 2 2)))))
  /\ ((2 = 2 \/ 2 = 2)%Z ->
      doc_paths (convertFrameSimple hostNumToString
                   (mkImageData 3 2 [0; 0; 0; 255; 0; 0; 0; 255; 255; 255; 255; 255;
                                     0; 0; 0; 255; 0; 0; 0; 255; 0; 0; 0; 0]%Z)
                   (mkConvertOptions None None None None))
      = [pathElement
           (renderPath hostNumToString
              (straightPolygon (map pixelPoint (perimeter 0 0 2 2))))]).
Proof.
  apply (convertFrameSimple_rectangle hostNumToString);
    [unfold rectInGrid; simpl; lia | reflexivity | reflexivity].
Defined.

(** ** An outline without frames *)

Section NoFrames.
Variables Math_cos Math_sin : float -> float.
Variable numToString : float -> string.
Variable Frame : Type.

(** With [frameCount] 0 or negative and a non-empty frame list,
    [generateSpinner] still resolves: the design holds no frame, and the
    radius of its circular outline is -Infinity ([Math.max] of no value,
    plus the padding). *)
Theorem outline_without_frames (f : Frame) (fs : list Frame) (options : SpinnerOptions) :
  (default 8 (frameCount options) <= 0)%Z ->
  exists log svg,
    generateSpinner Math_cos Math_sin (Some (f :: fs)) options = (log, Resolved svg)
    /\ svg_frames svg = []
    /\ ol_positions (svg_outline svg) = []
    /\ circleOutlinePath numToString (ol_positions (svg_outline svg))
       = ("M" ++ numToString PrimFloat.neg_infinity
              ++ ",0 A" ++ numToString PrimFloat.neg_infinity
              ++ "," ++ numToString PrimFloat.neg_infinity
              ++ " 0 1,1 " ++ numToString PrimFloat.infinity
              ++ ",0 A" ++ numToString PrimFloat.neg_infinity
              ++ "," ++ numToString PrimFloat.neg_infinity
              ++ " 0 1,1 " ++ numToString PrimFloat.neg_infinity ++ ",0 Z")%string.
Proof.
  intros Hcount.
  destruct (generateSpinner_resolves_nonempty Math_cos Math_sin Frame f fs options)
    as (frames & Hmap & Hgen).
  do 2 eexists. split; [exact Hgen|].
  cbn [svg_frames svg_outline createSpinnerOutline ol_positions ol_style].
  assert (calculateFramePositions Math_cos Math_sin (default 8%Z (frameCount options))
            (default 100%Z (diameter options)) (default 22%Z (bearingDiameter options))
            (default 5%Z (spacing options)) = []) as ->.
  { apply length_zero_iff_nil. rewrite length_calculateFramePositions. lia. }
  split; [|split; reflexivity].
  apply length_zero_iff_nil. rewrite (mapResult_length _ _ _ Hmap), length_seqZ. lia.
Qed.

End NoFrames.

Lemma outline_without_frames_witness :
  exists log svg,
    generateSpinner hostCos hostSin (Some [tt])
      (mkSpinnerOptions None (Some 0%Z) None None None None None)
    = (log, Resolved svg)
    /\ svg_frames svg = []
    /\ ol_positions (svg_outline svg) = []
    /\ circleOutlinePath hostNumToString (ol_positions (svg_outline svg))
       = ("M" ++ hostNumToString PrimFloat.neg_infinity
              ++ ",0 A" ++ hostNumToString PrimFloat.neg_infinity
              ++ "," ++ hostNumToString PrimFloat.neg_infinity
              ++ " 0 1,1 " ++ hostNumToString PrimFloat.infinity
              ++ ",0 A" ++ hostNumToString PrimFloat.neg_infinity
              ++ "," ++ hostNumToString PrimFloat.neg_infinity
              ++ " 0 1,1 " ++ hostNumToString PrimFloat.neg_infinity ++ ",0 Z")%string.
Proof.
  apply (outline_without_frames hostCos hostSin hostNumToString unit tt []
           (mkSpinnerOptions None (Some 0%Z) None None None None None)).
  simpl. lia.
Defined.
